(** * AtomVecRBC: the particle store and its wire encodings

    A shallow embedding of [src/USER-MESO/atom_vec_rbc.cpp] (the [rbc] atom
    style of USERMESO 2.0, a LAMMPS derivative) and the properties of its
    pack/unpack protocols.

    Conventions of the embedding.
    - A C [int] is a [Z], and the ranges a statement needs are hypotheses
      ([int_range]).  Where the code narrows a wider value to an [int]
      ([int img = image[j]], the result of [atoi]) or negates one
      ([MAX(t, -t)]), the value is reduced to 32 bits in two's complement
      ([to_int]); the overflow of a sum or of a counter is undefined in C++
      and is not modelled.
    - A C [double] is a primitive binary64 float, so every addition the code
      performs rounds as the hardware does.
    - A per-atom array is a total function from the slot index; the capacity
      [nmax] is tracked beside it, because [grow] and its failure depend on it.
      Reading or writing past the capacity is undefined in C++ and has no
      special treatment here.
    - [double *buf] is a function from the word index to a [word]; a word keeps
      track of whether it was last written as a [double] or through the
      [tagint] pointer alias the code uses for image flags.
    - A run that calls [error->one] stops: such a call yields [Fatal]. *)

From Stdlib Require Import ZArith Lia Bool String Ascii Floats List.
Import ListNotations.
Local Open Scope Z_scope.

(** ** C numbers *)

Definition INT_MIN : Z := -2147483648.
Definition INT_MAX : Z := 2147483647.

Definition int_range (z : Z) : Prop := INT_MIN <= z <= INT_MAX.

(** The conversion of an integer to [int]: its low 32 bits, read in two's
    complement. *)
Definition to_int (z : Z) : Z := (z - INT_MIN) mod 2 ^ 32 + INT_MIN.

(** [-a] on an [int]; [-INT_MIN] is undefined in C++ and is [INT_MIN] on
    x86-64. *)
Definition int_neg (a : Z) : Z := to_int (- a).

(** [a >> s] on an [int]: an arithmetic shift.  A count of 32 or more is
    undefined in C++; x86-64 shifts by the low five bits of the count. *)
Definition int_shr (a s : Z) : Z := Z.shiftr a (Z.land s 31).

Definition LONG_MIN : Z := -9223372036854775808.
Definition LONG_MAX : Z := 9223372036854775807.

Definition double : Set := float.
Bind Scope float_scope with double.

(** The implicit conversion [int -> double] (round to nearest even; exact on
    every 32-bit integer). *)
Definition double_of_int (z : Z) : double :=
  SF2Prim (binary_normalize prec emax z 0 false).

(** [static_cast<int>(d)]: truncation toward zero.  Out of the range of [int]
    the conversion is undefined in C++; the value given here is the one x86-64
    produces ([cvttsd2si]'s indefinite integer). *)
Definition int_of_double (d : double) : Z :=
  match Prim2SF d with
  | S754_zero _ => 0
  | S754_finite s m e =>
      let mag := Z.shiftl (Zpos m) e in
      let z := if s then - mag else mag in
      if (INT_MIN <=? z) && (z <=? INT_MAX) then z else INT_MIN
  | _ => INT_MIN
  end.

Definition double_finite (d : double) : bool :=
  match Prim2SF d with
  | S754_zero _ | S754_finite _ _ _ => true
  | _ => false
  end.

(** The macro [MAX(A,B)]: [((A) > (B) ? (A) : (B))]. *)
Definition MAX (a b : Z) : Z := if a >? b then a else b.

(** libc's [atoi], which is [(int) strtol(s, NULL, 10)]: optional white
    space, an optional sign, then decimal digits up to the first character
    that is not one; [strtol] stops at the ends of the range of [long], and
    the conversion to [int] keeps the low 32 bits. *)
Definition isspace (c : ascii) : bool :=
  let n := nat_of_ascii c in
  (Nat.eqb n 32 || (Nat.leb 9 n && Nat.leb n 13))%bool.

Definition digit_of (c : ascii) : option Z :=
  let n := nat_of_ascii c in
  if (Nat.leb 48 n && Nat.leb n 57)%bool then Some (Z.of_nat (n - 48)) else None.

Fixpoint atoi_digits (acc : Z) (s : string) : Z :=
  match s with
  | String c s' =>
      match digit_of c with
      | Some d => atoi_digits (10 * acc + d) s'
      | None => acc
      end
  | EmptyString => acc
  end.

(** The number written, before any range is applied. *)
Fixpoint decimal (s : string) : Z :=
  match s with
  | String c s' =>
      if isspace c then decimal s'
      else if Ascii.eqb c "-"%char then - atoi_digits 0 s'
      else if Ascii.eqb c "+"%char then atoi_digits 0 s'
      else atoi_digits 0 s
  | EmptyString => 0
  end.

Definition strtol (s : string) : Z :=
  Z.max LONG_MIN (Z.min LONG_MAX (decimal s)).

Definition atoi (s : string) : Z := to_int (strtol s).

(** ** What the build fixes *)

(** Modelled from the spec: the macros [IMGMASK], [IMGMAX], [IMGBITS],
    [IMG2BITS] and [MAXSMALLINT] come from [lmptype.h], which is not part of
    the sources at hand.  The spec describes them as "a fixed field width per
    axis with a bias so the encoded field is always non-negative" and as "the
    platform's small integer range"; they are parameters here, constrained by
    [lmptype_ok].  The last two fields say what a buffer word holds when it is
    read through the pointer type it was not written with; nothing the code
    does on matching protocols depends on them. *)
Class LmpType : Type := {
  IMGMASK : Z;
  IMGMAX : Z;
  IMGBITS : Z;
  IMG2BITS : Z;
  MAXSMALLINT : Z;
  tagint_of_double_bits : double -> Z;
  double_of_tagint_bits : Z -> double
}.

Record lmptype_ok {lmp : LmpType} : Prop := {
  imgbits_pos : 0 < IMGBITS;
  img2bits_eq : IMG2BITS = 2 * IMGBITS;
  imgmask_eq : IMGMASK = Z.ones IMGBITS;
  imgmax_eq : IMGMAX = 2 ^ (IMGBITS - 1)
}.

(** The values of the stock build ([-DLAMMPS_SMALLBIG]): ten bits per axis. *)
Definition smallbig : LmpType := {|
  IMGMASK := 1023;
  IMGMAX := 512;
  IMGBITS := 10;
  IMG2BITS := 20;
  MAXSMALLINT := INT_MAX;
  tagint_of_double_bits := fun _ => 0;
  double_of_tagint_bits := fun _ => 0%float
|}.

Definition DELTA : Z := 10000.

(** ** The periodic image flags *)

Section Image.
Context {lmp : LmpType}.

(** The four lines [int img = image[j]; int ximg = (img & IMGMASK) - IMGMAX;
    ...] that open every remapping block of [pack_comm_vel], [pack_border]
    and [pack_border_vel]: the stored code is narrowed to an [int] first, and
    the shifts are shifts of an [int]. *)
Definition image_decode (img : Z) : Z * Z * Z :=
  let img := to_int img in
  (Z.land img IMGMASK - IMGMAX,
   Z.land (int_shr img IMGBITS) IMGMASK - IMGMAX,
   Z.land (int_shr img IMG2BITS) IMGMASK - IMGMAX).

(** The decoding of [pack_data], on the stored [tagint] itself: nothing is
    narrowed, and the third field is not masked. *)
Definition image_decode_data (img : Z) : Z * Z * Z :=
  (Z.land img IMGMASK - IMGMAX,
   Z.land (Z.shiftr img IMGBITS) IMGMASK - IMGMAX,
   Z.shiftr img IMG2BITS - IMGMAX).

(** The expression assigned to [newimg], as a function of the three wrap
    counts it packs. *)
Definition image_encode (wx wy wz : Z) : Z :=
  Z.lor (Z.lor (Z.land (wx + IMGMAX) IMGMASK)
               (Z.shiftl (Z.land (wy + IMGMAX) IMGMASK) IMGBITS))
        (Z.shiftl (Z.land (wz + IMGMAX) IMGMASK) IMG2BITS).

(** The whole remapping block for the periodic offset [pbc], from
    [int img = image[j]] to [newimg]. *)
Definition image_remap (img : Z) (pbc : nat -> Z) : Z :=
  let '(ximg, yimg, zimg) := image_decode img in
  image_encode (ximg - pbc 0%nat) (yimg - pbc 1%nat) (zimg - pbc 2%nat).

(** The image flags [create_atom] gives a new atom. *)
Definition image_zero : Z :=
  Z.lor (Z.lor (Z.shiftl IMGMAX IMG2BITS) (Z.shiftl IMGMAX IMGBITS)) IMGMAX.
End Image.

(** ** Buffers *)

Inductive word : Set :=
| Wdouble (d : double)
| Wtagint (t : Z).

Definition buffer : Set := nat -> word.

Section Words.
Context {lmp : LmpType}.

(** [buf[m]] read as a [double]. *)
Definition as_double (w : word) : double :=
  match w with
  | Wdouble d => d
  | Wtagint t => double_of_tagint_bits t
  end.

(** [buf[m]] read through the [tagint] pointer alias. *)
Definition as_tagint (w : word) : Z :=
  match w with
  | Wtagint t => t
  | Wdouble d => tagint_of_double_bits d
  end.

(** [static_cast<int>(buf[m])]. *)
Definition as_int (w : word) : Z := int_of_double (as_double w).
End Words.

(** [buf[m++] = v] for an [int] or a [double] [v], and the store through the
    [tagint] pointer alias. *)
Definition Wint (z : Z) : word := Wdouble (double_of_int z).

(** The buffer after the words [ws] were written from index 0 on. *)
Definition blit (ws : list word) (buf : buffer) : buffer :=
  fun k => nth k ws (buf k).

(** [&buf[m]]. *)
Definition advance (m : nat) (buf : buffer) : buffer :=
  fun k => buf (m + k)%nat.

(** ** Fatal errors *)

Inductive result (A : Type) : Type :=
| Ok (a : A)
| Fatal (msg : string).
Arguments Ok {A} a.
Arguments Fatal {A} msg.

Definition bind {A B : Type} (r : result A) (k : A -> result B) : result B :=
  match r with
  | Ok a => k a
  | Fatal msg => Fatal msg
  end.

Notation "x <- r ;; k" := (bind r (fun x => k))
  (at level 61, r at next level, right associativity).

(** ** Loops *)

(** [for (k = k0; k < k0 + n; k++) s = body k s]. *)
Fixpoint for_from {T : Type} (k0 n : nat) (body : nat -> T -> T) (s : T) : T :=
  match n with
  | O => s
  | S n' => for_from (S k0) n' body (body k0 s)
  end.

Definition for_ {T : Type} (n : nat) (body : nat -> T -> T) (s : T) : T :=
  for_from 0 n body s.

(** The number of rounds of [for (k = 0; k < c; k++)] for an [int] [c]. *)
Definition rounds (c : Z) : nat := Z.to_nat c.

(** ** The store *)

(** The per-atom arrays, by the name [grow] allocates them under: one value per
    atom ([ivec]), a row of integers per atom ([iarr]), a row of doubles per
    atom ([darr]). *)
Inductive ivec : Set :=
| a_tag | a_type | a_mask | a_image | a_molecule
| a_num_bond | a_num_angle | a_num_dihedral.

Inductive iarr : Set :=
| a_nspecial | a_special
| a_bond_type | a_bond_atom
| a_angle_type | a_angle_atom1 | a_angle_atom2 | a_angle_atom3
| a_dihedral_type | a_dihedral_atom1 | a_dihedral_atom2 | a_dihedral_atom3
| a_dihedral_atom4.

Inductive darr : Set :=
| a_x | a_v | a_f | a_bond_r0 | a_angle_a0.

Definition ivec_eq_dec (a b : ivec) : {a = b} + {a <> b}.
Proof. decide equality. Defined.

Definition iarr_eq_dec (a b : iarr) : {a = b} + {a <> b}.
Proof. decide equality. Defined.

Definition darr_eq_dec (a b : darr) : {a = b} + {a <> b}.
Proof. decide equality. Defined.

(** What the code reads of [domain]. *)
Record Domain : Set := {
  triclinic : Z;
  xprd : double;
  yprd : double;
  zprd : double;
  xy : double;
  xz : double;
  yz : double
}.

Section Store.
Context {FS : Type}.

(** The callbacks of a registered [Fix], over the state [FS] that all fixes
    share ([modify]).  A packing callback yields the words it writes from the
    pointer it is given on, and returns their number; an unpacking callback
    returns the number of words it consumed. *)
Record Fix : Type := {
  fix_grow_arrays : Z -> FS -> FS;
  fix_copy_arrays : nat -> nat -> Z -> FS -> FS;
  fix_pack_border : nat -> (nat -> nat) -> FS -> list word;
  fix_unpack_border : nat -> nat -> buffer -> FS -> nat * FS;
  fix_pack_exchange : nat -> FS -> list word;
  fix_unpack_exchange : nat -> buffer -> FS -> nat * FS;
  fix_size_restart : nat -> FS -> Z;
  fix_pack_restart : nat -> FS -> list word
}.

(** What the operations read and never write: [atom->ntypes], [domain], the
    deformation settings of [AtomVec], and the fixes registered in
    [atom->extra_grow], [atom->extra_border] and [atom->extra_restart]. *)
Record Config : Type := {
  ntypes : Z;
  domain : Domain;
  deform_vremap : Z;
  deform_groupbit : Z;
  h_rate : nat -> double;
  extra_grow : list Fix;
  extra_border : list Fix;
  extra_restart : list Fix
}.

Record Store : Type := {
  cfg : Config;
  nmax : Z;
  nlocal : nat;
  ivecs : ivec -> nat -> Z;
  iarrs : iarr -> nat -> nat -> Z;
  darrs : darr -> nat -> nat -> double;
  fixes : FS
}.

Definition tag (st : Store) := ivecs st a_tag.
Definition type (st : Store) := ivecs st a_type.
Definition mask (st : Store) := ivecs st a_mask.
Definition image (st : Store) := ivecs st a_image.
Definition molecule (st : Store) := ivecs st a_molecule.
Definition num_bond (st : Store) := ivecs st a_num_bond.
Definition num_angle (st : Store) := ivecs st a_num_angle.
Definition num_dihedral (st : Store) := ivecs st a_num_dihedral.
Definition nspecial (st : Store) := iarrs st a_nspecial.
Definition special (st : Store) := iarrs st a_special.
Definition bond_type (st : Store) := iarrs st a_bond_type.
Definition bond_atom (st : Store) := iarrs st a_bond_atom.
Definition angle_type (st : Store) := iarrs st a_angle_type.
Definition angle_atom1 (st : Store) := iarrs st a_angle_atom1.
Definition angle_atom2 (st : Store) := iarrs st a_angle_atom2.
Definition angle_atom3 (st : Store) := iarrs st a_angle_atom3.
Definition dihedral_type (st : Store) := iarrs st a_dihedral_type.
Definition dihedral_atom1 (st : Store) := iarrs st a_dihedral_atom1.
Definition dihedral_atom2 (st : Store) := iarrs st a_dihedral_atom2.
Definition dihedral_atom3 (st : Store) := iarrs st a_dihedral_atom3.
Definition dihedral_atom4 (st : Store) := iarrs st a_dihedral_atom4.
Definition x (st : Store) := darrs st a_x.
Definition v (st : Store) := darrs st a_v.
Definition f (st : Store) := darrs st a_f.
Definition bond_r0 (st : Store) := darrs st a_bond_r0.
Definition angle_a0 (st : Store) := darrs st a_angle_a0.

(** Assignments: [a[i] = z], [a[i][k] = z], [a[i][k] = d]. *)
Definition set_ivec (a : ivec) (i : nat) (z : Z) (st : Store) : Store :=
  {| cfg := cfg st; nmax := nmax st; nlocal := nlocal st;
     ivecs := fun b j =>
       if ivec_eq_dec a b then if Nat.eqb i j then z else ivecs st b j
       else ivecs st b j;
     iarrs := iarrs st; darrs := darrs st; fixes := fixes st |}.

Definition set_iarr (a : iarr) (i k : nat) (z : Z) (st : Store) : Store :=
  {| cfg := cfg st; nmax := nmax st; nlocal := nlocal st;
     ivecs := ivecs st;
     iarrs := fun b j l =>
       if iarr_eq_dec a b then
         if (Nat.eqb i j && Nat.eqb k l)%bool then z else iarrs st b j l
       else iarrs st b j l;
     darrs := darrs st; fixes := fixes st |}.

Definition set_darr (a : darr) (i k : nat) (d : double) (st : Store) : Store :=
  {| cfg := cfg st; nmax := nmax st; nlocal := nlocal st;
     ivecs := ivecs st; iarrs := iarrs st;
     darrs := fun b j l =>
       if darr_eq_dec a b then
         if (Nat.eqb i j && Nat.eqb k l)%bool then d else darrs st b j l
       else darrs st b j l;
     fixes := fixes st |}.

Definition set_nmax (n : Z) (st : Store) : Store :=
  {| cfg := cfg st; nmax := n; nlocal := nlocal st;
     ivecs := ivecs st; iarrs := iarrs st; darrs := darrs st;
     fixes := fixes st |}.

Definition set_nlocal (n : nat) (st : Store) : Store :=
  {| cfg := cfg st; nmax := nmax st; nlocal := n;
     ivecs := ivecs st; iarrs := iarrs st; darrs := darrs st;
     fixes := fixes st |}.

Definition set_fixes (fs : FS) (st : Store) : Store :=
  {| cfg := cfg st; nmax := nmax st; nlocal := nlocal st;
     ivecs := ivecs st; iarrs := iarrs st; darrs := darrs st;
     fixes := fs |}.

Context {lmp : LmpType}.

(** *** grow *)

(** The arrays keep their contents below the old capacity, which the functions
    of the store do without a change; the fixes grow their own arrays. *)
Definition grow (n : Z) (st : Store) : result Store :=
  let nmax' := if n =? 0 then nmax st + DELTA else n in
  if ((nmax' <? 0) || (nmax' >? MAXSMALLINT))%bool then
    Fatal "Per-processor system is too big"
  else
    Ok (set_fixes
          (fold_left (fun fs fx => fix_grow_arrays fx nmax' fs)
                     (extra_grow (cfg st)) (fixes st))
          (set_nmax nmax' st)).

(** [if (i == nmax) grow(0);] *)
Definition grow_if_full (i : nat) (st : Store) : result Store :=
  if Z.of_nat i =? nmax st then grow 0 st else Ok st.

(** *** copy *)

Definition copy (i j : nat) (delflag : Z) (st : Store) : Store :=
  let st := set_ivec a_tag j (tag st i) st in
  let st := set_ivec a_type j (type st i) st in
  let st := set_ivec a_mask j (mask st i) st in
  let st := set_ivec a_image j (image st i) st in
  let st := set_darr a_x j 0 (x st i 0%nat) st in
  let st := set_darr a_x j 1 (x st i 1%nat) st in
  let st := set_darr a_x j 2 (x st i 2%nat) st in
  let st := set_darr a_v j 0 (v st i 0%nat) st in
  let st := set_darr a_v j 1 (v st i 1%nat) st in
  let st := set_darr a_v j 2 (v st i 2%nat) st in
  let st := set_ivec a_molecule j (molecule st i) st in
  let st := set_ivec a_num_bond j (num_bond st i) st in
  let st := for_ (rounds (num_bond st j)) (fun k st =>
      let st := set_iarr a_bond_type j k (bond_type st i k) st in
      let st := set_iarr a_bond_atom j k (bond_atom st i k) st in
      set_darr a_bond_r0 j k (bond_r0 st i k) st) st in
  let st := set_ivec a_num_angle j (num_angle st i) st in
  let st := for_ (rounds (num_angle st j)) (fun k st =>
      let st := set_iarr a_angle_type j k (angle_type st i k) st in
      let st := set_iarr a_angle_atom1 j k (angle_atom1 st i k) st in
      let st := set_iarr a_angle_atom2 j k (angle_atom2 st i k) st in
      let st := set_iarr a_angle_atom3 j k (angle_atom3 st i k) st in
      set_darr a_angle_a0 j k (angle_a0 st i k) st) st in
  let st := set_ivec a_num_dihedral j (num_dihedral st i) st in
  let st := for_ (rounds (num_dihedral st j)) (fun k st =>
      let st := set_iarr a_dihedral_type j k (dihedral_type st i k) st in
      let st := set_iarr a_dihedral_atom1 j k (dihedral_atom1 st i k) st in
      let st := set_iarr a_dihedral_atom2 j k (dihedral_atom2 st i k) st in
      let st := set_iarr a_dihedral_atom3 j k (dihedral_atom3 st i k) st in
      set_iarr a_dihedral_atom4 j k (dihedral_atom4 st i k) st) st in
  let st := set_iarr a_nspecial j 0 (nspecial st i 0%nat) st in
  let st := set_iarr a_nspecial j 1 (nspecial st i 1%nat) st in
  let st := set_iarr a_nspecial j 2 (nspecial st i 2%nat) st in
  let st := for_ (rounds (nspecial st j 2%nat)) (fun k st =>
      set_iarr a_special j k (special st i k) st) st in
  set_fixes
    (fold_left (fun fs fx => fix_copy_arrays fx i j delflag fs)
               (extra_grow (cfg st)) (fixes st))
    st.

(** *** Forward communication with velocities *)

(** The offset of a periodic image, as [pack_comm] and [pack_comm_vel] compute
    it ([dx], [dy], [dz]). *)
Definition comm_offset (pbc : nat -> Z) (st : Store) : double * double * double :=
  let d := domain (cfg st) in
  if triclinic d =? 0 then
    ((double_of_int (pbc 0%nat) * xprd d)%float,
     (double_of_int (pbc 1%nat) * yprd d)%float,
     (double_of_int (pbc 2%nat) * zprd d)%float)
  else
    ((double_of_int (pbc 0%nat) * xprd d + double_of_int (pbc 5%nat) * xy d
      + double_of_int (pbc 4%nat) * xz d)%float,
     (double_of_int (pbc 1%nat) * yprd d + double_of_int (pbc 3%nat) * yz d)%float,
     (double_of_int (pbc 2%nat) * zprd d)%float).

(** The same for [pack_border] and [pack_border_vel], whose triclinic branch
    differs. *)
Definition border_offset (pbc : nat -> Z) (st : Store) : double * double * double :=
  let d := domain (cfg st) in
  if triclinic d =? 0 then
    ((double_of_int (pbc 0%nat) * xprd d)%float,
     (double_of_int (pbc 1%nat) * yprd d)%float,
     (double_of_int (pbc 2%nat) * zprd d)%float)
  else
    (double_of_int (pbc 0%nat), double_of_int (pbc 1%nat), double_of_int (pbc 2%nat)).

(** [dvx], [dvy], [dvz]. *)
Definition deform_dv (pbc : nat -> Z) (st : Store) : double * double * double :=
  let h := h_rate (cfg st) in
  ((double_of_int (pbc 0%nat) * h 0%nat + double_of_int (pbc 5%nat) * h 5%nat
    + double_of_int (pbc 4%nat) * h 4%nat)%float,
   (double_of_int (pbc 1%nat) * h 1%nat + double_of_int (pbc 3%nat) * h 3%nat)%float,
   (double_of_int (pbc 2%nat) * h 2%nat)%float).

(** [mask[i] & deform_groupbit] as a condition. *)
Definition in_deform_group (i : nat) (st : Store) : bool :=
  negb (Z.land (mask st i) (deform_groupbit (cfg st)) =? 0).

Definition pack_comm_vel (n : nat) (lst : nat -> nat) (buf : buffer)
    (pbc_flag : Z) (pbc : nat -> Z) (st : Store) : nat * buffer :=
  let ws :=
    if pbc_flag =? 0 then
      flat_map (fun i =>
        let j := lst i in
        [Wdouble (x st j 0%nat); Wdouble (x st j 1%nat); Wdouble (x st j 2%nat);
         Wdouble (v st j 0%nat); Wdouble (v st j 1%nat); Wdouble (v st j 2%nat);
         Wtagint (image st j)]) (seq 0 n)
    else
      let '(dx, dy, dz) := comm_offset pbc st in
      if deform_vremap (cfg st) =? 0 then
        flat_map (fun i =>
          let j := lst i in
          [Wdouble (x st j 0%nat + dx); Wdouble (x st j 1%nat + dy);
           Wdouble (x st j 2%nat + dz);
           Wdouble (v st j 0%nat); Wdouble (v st j 1%nat); Wdouble (v st j 2%nat);
           Wtagint (image_remap (image st j) pbc)]) (seq 0 n)
      else
        let '(dvx, dvy, dvz) := deform_dv pbc st in
        flat_map (fun i =>
          let j := lst i in
          [Wdouble (x st j 0%nat + dx); Wdouble (x st j 1%nat + dy);
           Wdouble (x st j 2%nat + dz)]
          ++ (if in_deform_group i st then
                [Wdouble (v st j 0%nat + dvx); Wdouble (v st j 1%nat + dvy);
                 Wdouble (v st j 2%nat + dvz)]
              else
                [Wdouble (v st j 0%nat); Wdouble (v st j 1%nat);
                 Wdouble (v st j 2%nat)])
          ++ [Wtagint (image_remap (image st j) pbc)]) (seq 0 n)
  in (length ws, blit ws buf).

(** *** Reverse communication *)

Definition pack_reverse (n first : nat) (buf : buffer) (st : Store) : nat * buffer :=
  let ws :=
    flat_map (fun k =>
      let i := (first + k)%nat in
      [Wdouble (f st i 0%nat); Wdouble (f st i 1%nat); Wdouble (f st i 2%nat)])
      (seq 0 n)
  in (length ws, blit ws buf).

(** One round of the loop of [unpack_reverse]. *)
Definition unpack_reverse_atom (lst : nat -> nat) (buf : buffer) (i : nat)
    (p : nat * Store) : nat * Store :=
  let '(m, st) := p in
  let j := lst i in
  let st := set_darr a_f j 0 (f st j 0%nat + as_double (buf m)) st in
  let m := S m in
  let st := set_darr a_f j 1 (f st j 1%nat + as_double (buf m)) st in
  let m := S m in
  let st := set_darr a_f j 2 (f st j 2%nat + as_double (buf m)) st in
  let m := S m in
  (m, st).

Definition unpack_reverse (n : nat) (lst : nat -> nat) (buf : buffer) (st : Store)
    : Store :=
  snd (for_ n (unpack_reverse_atom lst buf) (0%nat, st)).

(** *** Border atoms *)

Definition pack_border (n : nat) (lst : nat -> nat) (buf : buffer)
    (pbc_flag : Z) (pbc : nat -> Z) (st : Store) : nat * buffer :=
  let ws :=
    if pbc_flag =? 0 then
      flat_map (fun i =>
        let j := lst i in
        [Wdouble (x st j 0%nat); Wdouble (x st j 1%nat); Wdouble (x st j 2%nat);
         Wint (tag st j); Wint (type st j); Wint (mask st j); Wint (molecule st j);
         Wtagint (image st j)]) (seq 0 n)
    else
      let '(dx, dy, dz) := border_offset pbc st in
      flat_map (fun i =>
        let j := lst i in
        [Wdouble (x st j 0%nat + dx); Wdouble (x st j 1%nat + dy);
         Wdouble (x st j 2%nat + dz);
         Wint (tag st j); Wint (type st j); Wint (mask st j); Wint (molecule st j);
         Wtagint (image_remap (image st j) pbc)]) (seq 0 n)
  in
  let ws := ws ++ flat_map (fun fx => fix_pack_border fx n lst (fixes st))
                           (extra_border (cfg st)) in
  (length ws, blit ws buf).

Definition pack_border_vel (n : nat) (lst : nat -> nat) (buf : buffer)
    (pbc_flag : Z) (pbc : nat -> Z) (st : Store) : nat * buffer :=
  let ws :=
    if pbc_flag =? 0 then
      flat_map (fun i =>
        let j := lst i in
        [Wdouble (x st j 0%nat); Wdouble (x st j 1%nat); Wdouble (x st j 2%nat);
         Wint (tag st j); Wint (type st j); Wint (mask st j); Wint (molecule st j);
         Wdouble (v st j 0%nat); Wdouble (v st j 1%nat); Wdouble (v st j 2%nat);
         Wtagint (image st j)]) (seq 0 n)
    else
      let '(dx, dy, dz) := border_offset pbc st in
      if deform_vremap (cfg st) =? 0 then
        flat_map (fun i =>
          let j := lst i in
          [Wdouble (x st j 0%nat + dx); Wdouble (x st j 1%nat + dy);
           Wdouble (x st j 2%nat + dz);
           Wint (tag st j); Wint (type st j); Wint (mask st j);
           Wint (molecule st j);
           Wdouble (v st j 0%nat); Wdouble (v st j 1%nat); Wdouble (v st j 2%nat);
           Wtagint (image_remap (image st j) pbc)]) (seq 0 n)
      else
        let '(dvx, dvy, dvz) := deform_dv pbc st in
        flat_map (fun i =>
          let j := lst i in
          [Wdouble (x st j 0%nat + dx); Wdouble (x st j 1%nat + dy);
           Wdouble (x st j 2%nat + dz);
           Wint (tag st j); Wint (type st j); Wint (mask st j);
           Wint (molecule st j)]
          ++ (if in_deform_group i st then
                [Wdouble (v st j 0%nat + dvx); Wdouble (v st j 1%nat + dvy);
                 Wdouble (v st j 2%nat + dvz)]
              else
                [Wdouble (v st j 0%nat); Wdouble (v st j 1%nat);
                 Wdouble (v st j 2%nat)])
          ++ [Wtagint (image_remap (image st j) pbc)]) (seq 0 n)
  in
  let ws := ws ++ flat_map (fun fx => fix_pack_border fx n lst (fixes st))
                           (extra_border (cfg st)) in
  (length ws, blit ws buf).

(** One round of the loop of [unpack_border]. *)
Definition unpack_border_atom (buf : buffer) (i : nat) (r : result (nat * Store))
    : result (nat * Store) :=
  p <- r ;;
  let '(m, st) := p in
  st <- grow_if_full i st ;;
  let st := set_darr a_x i 0 (as_double (buf m)) st in let m := S m in
  let st := set_darr a_x i 1 (as_double (buf m)) st in let m := S m in
  let st := set_darr a_x i 2 (as_double (buf m)) st in let m := S m in
  let st := set_ivec a_tag i (as_int (buf m)) st in let m := S m in
  let st := set_ivec a_type i (as_int (buf m)) st in let m := S m in
  let st := set_ivec a_mask i (as_int (buf m)) st in let m := S m in
  let st := set_ivec a_molecule i (as_int (buf m)) st in let m := S m in
  let st := set_ivec a_image i (as_tagint (buf m)) st in let m := S m in
  Ok (m, st).

(** The calls [m += fix->unpack_border(n, first, &buf[m])]. *)
Definition unpack_border_fixes (n first : nat) (buf : buffer) (m : nat)
    (fxs : list Fix) (fs : FS) : nat * FS :=
  fold_left (fun '(m, fs) fx =>
               let '(c, fs') := fix_unpack_border fx n first (advance m buf) fs in
               ((m + c)%nat, fs'))
            fxs (m, fs).

Definition unpack_border (n first : nat) (buf : buffer) (st : Store)
    : result Store :=
  p <- for_from first n (unpack_border_atom buf) (Ok (0%nat, st)) ;;
  let '(m, st) := p in
  let '(m, fs) :=
    unpack_border_fixes n first buf m (extra_border (cfg st)) (fixes st) in
  Ok (set_fixes fs st).

(** *** Migration *)

(** Word 0 is written last ([buf[0] = m]); the store of [0.0] that precedes
    the image flags ("for valgrind") is overwritten at once and left out. *)
Definition pack_exchange (i : nat) (buf : buffer) (st : Store) : nat * buffer :=
  let ws :=
    [Wdouble (x st i 0%nat); Wdouble (x st i 1%nat); Wdouble (x st i 2%nat);
     Wdouble (v st i 0%nat); Wdouble (v st i 1%nat); Wdouble (v st i 2%nat);
     Wint (tag st i); Wint (type st i); Wint (mask st i);
     Wtagint (image st i);
     Wint (molecule st i)]
    ++ Wint (num_bond st i)
    :: flat_map (fun k =>
         [Wint (bond_type st i k); Wint (bond_atom st i k);
          Wdouble (bond_r0 st i k)]) (seq 0 (rounds (num_bond st i)))
    ++ Wint (num_angle st i)
    :: flat_map (fun k =>
         [Wint (angle_type st i k); Wint (angle_atom1 st i k);
          Wint (angle_atom2 st i k); Wint (angle_atom3 st i k);
          Wdouble (angle_a0 st i k)]) (seq 0 (rounds (num_angle st i)))
    ++ Wint (num_dihedral st i)
    :: flat_map (fun k =>
         [Wint (dihedral_type st i k); Wint (dihedral_atom1 st i k);
          Wint (dihedral_atom2 st i k); Wint (dihedral_atom3 st i k);
          Wint (dihedral_atom4 st i k)]) (seq 0 (rounds (num_dihedral st i)))
    ++ [Wint (nspecial st i 0%nat); Wint (nspecial st i 1%nat);
        Wint (nspecial st i 2%nat)]
    ++ map (fun k => Wint (special st i k)) (seq 0 (rounds (nspecial st i 2%nat)))
    ++ flat_map (fun fx => fix_pack_exchange fx i (fixes st))
                (extra_grow (cfg st))
  in
  let m := S (length ws) in
  (m, blit (Wint (Z.of_nat m) :: ws) buf).

(** The calls [m += fix->unpack_exchange(nlocal, &buf[m])]. *)
Definition unpack_exchange_fixes (nl : nat) (buf : buffer) (m : nat)
    (fxs : list Fix) (fs : FS) : nat * FS :=
  fold_left (fun '(m, fs) fx =>
               let '(c, fs') := fix_unpack_exchange fx nl (advance m buf) fs in
               ((m + c)%nat, fs'))
            fxs (m, fs).

(** The rounds of the four loops of [unpack_exchange], on the cursor [m] and
    the store. *)
Definition unpack_exchange_bond (nl : nat) (buf : buffer) (k : nat)
    (p : nat * Store) : nat * Store :=
  let '(m, st) := p in
  let st := set_iarr a_bond_type nl k (as_int (buf m)) st in let m := S m in
  let st := set_iarr a_bond_atom nl k (as_int (buf m)) st in let m := S m in
  let st := set_darr a_bond_r0 nl k (as_double (buf m)) st in let m := S m in
  (m, st).

Definition unpack_exchange_angle (nl : nat) (buf : buffer) (k : nat)
    (p : nat * Store) : nat * Store :=
  let '(m, st) := p in
  let st := set_iarr a_angle_type nl k (as_int (buf m)) st in let m := S m in
  let st := set_iarr a_angle_atom1 nl k (as_int (buf m)) st in let m := S m in
  let st := set_iarr a_angle_atom2 nl k (as_int (buf m)) st in let m := S m in
  let st := set_iarr a_angle_atom3 nl k (as_int (buf m)) st in let m := S m in
  let st := set_darr a_angle_a0 nl k (as_double (buf m)) st in let m := S m in
  (m, st).

Definition unpack_exchange_dihedral (nl : nat) (buf : buffer) (k : nat)
    (p : nat * Store) : nat * Store :=
  let '(m, st) := p in
  let st := set_iarr a_dihedral_type nl k (as_int (buf m)) st in let m := S m in
  let st := set_iarr a_dihedral_atom1 nl k (as_int (buf m)) st in let m := S m in
  let st := set_iarr a_dihedral_atom2 nl k (as_int (buf m)) st in let m := S m in
  let st := set_iarr a_dihedral_atom3 nl k (as_int (buf m)) st in let m := S m in
  let st := set_iarr a_dihedral_atom4 nl k (as_int (buf m)) st in let m := S m in
  (m, st).

Definition unpack_exchange_special (nl : nat) (buf : buffer) (k : nat)
    (p : nat * Store) : nat * Store :=
  let '(m, st) := p in
  let st := set_iarr a_special nl k (as_int (buf m)) st in let m := S m in
  (m, st).

Definition unpack_exchange (buf : buffer) (st : Store) : result (nat * Store) :=
  let nl := nlocal st in
  st <- grow_if_full nl st ;;
  let m := 1%nat in
  let st := set_darr a_x nl 0 (as_double (buf m)) st in let m := S m in
  let st := set_darr a_x nl 1 (as_double (buf m)) st in let m := S m in
  let st := set_darr a_x nl 2 (as_double (buf m)) st in let m := S m in
  let st := set_darr a_v nl 0 (as_double (buf m)) st in let m := S m in
  let st := set_darr a_v nl 1 (as_double (buf m)) st in let m := S m in
  let st := set_darr a_v nl 2 (as_double (buf m)) st in let m := S m in
  let st := set_ivec a_tag nl (as_int (buf m)) st in let m := S m in
  let st := set_ivec a_type nl (as_int (buf m)) st in let m := S m in
  let st := set_ivec a_mask nl (as_int (buf m)) st in let m := S m in
  let st := set_ivec a_image nl (as_tagint (buf m)) st in let m := S m in
  let st := set_ivec a_molecule nl (as_int (buf m)) st in let m := S m in
  let st := set_ivec a_num_bond nl (as_int (buf m)) st in let m := S m in
  let '(m, st) :=
    for_ (rounds (num_bond st nl)) (unpack_exchange_bond nl buf) (m, st) in
  let st := set_ivec a_num_angle nl (as_int (buf m)) st in let m := S m in
  let '(m, st) :=
    for_ (rounds (num_angle st nl)) (unpack_exchange_angle nl buf) (m, st) in
  let st := set_ivec a_num_dihedral nl (as_int (buf m)) st in let m := S m in
  let '(m, st) :=
    for_ (rounds (num_dihedral st nl)) (unpack_exchange_dihedral nl buf) (m, st) in
  let st := set_iarr a_nspecial nl 0 (as_int (buf m)) st in let m := S m in
  let st := set_iarr a_nspecial nl 1 (as_int (buf m)) st in let m := S m in
  let st := set_iarr a_nspecial nl 2 (as_int (buf m)) st in let m := S m in
  let '(m, st) :=
    for_ (rounds (nspecial st nl 2%nat)) (unpack_exchange_special nl buf) (m, st) in
  let '(m, fs) :=
    unpack_exchange_fixes nl buf m (extra_grow (cfg st)) (fixes st) in
  Ok (m, set_nlocal (S nl) (set_fixes fs st)).

(** *** Restart files *)

Definition size_restart (st : Store) : Z :=
  let nl := nlocal st in
  let n := for_ nl (fun i n =>
      n + (15 + 2 * num_bond st i + 5 * num_angle st i + 5 * num_dihedral st i))
      0 in
  fold_left (fun n fx =>
               for_ nl (fun i n => n + fix_size_restart fx i (fixes st)) n)
            (extra_restart (cfg st)) n.

Definition pack_restart (i : nat) (buf : buffer) (st : Store) : nat * buffer :=
  let ws :=
    [Wdouble (x st i 0%nat); Wdouble (x st i 1%nat); Wdouble (x st i 2%nat);
     Wint (tag st i); Wint (type st i); Wint (mask st i);
     Wtagint (image st i);
     Wdouble (v st i 0%nat); Wdouble (v st i 1%nat); Wdouble (v st i 2%nat);
     Wint (molecule st i)]
    ++ Wint (num_bond st i)
    :: flat_map (fun k =>
         [Wint (MAX (bond_type st i k) (int_neg (bond_type st i k)));
          Wint (bond_atom st i k);
          Wdouble (bond_r0 st i k)]) (seq 0 (rounds (num_bond st i)))
    ++ Wint (num_angle st i)
    :: flat_map (fun k =>
         [Wint (MAX (angle_type st i k) (int_neg (angle_type st i k)));
          Wint (angle_atom1 st i k); Wint (angle_atom2 st i k);
          Wint (angle_atom3 st i k);
          Wdouble (angle_a0 st i k)]) (seq 0 (rounds (num_angle st i)))
    ++ Wint (num_dihedral st i)
    :: flat_map (fun k =>
         [Wint (MAX (dihedral_type st i k) (int_neg (dihedral_type st i k)));
          Wint (dihedral_atom1 st i k); Wint (dihedral_atom2 st i k);
          Wint (dihedral_atom3 st i k); Wint (dihedral_atom4 st i k)])
         (seq 0 (rounds (num_dihedral st i)))
    ++ flat_map (fun fx => fix_pack_restart fx i (fixes st))
                (extra_restart (cfg st))
  in
  let m := S (length ws) in
  (m, blit (Wint (Z.of_nat m) :: ws) buf).

(** *** Data files *)

Definition data_atom (coord : nat -> double) (imagetmp : Z)
    (values : nat -> string) (st : Store) : result Store :=
  let nl := nlocal st in
  st <- grow_if_full nl st ;;
  let st := set_ivec a_tag nl (atoi (values 0%nat)) st in
  if tag st nl <=? 0 then
    Fatal "Invalid atom ID in Atoms section of data file"
  else
  let st := set_ivec a_molecule nl (atoi (values 1%nat)) st in
  let st := set_ivec a_type nl (atoi (values 2%nat)) st in
  if ((type st nl <=? 0) || (type st nl >? ntypes (cfg st)))%bool then
    Fatal "Invalid atom type in Atoms section of data file"
  else
  let st := set_darr a_x nl 0 (coord 0%nat) st in
  let st := set_darr a_x nl 1 (coord 1%nat) st in
  let st := set_darr a_x nl 2 (coord 2%nat) st in
  let st := set_ivec a_image nl imagetmp st in
  let st := set_ivec a_mask nl 1 st in
  let st := set_darr a_v nl 0 0%float st in
  let st := set_darr a_v nl 1 0%float st in
  let st := set_darr a_v nl 2 0%float st in
  let st := set_ivec a_num_bond nl 0 st in
  let st := set_ivec a_num_angle nl 0 st in
  let st := set_ivec a_num_dihedral nl 0 st in
  Ok (set_nlocal (S nl) st).

End Store.
Arguments Fix FS : clear implicits.
Arguments Config FS : clear implicits.
Arguments Store FS : clear implicits.

(** ** The rest of the atom style *)

(** The sizes the constructor declares: words per atom in forward
    communication, in reverse communication and in a border exchange, and the
    words a velocity adds. *)
Definition size_forward : nat := 4.
Definition size_reverse : nat := 4.
Definition size_border : nat := 7 + 1.
Definition size_velocity : nat := 3.

(** [double **buf] of [pack_data]: one row per atom. *)
Definition table : Set := nat -> nat -> double.

(** [buf[i][c] = d]. *)
Definition set_table (i c : nat) (d : double) (t : table) : table :=
  fun j l => if (Nat.eqb i j && Nat.eqb c l)%bool then d else t j l.

Section StoreMore.
Context {FS : Type} {lmp : LmpType}.

(** *** Forward communication of positions *)

Definition pack_comm (n : nat) (lst : nat -> nat) (buf : buffer)
    (pbc_flag : Z) (pbc : nat -> Z) (st : Store FS) : nat * buffer :=
  let ws :=
    if pbc_flag =? 0 then
      flat_map (fun i =>
        let j := lst i in
        [Wdouble (x st j 0%nat); Wdouble (x st j 1%nat); Wdouble (x st j 2%nat)])
        (seq 0 n)
    else
      let '(dx, dy, dz) := comm_offset pbc st in
      flat_map (fun i =>
        let j := lst i in
        [Wdouble (x st j 0%nat + dx); Wdouble (x st j 1%nat + dy);
         Wdouble (x st j 2%nat + dz)]) (seq 0 n)
  in (length ws, blit ws buf).

(** One round of the loop of [unpack_comm]. *)
Definition unpack_comm_atom (buf : buffer) (i : nat) (p : nat * Store FS)
    : nat * Store FS :=
  let '(m, st) := p in
  let st := set_darr a_x i 0 (as_double (buf m)) st in let m := S m in
  let st := set_darr a_x i 1 (as_double (buf m)) st in let m := S m in
  let st := set_darr a_x i 2 (as_double (buf m)) st in let m := S m in
  (m, st).

Definition unpack_comm (n first : nat) (buf : buffer) (st : Store FS) : Store FS :=
  snd (for_from first n (unpack_comm_atom buf) (0%nat, st)).

(** One round of the loop of [unpack_comm_vel]. *)
Definition unpack_comm_vel_atom (buf : buffer) (i : nat) (p : nat * Store FS)
    : nat * Store FS :=
  let '(m, st) := p in
  let st := set_darr a_x i 0 (as_double (buf m)) st in let m := S m in
  let st := set_darr a_x i 1 (as_double (buf m)) st in let m := S m in
  let st := set_darr a_x i 2 (as_double (buf m)) st in let m := S m in
  let st := set_darr a_v i 0 (as_double (buf m)) st in let m := S m in
  let st := set_darr a_v i 1 (as_double (buf m)) st in let m := S m in
  let st := set_darr a_v i 2 (as_double (buf m)) st in let m := S m in
  let st := set_ivec a_image i (as_tagint (buf m)) st in let m := S m in
  (m, st).

Definition unpack_comm_vel (n first : nat) (buf : buffer) (st : Store FS)
    : Store FS :=
  snd (for_from first n (unpack_comm_vel_atom buf) (0%nat, st)).

(** *** Border atoms: velocities and hybrid styles *)

(** One round of the loop of [unpack_border_vel]. *)
Definition unpack_border_vel_atom (buf : buffer) (i : nat)
    (r : result (nat * Store FS)) : result (nat * Store FS) :=
  p <- r ;;
  let '(m, st) := p in
  st <- grow_if_full i st ;;
  let st := set_darr a_x i 0 (as_double (buf m)) st in let m := S m in
  let st := set_darr a_x i 1 (as_double (buf m)) st in let m := S m in
  let st := set_darr a_x i 2 (as_double (buf m)) st in let m := S m in
  let st := set_ivec a_tag i (as_int (buf m)) st in let m := S m in
  let st := set_ivec a_type i (as_int (buf m)) st in let m := S m in
  let st := set_ivec a_mask i (as_int (buf m)) st in let m := S m in
  let st := set_ivec a_molecule i (as_int (buf m)) st in let m := S m in
  let st := set_darr a_v i 0 (as_double (buf m)) st in let m := S m in
  let st := set_darr a_v i 1 (as_double (buf m)) st in let m := S m in
  let st := set_darr a_v i 2 (as_double (buf m)) st in let m := S m in
  let st := set_ivec a_image i (as_tagint (buf m)) st in let m := S m in
  Ok (m, st).

Definition unpack_border_vel (n first : nat) (buf : buffer) (st : Store FS)
    : result (Store FS) :=
  p <- for_from first n (unpack_border_vel_atom buf) (Ok (0%nat, st)) ;;
  let '(m, st) := p in
  let '(m, fs) :=
    unpack_border_fixes n first buf m (extra_border (cfg st)) (fixes st) in
  Ok (set_fixes fs st).

Definition pack_border_hybrid (n : nat) (lst : nat -> nat) (buf : buffer)
    (st : Store FS) : nat * buffer :=
  let ws := flat_map (fun i => let j := lst i in [Wint (molecule st j)]) (seq 0 n) in
  (length ws, blit ws buf).

(** One round of the loop of [unpack_border_hybrid]. *)
Definition unpack_border_hybrid_atom (buf : buffer) (i : nat) (p : nat * Store FS)
    : nat * Store FS :=
  let '(m, st) := p in
  let st := set_ivec a_molecule i (as_int (buf m)) st in let m := S m in
  (m, st).

Definition unpack_border_hybrid (n first : nat) (buf : buffer) (st : Store FS)
    : nat * Store FS :=
  for_from first n (unpack_border_hybrid_atom buf) (0%nat, st).

(** *** Reading a restart record *)

(** One round of the loop that fills [atom->extra]. *)
Definition unpack_restart_extra (nl : nat) (buf : buffer) (i : nat)
    (p : nat * table) : nat * table :=
  let '(m, extra) := p in
  let extra := set_table nl i (as_double (buf m)) extra in let m := S m in
  (m, extra).

(** [atom->nextra_store] and [atom->extra] are not fields of the store: they
    are given and returned beside it.  The three topology loops are, word for
    word, those of [unpack_exchange].  Growing [atom->extra] keeps its
    contents, as growing the store does. *)
Definition unpack_restart (nextra_store : Z) (buf : buffer) (extra : table)
    (st : Store FS) : result (nat * table * Store FS) :=
  let nl := nlocal st in
  st <- grow_if_full nl st ;;
  let m := 1%nat in
  let st := set_darr a_x nl 0 (as_double (buf m)) st in let m := S m in
  let st := set_darr a_x nl 1 (as_double (buf m)) st in let m := S m in
  let st := set_darr a_x nl 2 (as_double (buf m)) st in let m := S m in
  let st := set_ivec a_tag nl (as_int (buf m)) st in let m := S m in
  let st := set_ivec a_type nl (as_int (buf m)) st in let m := S m in
  let st := set_ivec a_mask nl (as_int (buf m)) st in let m := S m in
  let st := set_ivec a_image nl (as_tagint (buf m)) st in let m := S m in
  let st := set_darr a_v nl 0 (as_double (buf m)) st in let m := S m in
  let st := set_darr a_v nl 1 (as_double (buf m)) st in let m := S m in
  let st := set_darr a_v nl 2 (as_double (buf m)) st in let m := S m in
  let st := set_ivec a_molecule nl (as_int (buf m)) st in let m := S m in
  let st := set_ivec a_num_bond nl (as_int (buf m)) st in let m := S m in
  let '(m, st) :=
    for_ (rounds (num_bond st nl)) (unpack_exchange_bond nl buf) (m, st) in
  let st := set_ivec a_num_angle nl (as_int (buf m)) st in let m := S m in
  let '(m, st) :=
    for_ (rounds (num_angle st nl)) (unpack_exchange_angle nl buf) (m, st) in
  let st := set_ivec a_num_dihedral nl (as_int (buf m)) st in let m := S m in
  let '(m, st) :=
    for_ (rounds (num_dihedral st nl)) (unpack_exchange_dihedral nl buf) (m, st) in
  let st := set_iarr a_nspecial nl 2 0 st in
  let st := set_iarr a_nspecial nl 1 0 st in
  let st := set_iarr a_nspecial nl 0 0 st in
  let '(m, extra) :=
    if nextra_store =? 0 then (m, extra)
    else
      let size := as_int (buf 0%nat) - Z.of_nat m in
      for_ (rounds size) (unpack_restart_extra nl buf) (m, extra) in
  Ok (m, extra, set_nlocal (S nl) st).

(** *** New atoms *)

Definition create_atom (itype : Z) (coord : nat -> double) (st : Store FS)
    : result (Store FS) :=
  let nl := nlocal st in
  st <- grow_if_full nl st ;;
  let st := set_ivec a_tag nl 0 st in
  let st := set_ivec a_type nl itype st in
  let st := set_darr a_x nl 0 (coord 0%nat) st in
  let st := set_darr a_x nl 1 (coord 1%nat) st in
  let st := set_darr a_x nl 2 (coord 2%nat) st in
  let st := set_ivec a_mask nl 1 st in
  let st := set_ivec a_image nl image_zero st in
  let st := set_darr a_v nl 0 0%float st in
  let st := set_darr a_v nl 1 0%float st in
  let st := set_darr a_v nl 2 0%float st in
  let st := set_ivec a_molecule nl 0 st in
  let st := set_ivec a_num_bond nl 0 st in
  let st := set_ivec a_num_angle nl 0 st in
  let st := set_ivec a_num_dihedral nl 0 st in
  let st := set_iarr a_nspecial nl 2 0 st in
  let st := set_iarr a_nspecial nl 1 0 st in
  let st := set_iarr a_nspecial nl 0 0 st in
  Ok (set_nlocal (S nl) st).

(** *** Writing a data file *)

Definition pack_data (buf : table) (st : Store FS) : table :=
  for_ (nlocal st) (fun i buf =>
    let buf := set_table i 0 (double_of_int (tag st i)) buf in
    let buf := set_table i 1 (double_of_int (molecule st i)) buf in
    let buf := set_table i 2 (double_of_int (type st i)) buf in
    let buf := set_table i 3 (x st i 0%nat) buf in
    let buf := set_table i 4 (x st i 1%nat) buf in
    let buf := set_table i 5 (x st i 2%nat) buf in
    let buf := set_table i 6
      (double_of_int (Z.land (image st i) IMGMASK - IMGMAX)) buf in
    let buf := set_table i 7
      (double_of_int (Z.land (Z.shiftr (image st i) IMGBITS) IMGMASK - IMGMAX))
      buf in
    set_table i 8 (double_of_int (Z.shiftr (image st i) IMG2BITS - IMGMAX)) buf)
    buf.

End StoreMore.

(** ** Notions the properties are stated with *)

(** The wrap counts one axis can hold: the biased count fits the field. *)
Definition image_count_ok {lmp : LmpType} (w : Z) : Prop :=
  - IMGMAX <= w <= IMGMASK - IMGMAX.

(** The component-wise sum of two periodic offsets. *)
Definition pbc_add (s1 s2 : nat -> Z) : nat -> Z := fun a => s1 a + s2 a.

(** A periodic offset from its first three entries (the others are zero). *)
Definition pbc3 (px py pz : Z) : nat -> Z :=
  fun a => match a with
           | 0%nat => px
           | 1%nat => py
           | 2%nat => pz
           | _ => 0
           end.

(** What [unpack_reverse] leaves in component [c] of the force of slot [s]
    when it starts from [acc]: the words of every round [i] in
    [k0 .. k0 + n - 1] whose [lst i] is [s], added in that order. *)
Fixpoint accumulate {lmp : LmpType} (lst : nat -> nat) (buf : buffer)
    (k0 n s c : nat) (acc : double) : double :=
  match n with
  | O => acc
  | S n' =>
      accumulate lst buf (S k0) n' s c
        (if Nat.eqb (lst k0) s
         then (acc + as_double (buf (3 * k0 + c)%nat))%float
         else acc)
  end.

(** No slot is named twice among the first [n] entries of [lst]. *)
Definition distinct_slots (n : nat) (lst : nat -> nat) : Prop :=
  forall a b, (a < n)%nat -> (b < n)%nat -> lst a = lst b -> a = b.

(** *** Stores to evaluate the code on *)

Definition no_fix_cfg : Config unit := {|
  ntypes := 2;
  domain := {| triclinic := 0; xprd := 10; yprd := 10; zprd := 10;
               xy := 0; xz := 0; yz := 0 |};
  deform_vremap := 0;
  deform_groupbit := 2;
  h_rate := fun _ => 0%float;
  extra_grow := [];
  extra_border := [];
  extra_restart := []
|}.

(** Every force component is [1.0]; nothing else matters. *)
Definition unit_force_store : Store unit := {|
  cfg := no_fix_cfg;
  nmax := 8;
  nlocal := 2;
  ivecs := fun _ _ => 0;
  iarrs := fun _ _ _ => 0;
  darrs := fun _ _ _ => 1%float;
  fixes := tt
|}.

Definition empty_buffer : buffer := fun _ => Wdouble 0.

(** How many leading entries of each row belong to the atom in slot [i]: its
    counts for the topology and the special neighbours, the three components
    of its position and of its velocity (and of its three special-neighbour
    counts).  These are the entries that [copy] assigns and that
    [pack_exchange] sends; the force is not among them. *)
Definition count_rows_i (nb na nd ns : nat) (a : iarr) : nat :=
  match a with
  | a_nspecial => 3
  | a_special => ns
  | a_bond_type | a_bond_atom => nb
  | a_angle_type | a_angle_atom1 | a_angle_atom2 | a_angle_atom3 => na
  | a_dihedral_type | a_dihedral_atom1 | a_dihedral_atom2 | a_dihedral_atom3
  | a_dihedral_atom4 => nd
  end.

Definition count_rows_d (nb na : nat) (a : darr) : nat :=
  match a with
  | a_x | a_v => 3
  | a_f => 0
  | a_bond_r0 => nb
  | a_angle_a0 => na
  end.

Definition atom_rows_i {FS : Type} (st : Store FS) (i : nat) (a : iarr) : nat :=
  count_rows_i (rounds (num_bond st i)) (rounds (num_angle st i))
    (rounds (num_dihedral st i)) (rounds (nspecial st i 2%nat)) a.

Definition atom_rows_d {FS : Type} (st : Store FS) (i : nat) (a : darr) : nat :=
  count_rows_d (rounds (num_bond st i)) (rounds (num_angle st i)) a.

(** Slot [s] holds the same in [st'] as in [st], in every array. *)
Definition same_slot {FS : Type} (st st' : Store FS) (s : nat) : Prop :=
  (forall a, ivecs st' a s = ivecs st a s)
  /\ (forall a k, iarrs st' a s k = iarrs st a s k)
  /\ (forall a k, darrs st' a s k = darrs st a s k).

(** What every step of [copy(i, j)] keeps of the store [st0] it started on. *)
Record copy_inv {FS : Type} (st0 : Store FS) (i j : nat) (st : Store FS)
    : Prop := {
  inv_cfg : cfg st = cfg st0;
  inv_nmax : nmax st = nmax st0;
  inv_nlocal : nlocal st = nlocal st0;
  inv_others : forall s, s <> j -> same_slot st0 st s;
  inv_rows_i : forall a k, (atom_rows_i st0 i a <= k)%nat ->
                           iarrs st a j k = iarrs st0 a j k;
  inv_rows_d : forall a k, (atom_rows_d st0 i a <= k)%nat ->
                           darrs st a j k = darrs st0 a j k
}.


(** An [int] that [MAX(t, -t)] can negate: every [int] but [INT_MIN]. *)
Definition int_negatable (t : Z) : Prop := INT_MIN < t <= INT_MAX.

(** The words the caller's loop [for (i = 0; i < nlocal; i++)
    n += pack_restart(i, &buf[n])] writes in all: that loop belongs to the
    restart writer, which is not among the sources, and this is the quantity
    that [size_restart] is there to bound. *)
Definition restart_words_written {FS : Type} (buf : buffer) (st : Store FS) : nat :=
  for_ (nlocal st)
       (fun i n => (n + fst (pack_restart i (advance n buf) st))%nat) 0%nat.

(** Where the bonds, the angles and the dihedrals of atom [i] start in its
    restart record. *)
Definition restart_bonds_at : nat := 13.
Definition restart_angles_at {FS : Type} (st : Store FS) (i : nat) : nat :=
  (14 + 3 * rounds (num_bond st i))%nat.
Definition restart_dihedrals_at {FS : Type} (st : Store FS) (i : nat) : nat :=
  (15 + 3 * rounds (num_bond st i) + 5 * rounds (num_angle st i))%nat.

(** The bonds of all owned atoms. *)
Definition owned_bonds {FS : Type} (st : Store FS) : Z :=
  for_ (nlocal st) (fun i n => n + num_bond st i) 0.

(** No owned atom has a negative count. *)
Definition counts_nonneg {FS : Type} (st : Store FS) : Prop :=
  forall i, (i < nlocal st)%nat ->
    0 <= num_bond st i /\ 0 <= num_angle st i /\ 0 <= num_dihedral st i.

(** One owned atom with a single bond and no fix. *)
Definition one_bond_store : Store unit := {|
  cfg := no_fix_cfg;
  nmax := 8;
  nlocal := 1;
  ivecs := fun a _ => match a with
                      | a_tag | a_type | a_mask | a_molecule | a_num_bond => 1
                      | a_image => 537395712
                      | a_num_angle | a_num_dihedral => 0
                      end;
  iarrs := fun a _ _ => match a with
                        | a_bond_type => 1
                        | a_bond_atom => 2
                        | _ => 0
                        end;
  darrs := fun _ _ _ => 1%float;
  fixes := tt
|}.

(** Component [c] of a triple. *)
Definition triple_nth (t : double * double * double) (c : nat) : double :=
  match c with
  | 0%nat => fst (fst t)
  | 1%nat => snd (fst t)
  | _ => snd t
  end.

(** A deforming box: the velocity remap is on, the deformation group is
    group 2, every rate is [1.0].  Slot 1 is in the group (mask 3), no other
    slot is (mask 1); every velocity component is [1.0]. *)
Definition deform_cfg : Config unit := {|
  ntypes := 2;
  domain := {| triclinic := 0; xprd := 10; yprd := 10; zprd := 10;
               xy := 0; xz := 0; yz := 0 |};
  deform_vremap := 1;
  deform_groupbit := 2;
  h_rate := fun _ => 1%float;
  extra_grow := [];
  extra_border := [];
  extra_restart := []
|}.

Definition deform_store : Store unit := {|
  cfg := deform_cfg;
  nmax := 8;
  nlocal := 2;
  ivecs := fun a i => match a with
                      | a_mask => if Nat.eqb i 1 then 3 else 1
                      | a_image => 537395712
                      | a_tag => Z.of_nat i + 1
                      | a_type | a_molecule => 1
                      | a_num_bond | a_num_angle | a_num_dihedral => 0
                      end;
  iarrs := fun _ _ _ => 0;
  darrs := fun _ _ _ => 1%float;
  fixes := tt
|}.

(** The index list [1, 0]. *)
Definition swapped_pair : nat -> nat := fun k => (1 - k)%nat.

(** The destination can take an atom in slot [i]: it has room, or growing
    it succeeds. *)
Definition has_room {FS : Type} {lmp : LmpType} (i : nat) (st : Store FS) : Prop :=
  exists st1, grow_if_full i st = Ok st1.

(** An atom at [(9.5, 0, 0)] that never crossed the periodic boundary, in a
    cubic box of length 10. *)
Definition border_store : Store unit := {|
  cfg := no_fix_cfg;
  nmax := 8;
  nlocal := 2;
  ivecs := fun a i => match a with
                      | a_image => 537395712
                      | a_tag => Z.of_nat i + 1
                      | a_type | a_mask | a_molecule => 1
                      | a_num_bond | a_num_angle | a_num_dihedral => 0
                      end;
  iarrs := fun _ _ _ => 0;
  darrs := fun a _ k => match a, k with
                        | a_x, 0%nat => 9.5%float
                        | _, _ => 0%float
                        end;
  fixes := tt
|}.

(** A row of the [Atoms] section: tag 7, molecule 1, type 2. *)
Definition atoms_row : nat -> string :=
  fun k => match k with
           | 0%nat => "7"%string
           | 1%nat => "1"%string
           | _ => "2"%string
           end.

(** *** The loops that unpack rows *)

(** A column of a row: the array an entry goes to. *)
Inductive col : Set :=
| CI (a : iarr)
| CD (a : darr).

Definition col_eq_dec (c d : col) : {c = d} + {c <> d}.
Proof. decide equality; [apply iarr_eq_dec | apply darr_eq_dec]. Defined.

Fixpoint col_index (c : col) (cols : list col) : option nat :=
  match cols with
  | [] => None
  | d :: cols' =>
      if col_eq_dec d c then Some 0%nat
      else option_map S (col_index c cols')
  end.

(** The round of a loop that reads one word per column into entry [k] of the
    rows of slot [nl]: the common shape of the four loops of
    [unpack_exchange]. *)
Definition row_step {FS : Type} {lmp : LmpType} (nl k : nat) (buf : buffer)
    (p : nat * Store FS) (c : col) : nat * Store FS :=
  match c with
  | CI a => (S (fst p), set_iarr a nl k (as_int (buf (fst p))) (snd p))
  | CD a => (S (fst p), set_darr a nl k (as_double (buf (fst p))) (snd p))
  end.

Definition row_body {FS : Type} {lmp : LmpType} (cols : list col) (nl : nat)
    (buf : buffer) (k : nat) (p : nat * Store FS) : nat * Store FS :=
  let '(m, st) := p in fold_left (row_step nl k buf) cols (m, st).

Definition bond_cols : list col := [CI a_bond_type; CI a_bond_atom; CD a_bond_r0].
Definition angle_cols : list col :=
  [CI a_angle_type; CI a_angle_atom1; CI a_angle_atom2; CI a_angle_atom3;
   CD a_angle_a0].
Definition dihedral_cols : list col :=
  [CI a_dihedral_type; CI a_dihedral_atom1; CI a_dihedral_atom2;
   CI a_dihedral_atom3; CI a_dihedral_atom4].
Definition special_cols : list col := [CI a_special].

(** *** The record of [pack_exchange] *)

(** Where the record of an atom with [nb] bonds, [na] angles and [nd]
    dihedrals keeps each value: word 0 is the length, the fixed fields follow,
    then each list after its count, then the three special-neighbour counts
    and the special neighbours. *)
Definition exchange_ivec_at (nb na : nat) (a : ivec) : nat :=
  match a with
  | a_tag => 7
  | a_type => 8
  | a_mask => 9
  | a_image => 10
  | a_molecule => 11
  | a_num_bond => 12
  | a_num_angle => 13 + 3 * nb
  | a_num_dihedral => 14 + 3 * nb + 5 * na
  end.

Definition exchange_iarr_at (nb na nd : nat) (a : iarr) (k : nat) : nat :=
  match a with
  | a_bond_type => 13 + 3 * k
  | a_bond_atom => 13 + 3 * k + 1
  | a_angle_type => 14 + 3 * nb + 5 * k
  | a_angle_atom1 => 14 + 3 * nb + 5 * k + 1
  | a_angle_atom2 => 14 + 3 * nb + 5 * k + 2
  | a_angle_atom3 => 14 + 3 * nb + 5 * k + 3
  | a_dihedral_type => 15 + 3 * nb + 5 * na + 5 * k
  | a_dihedral_atom1 => 15 + 3 * nb + 5 * na + 5 * k + 1
  | a_dihedral_atom2 => 15 + 3 * nb + 5 * na + 5 * k + 2
  | a_dihedral_atom3 => 15 + 3 * nb + 5 * na + 5 * k + 3
  | a_dihedral_atom4 => 15 + 3 * nb + 5 * na + 5 * k + 4
  | a_nspecial => 15 + 3 * nb + 5 * na + 5 * nd + k
  | a_special => 18 + 3 * nb + 5 * na + 5 * nd + k
  end.

Definition exchange_darr_at (nb : nat) (a : darr) (k : nat) : nat :=
  match a with
  | a_x => 1 + k
  | a_v => 4 + k
  | a_f => 0
  | a_bond_r0 => 13 + 3 * k + 2
  | a_angle_a0 => 14 + 3 * nb + 5 * k + 4
  end.

(** Where the words of the fixes start. *)
Definition exchange_fixes_at (nb na nd ns : nat) : nat :=
  18 + 3 * nb + 5 * na + 5 * nd + ns.

(** How a per-atom integer travels: the image flags through the [tagint]
    alias, every other one as a [double]. *)
Definition ivec_word (a : ivec) (z : Z) : word :=
  match a with
  | a_image => Wtagint z
  | _ => Wint z
  end.

Definition ivec_read {lmp : LmpType} (a : ivec) (w : word) : Z :=
  match a with
  | a_image => as_tagint w
  | _ => as_int w
  end.

(** The words [ws] are in the buffer from its first word on. *)
Definition starts_with (b : buffer) (ws : list word) : Prop :=
  forall k w, nth_error ws k = Some w -> b k = w.

(** Every [int] that [pack_exchange] converts for slot [i] is an [int]. *)
Definition slot_ints {FS : Type} (st : Store FS) (i : nat) : Prop :=
  (forall a, a <> a_image -> int_range (ivecs st a i))
  /\ (forall a k, (k < atom_rows_i st i a)%nat -> int_range (iarrs st a i k)).

(** The atom in slot [j] of [st'] is the atom in slot [i] of [st]: the same
    per-atom values, the same counts, and the same entries below them. *)
Definition same_atom {FS : Type} (st : Store FS) (i : nat) (st' : Store FS)
    (j : nat) : Prop :=
  (forall a, ivecs st' a j = ivecs st a i)
  /\ (forall a k, (k < atom_rows_i st i a)%nat ->
                  iarrs st' a j k = iarrs st a i k)
  /\ (forall a k, (k < atom_rows_d st i a)%nat ->
                  darrs st' a j k = darrs st a i k).

(** The contract of a fix in migration: on a buffer that starts with the words
    it packed for an atom, it consumes as many words as it packed. *)
Definition fix_exchange_coherent {FS : Type} (fx : Fix FS) : Prop :=
  forall (i nl : nat) (fs fs' : FS) (b : buffer),
    starts_with b (fix_pack_exchange fx i fs) ->
    fst (fix_unpack_exchange fx nl b fs') = length (fix_pack_exchange fx i fs).

(** A fix that keeps one [double] per atom and ships it with the atom. *)
Definition one_word_fix : Fix (nat -> double) := {|
  fix_grow_arrays := fun _ fs => fs;
  fix_copy_arrays := fun i j _ fs => fun s => if Nat.eqb s j then fs i else fs s;
  fix_pack_border := fun _ _ _ => [];
  fix_unpack_border := fun _ _ _ fs => (0%nat, fs);
  fix_pack_exchange := fun i fs => [Wdouble (fs i)];
  fix_unpack_exchange := fun nl b fs =>
    (1%nat,
     fun s => if Nat.eqb s nl
              then match b 0%nat with Wdouble d => d | Wtagint _ => 0%float end
              else fs s);
  fix_size_restart := fun _ _ => 0;
  fix_pack_restart := fun _ _ => []
|}.

(** Owned atoms with two bonds (of type -1: across a periodic image), one
    angle, no dihedral and one special neighbour each, and that fix. *)
Definition rbc_store : Store (nat -> double) := {|
  cfg := {| ntypes := 2;
            domain := {| triclinic := 0; xprd := 10; yprd := 10; zprd := 10;
                         xy := 0; xz := 0; yz := 0 |};
            deform_vremap := 0;
            deform_groupbit := 2;
            h_rate := fun _ => 0%float;
            extra_grow := [one_word_fix];
            extra_border := [];
            extra_restart := [] |};
  nmax := 8;
  nlocal := 3;
  ivecs := fun a _ => match a with
                      | a_tag => 7
                      | a_type | a_mask | a_molecule | a_num_angle => 1
                      | a_image => 537395712
                      | a_num_bond => 2
                      | a_num_dihedral => 0
                      end;
  iarrs := fun a _ _ => match a with
                        | a_nspecial | a_angle_type => 1
                        | a_bond_type => -1
                        | a_special | a_bond_atom => 8
                        | a_angle_atom1 => 6
                        | a_angle_atom2 => 7
                        | a_angle_atom3 => 8
                        | _ => 0
                        end;
  darrs := fun a _ _ => match a with
                        | a_x => 9.5%float
                        | a_v => 0.25%float
                        | a_f => 0%float
                        | a_bond_r0 => 1.5%float
                        | a_angle_a0 => 2%float
                        end;
  fixes := fun _ => 3%float
|}.

(** ** Notions for the properties of the rest of the code *)

(** The three wrap counts less a periodic offset. *)
Definition counts_less (w : Z * Z * Z) (pbc : nat -> Z) : Z * Z * Z :=
  let '(wx, wy, wz) := w in (wx - pbc 0%nat, wy - pbc 1%nat, wz - pbc 2%nat).

Definition counts_ok {lmp : LmpType} (w : Z * Z * Z) : Prop :=
  let '(wx, wy, wz) := w in
  image_count_ok wx /\ image_count_ok wy /\ image_count_ok wz.

(** The codes that have nothing outside the three fields. *)
Definition image_code_ok {lmp : LmpType} (img : Z) : Prop :=
  0 <= img < 2 ^ (3 * IMGBITS).

(** *** The loops that unpack one atom per round *)

(** A word of the record of an atom: a per-atom integer, or one component of
    a row of doubles. *)
Inductive acol : Set :=
| AV (a : ivec)
| AD (a : darr) (c : nat).

Definition acol_eq_dec (c d : acol) : {c = d} + {c <> d}.
Proof. decide equality; [apply ivec_eq_dec | apply Nat.eq_dec | apply darr_eq_dec]. Defined.

Fixpoint acol_index (c : acol) (cols : list acol) : option nat :=
  match cols with
  | [] => None
  | d :: cols' =>
      if acol_eq_dec d c then Some 0%nat
      else option_map S (acol_index c cols')
  end.

(** The round of a loop that reads one word per column into slot [i]: the
    common shape of the loops of [unpack_comm], [unpack_comm_vel],
    [unpack_border], [unpack_border_vel] and [unpack_border_hybrid]. *)
Definition atom_step {FS : Type} {lmp : LmpType} (i : nat) (buf : buffer)
    (p : nat * Store FS) (c : acol) : nat * Store FS :=
  let '(m, st) := p in
  match c with
  | AV a => (S m, set_ivec a i (ivec_read a (buf m)) st)
  | AD a l => (S m, set_darr a i l (as_double (buf m)) st)
  end.

Definition atom_body {FS : Type} {lmp : LmpType} (cols : list acol)
    (buf : buffer) (i : nat) (p : nat * Store FS) : nat * Store FS :=
  let '(m, st) := p in fold_left (atom_step i buf) cols (m, st).

Definition comm_cols : list acol := [AD a_x 0; AD a_x 1; AD a_x 2].
Definition comm_vel_cols : list acol :=
  [AD a_x 0; AD a_x 1; AD a_x 2; AD a_v 0; AD a_v 1; AD a_v 2; AV a_image].
Definition border_cols : list acol :=
  [AD a_x 0; AD a_x 1; AD a_x 2; AV a_tag; AV a_type; AV a_mask; AV a_molecule;
   AV a_image].
Definition border_vel_cols : list acol :=
  [AD a_x 0; AD a_x 1; AD a_x 2; AV a_tag; AV a_type; AV a_mask; AV a_molecule;
   AD a_v 0; AD a_v 1; AD a_v 2; AV a_image].
Definition hybrid_cols : list acol := [AV a_molecule].

(** The slots [first .. first + n - 1]. *)
Definition in_block (first n s : nat) : bool :=
  (Nat.leb first s && Nat.ltb s (first + n))%bool.

(** The same round behind the capacity check [if (i == nmax) grow(0);], which
    can fail: the loops of [unpack_border] and [unpack_border_vel]. *)
Definition grow_atom_body {FS : Type} {lmp : LmpType} (cols : list acol)
    (buf : buffer) (i : nat) (r : result (nat * Store FS))
    : result (nat * Store FS) :=
  p <- r ;;
  let '(m, st) := p in
  st <- grow_if_full i st ;;
  Ok (atom_body cols buf i (m, st)).

(** What growing changes of a store: the capacity and the state of the
    fixes. *)
Definition regrow {FS : Type} (nm : Z) (fs : FS) (st : Store FS) : Store FS :=
  set_fixes fs (set_nmax nm st).

(** The per-atom integers [pack_border] converts to [double]. *)
Definition border_ints : list ivec := [a_tag; a_type; a_mask; a_molecule].

(** The words the fixes append in [pack_border]. *)
Definition border_fix_words {FS : Type} (n : nat) (lst : nat -> nat)
    (st : Store FS) : list word :=
  flat_map (fun fx => fix_pack_border fx n lst (fixes st)) (extra_border (cfg st)).

(** *** The record of [pack_restart] *)

(** Where the restart record of an atom with [nb] bonds and [na] angles keeps
    each value: word 0 is the length; the position, the tag, the type, the
    mask, the image flags, the velocity and the molecule id follow; then each
    list after its count. *)
Definition restart_ivec_at (nb na : nat) (a : ivec) : nat :=
  match a with
  | a_tag => 4
  | a_type => 5
  | a_mask => 6
  | a_image => 7
  | a_molecule => 11
  | a_num_bond => 12
  | a_num_angle => 13 + 3 * nb
  | a_num_dihedral => 14 + 3 * nb + 5 * na
  end.

Definition restart_iarr_at (nb na : nat) (a : iarr) (k : nat) : nat :=
  match a with
  | a_bond_type => 13 + 3 * k
  | a_bond_atom => 13 + 3 * k + 1
  | a_angle_type => 14 + 3 * nb + 5 * k
  | a_angle_atom1 => 14 + 3 * nb + 5 * k + 1
  | a_angle_atom2 => 14 + 3 * nb + 5 * k + 2
  | a_angle_atom3 => 14 + 3 * nb + 5 * k + 3
  | a_dihedral_type => 15 + 3 * nb + 5 * na + 5 * k
  | a_dihedral_atom1 => 15 + 3 * nb + 5 * na + 5 * k + 1
  | a_dihedral_atom2 => 15 + 3 * nb + 5 * na + 5 * k + 2
  | a_dihedral_atom3 => 15 + 3 * nb + 5 * na + 5 * k + 3
  | a_dihedral_atom4 => 15 + 3 * nb + 5 * na + 5 * k + 4
  | a_nspecial | a_special => 0
  end.

Definition restart_darr_at (nb : nat) (a : darr) (k : nat) : nat :=
  match a with
  | a_x => 1 + k
  | a_v => 8 + k
  | a_f => 0
  | a_bond_r0 => 13 + 3 * k + 2
  | a_angle_a0 => 14 + 3 * nb + 5 * k + 4
  end.

(** Where the words of the fixes start. *)
Definition restart_fixes_at (nb na nd : nat) : nat := 15 + 3 * nb + 5 * na + 5 * nd.

(** The entries of the integer rows that are in the record: the topology;
    the special neighbours and their counts are not. *)
Definition restart_rows_i (nb na nd : nat) (a : iarr) : nat :=
  match a with
  | a_nspecial | a_special => 0
  | _ => count_rows_i nb na nd 0 a
  end.

(** The rows that hold a type, which [pack_restart] writes as
    [MAX(t, -t)]. *)
Definition is_type (a : iarr) : bool :=
  match a with
  | a_bond_type | a_angle_type | a_dihedral_type => true
  | _ => false
  end.

(** What a restart gives back for an entry: a type without its sign, every
    other entry as it was. *)
Definition restart_entry (a : iarr) (z : Z) : Z :=
  if is_type a then Z.abs z else z.

(** The words the fixes append in [pack_restart]. *)
Definition restart_fix_words {FS : Type} (i : nat) (st : Store FS) : list word :=
  flat_map (fun fx => fix_pack_restart fx i (fixes st)) (extra_restart (cfg st)).

(** Every value that [pack_restart] converts for slot [i] is an [int], and no
    type it negates is [INT_MIN]. *)
Definition restart_ints {FS : Type} (st : Store FS) (i : nat) : Prop :=
  (forall a, a <> a_image -> int_range (ivecs st a i))
  /\ (forall a k,
        (k < restart_rows_i (rounds (num_bond st i)) (rounds (num_angle st i))
               (rounds (num_dihedral st i)) a)%nat ->
        int_range (iarrs st a i k)
        /\ (is_type a = true -> int_negatable (iarrs st a i k))).

(** The owned atoms fit the arrays. *)
Definition fits {FS : Type} (st : Store FS) : Prop :=
  Z.of_nat (nlocal st) <= nmax st.

(** A fix that keeps one [double] per atom and writes it to restart files. *)
Definition restart_fix : Fix (nat -> double) := {|
  fix_grow_arrays := fun _ fs => fs;
  fix_copy_arrays := fun i j _ fs => fun s => if Nat.eqb s j then fs i else fs s;
  fix_pack_border := fun _ _ _ => [];
  fix_unpack_border := fun _ _ _ fs => (0%nat, fs);
  fix_pack_exchange := fun _ _ => [];
  fix_unpack_exchange := fun _ _ fs => (0%nat, fs);
  fix_size_restart := fun _ _ => 1;
  fix_pack_restart := fun i fs => [Wdouble (fs i)]
|}.

(** The atoms of [rbc_store] with that fix registered for restarts. *)
Definition restart_store : Store (nat -> double) := {|
  cfg := {| ntypes := 2;
            domain := domain (cfg rbc_store);
            deform_vremap := 0;
            deform_groupbit := 2;
            h_rate := fun _ => 0%float;
            extra_grow := [];
            extra_border := [];
            extra_restart := [restart_fix] |};
  nmax := 8;
  nlocal := 3;
  ivecs := ivecs rbc_store;
  iarrs := iarrs rbc_store;
  darrs := darrs rbc_store;
  fixes := fun _ => 3%float
|}.

Definition empty_table : table := fun _ _ => 0%float.

(** *** copy: what it has assigned so far *)

(** A stage of [copy(i, j)] started on [st0]: beside what [copy_inv] keeps,
    the per-atom integers in [Pv] and the row entries in [Pi] and [Pd] of
    slot [j] already hold what slot [i] held at the start, and the state of
    the fixes is still untouched. *)
Record copied {FS : Type} (st0 : Store FS) (i j : nat) (Pv : ivec -> Prop)
    (Pi : iarr -> nat -> Prop) (Pd : darr -> nat -> Prop) (st : Store FS)
    : Prop := {
  cp_inv : copy_inv st0 i j st;
  cp_fixes : fixes st = fixes st0;
  cp_ivec : forall a, Pv a -> ivecs st a j = ivecs st0 a i;
  cp_iarr : forall a k, Pi a k -> iarrs st a j k = iarrs st0 a i k;
  cp_darr : forall a k, Pd a k -> darrs st a j k = darrs st0 a i k
}.

(** * Properties *)

(** ** Conversions between [int] and [double] *)

Lemma digits2_pos_iter_xO (d p : positive) :
  digits2_pos (Pos.iter xO p d) = (digits2_pos p + d)%positive.
Proof.
  induction d as [|d IH] using Pos.peano_ind.
  - simpl. lia.
  - rewrite Pos.iter_succ. simpl. rewrite IH. lia.
Qed.

Lemma Zpos_iter_xO (d p : positive) :
  Zpos (Pos.iter xO p d) = Zpos p * 2 ^ Zpos d.
Proof.
  induction d as [|d IH] using Pos.peano_ind.
  - simpl. lia.
  - rewrite Pos.iter_succ, Pos2Z.inj_succ, Z.pow_succ_r by lia.
    rewrite Pos2Z.inj_xO, IH. ring.
Qed.

Lemma digits2_pos_le (p : positive) (n : Z) :
  0 <= n -> Zpos p < 2 ^ n -> Zpos (digits2_pos p) <= n.
Proof.
  revert n. induction p as [p IH|p IH|]; intros n Hn Hp; simpl.
  - assert (0 < n) by (destruct (Z.eq_dec n 0); [subst; simpl in Hp; lia | lia]).
    replace n with (Z.succ (n - 1)) in Hp by lia.
    rewrite Z.pow_succ_r in Hp by lia.
    specialize (IH (n - 1)). lia.
  - assert (0 < n) by (destruct (Z.eq_dec n 0); [subst; simpl in Hp; lia | lia]).
    replace n with (Z.succ (n - 1)) in Hp by lia.
    rewrite Z.pow_succ_r in Hp by lia.
    specialize (IH (n - 1)). lia.
  - destruct (Z.eq_dec n 0); [subst; simpl in Hp; lia | lia].
Qed.

(** Rounding leaves a mantissa alone that is already in canonical form. *)
Lemma binary_round_aux_canonical s m e :
  canonical_mantissa prec emax m e = true -> e <= emax - prec ->
  binary_round_aux prec emax s (Zpos m) e loc_Exact = S754_finite s m e.
Proof.
  intros Hc He. unfold canonical_mantissa in Hc. apply Z.eqb_eq in Hc.
  unfold binary_round_aux, shr_fexp. cbn [Zdigits2 shr_record_of_loc].
  rewrite Hc, Z.sub_diag.
  cbn [shr shr_m loc_of_shr_record round_nearest_even Zdigits2 shr_record_of_loc].
  rewrite Hc, Z.sub_diag. cbn [shr shr_m].
  apply Z.leb_le in He. rewrite He. reflexivity.
Qed.

(** An integer below [2^53] is converted without rounding: the mantissa is the
    integer shifted left, the exponent undoes the shift. *)
Lemma binary_round_small s p :
  Zpos p < 2 ^ 53 ->
  exists m e, binary_round prec emax s p 0 = S754_finite s m e
              /\ valid_binary (S754_finite s m e) = true
              /\ e <= 0 /\ Zpos m = Zpos p * 2 ^ (- e).
Proof.
  intros Hp. pose proof (digits2_pos_le p 53 ltac:(lia) Hp) as Hd.
  unfold binary_round, shl_align.
  assert (Hf : fexp prec emax (Zpos (digits2_pos p) + 0)
               = Zpos (digits2_pos p) - 53).
  { unfold fexp, SpecFloat.emin, prec, emax. lia. }
  rewrite Hf, Z.sub_0_r.
  destruct (Zpos (digits2_pos p) - 53) as [|k|k] eqn:Hk; try lia.
  - exists p, 0.
    assert (Hc : canonical_mantissa prec emax p 0 = true).
    { unfold canonical_mantissa. rewrite Hf. reflexivity. }
    rewrite binary_round_aux_canonical by (auto; unfold emax, prec; lia).
    repeat split; try lia. simpl valid_binary. unfold bounded.
    rewrite Hc. reflexivity.
  - exists (Pos.iter xO p k), (Z.neg k).
    assert (Hc : canonical_mantissa prec emax (Pos.iter xO p k) (Z.neg k) = true).
    { unfold canonical_mantissa. rewrite digits2_pos_iter_xO. apply Z.eqb_eq.
      unfold fexp, SpecFloat.emin, prec, emax. lia. }
    rewrite binary_round_aux_canonical by (auto; unfold emax, prec; lia).
    repeat split; try lia.
    + simpl valid_binary. unfold bounded. rewrite Hc. reflexivity.
    + rewrite Zpos_iter_xO. reflexivity.
Qed.

(** An [int] stored in a [double] and cast back is the same [int]. *)
Lemma int_of_double_of_int z :
  int_range z -> int_of_double (double_of_int z) = z.
Proof.
  unfold int_range. intros Hz. unfold int_of_double, double_of_int.
  destruct z as [|p|p]; cbn [binary_normalize].
  - rewrite Prim2SF_SF2Prim by reflexivity. reflexivity.
  - destruct (binary_round_small false p) as (m & e & -> & Hv & He & Hm).
    { unfold INT_MAX in Hz. lia. }
    rewrite Prim2SF_SF2Prim by exact Hv.
    rewrite <- (Z.opp_involutive e), Z.shiftl_opp_r, Z.shiftr_div_pow2 by lia.
    rewrite Hm, Z.div_mul by (apply Z.pow_nonzero; lia).
    destruct Hz as [H1 H2]. apply Z.leb_le in H1, H2. rewrite H1, H2.
    reflexivity.
  - destruct (binary_round_small true p) as (m & e & -> & Hv & He & Hm).
    { unfold INT_MIN in Hz. lia. }
    rewrite Prim2SF_SF2Prim by exact Hv.
    rewrite <- (Z.opp_involutive e), Z.shiftl_opp_r, Z.shiftr_div_pow2 by lia.
    rewrite Hm, Z.div_mul by (apply Z.pow_nonzero; lia).
    change (- Z.pos p) with (Z.neg p).
    destruct Hz as [H1 H2]. apply Z.leb_le in H1, H2. rewrite H1, H2.
    reflexivity.
Qed.

(** A zero offset leaves a zero coordinate at zero, whatever the (finite)
    length of the box: [0.0 + 0 * prd = 0.0]. *)
Lemma zero_plus_zero_offset (prd : double) :
  double_finite prd = true ->
  (0 + double_of_int 0 * prd)%float = 0%float.
Proof.
  unfold double_finite. intros Hf. apply Prim2SF_inj.
  rewrite add_spec, mul_spec.
  replace (Prim2SF (double_of_int 0)) with (S754_zero false)
    by (symmetry; apply Prim2SF_SF2Prim; reflexivity).
  replace (Prim2SF 0%float) with (S754_zero false) by reflexivity.
  destruct (Prim2SF prd) as [s| | |s m e]; try discriminate;
    destruct s; reflexivity.
Qed.

Lemma MAX_abs (a : Z) : MAX a (- a) = Z.abs a.
Proof. unfold MAX. rewrite Z.gtb_ltb. destruct (Z.ltb_spec (- a) a); lia. Qed.

(** *** Narrowing to [int] *)

Lemma to_int_range (z : Z) : int_range (to_int z).
Proof.
  unfold int_range, to_int, INT_MIN, INT_MAX.
  pose proof (Z.mod_pos_bound (z - -2147483648) (2 ^ 32) eq_refl). lia.
Qed.

Lemma to_int_small (z : Z) : int_range z -> to_int z = z.
Proof.
  unfold int_range, to_int, INT_MIN, INT_MAX. intros Hz.
  rewrite Z.mod_small by lia. lia.
Qed.

Lemma to_int_mod (z : Z) : to_int z mod 2 ^ 32 = z mod 2 ^ 32.
Proof.
  unfold to_int, INT_MIN. rewrite Zplus_mod_idemp_l. f_equal. lia.
Qed.

(** Narrowing keeps the low 32 bits. *)
Lemma to_int_testbit (z m : Z) :
  0 <= m < 32 -> Z.testbit (to_int z) m = Z.testbit z m.
Proof.
  intros Hm.
  rewrite <- (Z.mod_pow2_bits_low (to_int z) 32 m) by lia.
  rewrite <- (Z.mod_pow2_bits_low z 32 m) by lia.
  rewrite to_int_mod. reflexivity.
Qed.

Lemma int_shr_small (a s : Z) : 0 <= s < 32 -> int_shr a s = Z.shiftr a s.
Proof.
  intros Hs. unfold int_shr. change 31 with (Z.ones 5).
  rewrite Z.land_ones by lia. rewrite Z.mod_small by (cbn; lia). reflexivity.
Qed.

(** [MAX(t, -t)] is the absolute value of every [int] but [INT_MIN]. *)
Lemma MAX_int_neg (t : Z) :
  INT_MIN < t <= INT_MAX -> MAX t (int_neg t) = Z.abs t.
Proof.
  intros Ht. unfold int_neg.
  rewrite to_int_small by (unfold int_range, INT_MIN, INT_MAX in *; lia).
  apply MAX_abs.
Qed.

(** What [atoi] returns is an [int]. *)
Lemma atoi_int (s : string) : int_range (atoi s).
Proof. apply to_int_range. Qed.

(** On a number that fits an [int], [atoi] is the number written. *)
Lemma atoi_decimal (s : string) : int_range (decimal s) -> atoi s = decimal s.
Proof.
  intros Hz. unfold atoi, strtol.
  assert (Hl : Z.max LONG_MIN (Z.min LONG_MAX (decimal s)) = decimal s)
    by (unfold int_range, INT_MIN, INT_MAX, LONG_MIN, LONG_MAX in *; lia).
  rewrite Hl. apply to_int_small, Hz.
Qed.

(** ** The image codec *)

Lemma lor_shiftl_add (a c n : Z) :
  0 <= n -> 0 <= a < 2 ^ n -> Z.lor a (Z.shiftl c n) = a + c * 2 ^ n.
Proof.
  intros Hn Ha.
  assert (Hd : Z.land a (Z.shiftl c n) = 0).
  { apply Z.bits_inj'. intros i Hi. rewrite Z.land_spec, Z.bits_0.
    destruct (Z.lt_ge_cases i n) as [Hlt|Hge].
    - rewrite Z.shiftl_spec_low by assumption. apply andb_false_r.
    - rewrite <- (Z.mod_small a (2 ^ n)) by assumption.
      rewrite Z.mod_pow2_bits_high by lia. reflexivity. }
  rewrite <- Z.lxor_lor by assumption.
  rewrite <- Z.add_nocarry_lxor by assumption.
  rewrite Z.shiftl_mul_pow2 by assumption. reflexivity.
Qed.

Section ImageCodec.
Context {lmp : LmpType} (OK : lmptype_ok).

Lemma IMGBITS_nonneg : 0 <= IMGBITS.
Proof. pose proof (imgbits_pos OK). lia. Qed.

Lemma field_pos : 0 < 2 ^ IMGBITS.
Proof. apply Z.pow_pos_nonneg; [lia | apply IMGBITS_nonneg]. Qed.

Lemma land_IMGMASK (a : Z) : Z.land a IMGMASK = a mod 2 ^ IMGBITS.
Proof. rewrite (imgmask_eq OK). apply Z.land_ones, IMGBITS_nonneg. Qed.

Lemma IMGMASK_val : IMGMASK = 2 ^ IMGBITS - 1.
Proof. rewrite (imgmask_eq OK), Z.ones_equiv. lia. Qed.

(** Three fields side by side, as a sum. *)
Lemma fields_sum (a b c : Z) :
  0 <= a < 2 ^ IMGBITS -> 0 <= b < 2 ^ IMGBITS -> 0 <= c ->
  Z.lor (Z.lor a (Z.shiftl b IMGBITS)) (Z.shiftl c IMG2BITS)
  = a + 2 ^ IMGBITS * (b + 2 ^ IMGBITS * c).
Proof.
  intros Ha Hb Hc. pose proof IMGBITS_nonneg as Hn. pose proof field_pos as Hp.
  rewrite (img2bits_eq OK).
  rewrite (lor_shiftl_add a b IMGBITS) by assumption.
  rewrite lor_shiftl_add.
  - replace (2 * IMGBITS) with (IMGBITS + IMGBITS) by lia.
    rewrite Z.pow_add_r by assumption. ring.
  - lia.
  - replace (2 * IMGBITS) with (IMGBITS + IMGBITS) by lia.
    rewrite Z.pow_add_r by assumption. nia.
Qed.

Lemma fields_x (a r : Z) :
  0 <= a < 2 ^ IMGBITS -> Z.land (a + 2 ^ IMGBITS * r) IMGMASK = a.
Proof.
  intros Ha. rewrite land_IMGMASK.
  rewrite Z.mul_comm, Z_mod_plus_full. apply Z.mod_small, Ha.
Qed.

Lemma fields_shift (a r : Z) :
  0 <= a < 2 ^ IMGBITS -> Z.shiftr (a + 2 ^ IMGBITS * r) IMGBITS = r.
Proof.
  intros Ha. pose proof field_pos.
  rewrite Z.shiftr_div_pow2 by apply IMGBITS_nonneg.
  rewrite Z.mul_comm, Z.div_add by lia.
  rewrite Z.div_small by assumption. reflexivity.
Qed.

Lemma fields_shift2 (a b c : Z) :
  0 <= a < 2 ^ IMGBITS -> 0 <= b < 2 ^ IMGBITS ->
  Z.shiftr (a + 2 ^ IMGBITS * (b + 2 ^ IMGBITS * c)) IMG2BITS = c.
Proof.
  intros Ha Hb. pose proof IMGBITS_nonneg.
  rewrite (img2bits_eq OK).
  replace (2 * IMGBITS) with (IMGBITS + IMGBITS) by lia.
  rewrite <- Z.shiftr_shiftr by assumption.
  rewrite fields_shift by assumption. apply fields_shift, Hb.
Qed.

Lemma field_range (a : Z) : 0 <= Z.land a IMGMASK < 2 ^ IMGBITS.
Proof. rewrite land_IMGMASK. apply Z.mod_pos_bound, field_pos. Qed.

(** *** When the three fields fit an [int] *)

(** The remapping blocks decode [int img = image[j]]: they see the three
    fields as stored when these lie in the low 31 bits, as they do in the
    stock build (ten bits each). *)
Hypothesis FIT : 3 * IMGBITS <= 31.

Lemma field_of_to_int (z s : Z) :
  0 <= s -> s + IMGBITS <= 32 ->
  Z.land (Z.shiftr (to_int z) s) IMGMASK = Z.land (Z.shiftr z s) IMGMASK.
Proof.
  intros Hs Hf. pose proof IMGBITS_nonneg as Hb. rewrite (imgmask_eq OK).
  apply Z.bits_inj'. intros n Hn.
  rewrite !Z.land_spec, !Z.shiftr_spec by assumption.
  destruct (Z.lt_ge_cases n IMGBITS) as [Hlt|Hge].
  - rewrite to_int_testbit by lia. reflexivity.
  - rewrite Z.ones_spec_high by lia. rewrite !andb_false_r. reflexivity.
Qed.

(** Then the narrowing and the [int] shifts lose nothing. *)
Lemma image_decode_fit (img : Z) :
  image_decode img
  = (Z.land img IMGMASK - IMGMAX,
     Z.land (Z.shiftr img IMGBITS) IMGMASK - IMGMAX,
     Z.land (Z.shiftr img IMG2BITS) IMGMASK - IMGMAX).
Proof.
  pose proof (imgbits_pos OK) as Hb. pose proof (img2bits_eq OK) as H2.
  unfold image_decode. cbv zeta.
  rewrite !int_shr_small by lia.
  rewrite <- (Z.shiftr_0_r (to_int img)) at 1.
  rewrite !field_of_to_int by lia.
  rewrite Z.shiftr_0_r. reflexivity.
Qed.

(** What decoding finds in a code built from three counts: each biased count
    modulo the width of a field, less the bias. *)
Lemma image_decode_encode_mod (wx wy wz : Z) :
  image_decode (image_encode wx wy wz)
  = ((wx + IMGMAX) mod 2 ^ IMGBITS - IMGMAX,
     (wy + IMGMAX) mod 2 ^ IMGBITS - IMGMAX,
     (wz + IMGMAX) mod 2 ^ IMGBITS - IMGMAX).
Proof.
  rewrite image_decode_fit. unfold image_encode.
  pose proof (field_range (wx + IMGMAX)) as Hx.
  pose proof (field_range (wy + IMGMAX)) as Hy.
  pose proof (field_range (wz + IMGMAX)) as Hz.
  rewrite fields_sum by lia.
  rewrite fields_x, fields_shift2, fields_shift by assumption.
  rewrite fields_x by assumption.
  rewrite !land_IMGMASK, Z.mod_mod by (pose proof field_pos; lia).
  reflexivity.
Qed.

Lemma image_decode_data_encode_mod (wx wy wz : Z) :
  image_decode_data (image_encode wx wy wz)
  = ((wx + IMGMAX) mod 2 ^ IMGBITS - IMGMAX,
     (wy + IMGMAX) mod 2 ^ IMGBITS - IMGMAX,
     (wz + IMGMAX) mod 2 ^ IMGBITS - IMGMAX).
Proof.
  unfold image_decode_data, image_encode.
  pose proof (field_range (wx + IMGMAX)) as Hx.
  pose proof (field_range (wy + IMGMAX)) as Hy.
  pose proof (field_range (wz + IMGMAX)) as Hz.
  rewrite fields_sum by lia.
  rewrite fields_x, fields_shift2, fields_shift by assumption.
  rewrite fields_x by assumption.
  rewrite !land_IMGMASK. reflexivity.
Qed.

Lemma biased_count_small (w : Z) :
  image_count_ok w -> (w + IMGMAX) mod 2 ^ IMGBITS - IMGMAX = w.
Proof.
  unfold image_count_ok. rewrite IMGMASK_val. intros Hw.
  rewrite Z.mod_small by lia. lia.
Qed.

End ImageCodec.

(** C3.  In a build whose three fields fit an [int] ([3 * IMGBITS <= 31], as
    in the stock build), decoding the image code that packs three wrap counts
    of the supported range gives the three counts back, with the decoding of
    the remapping blocks, which narrow the code to an [int] first, and with
    the one of [pack_data] alike. *)
Theorem image_codec_inverse {lmp : LmpType} (OK : lmptype_ok)
    (FIT : 3 * IMGBITS <= 31) (wx wy wz : Z) :
  image_count_ok wx -> image_count_ok wy -> image_count_ok wz ->
  image_decode (image_encode wx wy wz) = (wx, wy, wz)
  /\ image_decode_data (image_encode wx wy wz) = (wx, wy, wz).
Proof.
  intros Hx Hy Hz.
  rewrite image_decode_encode_mod, image_decode_data_encode_mod by assumption.
  rewrite !biased_count_small by assumption. split; reflexivity.
Qed.

Lemma image_codec_inverse_witness :
  image_decode (lmp := smallbig) (image_encode (lmp := smallbig) (-512) 3 511)
  = (-512, 3, 511)
  /\ image_decode_data (lmp := smallbig)
       (image_encode (lmp := smallbig) (-512) 3 511) = (-512, 3, 511).
Proof.
  apply (image_codec_inverse (lmp := smallbig)).
  - constructor; reflexivity.
  - simpl; lia.
  - unfold image_count_ok; simpl; lia.
  - unfold image_count_ok; simpl; lia.
  - unfold image_count_ok; simpl; lia.
Defined.

(** C4.  In a build whose three fields fit an [int] ([3 * IMGBITS <= 31], as
    in the stock build), remapping an image code by [s1] and then by [s2] is
    remapping it once by the component-wise sum, for every code and every two
    offsets. *)
Theorem image_remap_compose {lmp : LmpType} (OK : lmptype_ok)
    (FIT : 3 * IMGBITS <= 31) (img : Z) (s1 s2 : nat -> Z) :
  image_remap (image_remap img s1) s2 = image_remap img (pbc_add s1 s2).
Proof.
  unfold image_remap.
  destruct (image_decode img) as [[ximg yimg] zimg].
  rewrite image_decode_encode_mod by assumption.
  unfold image_encode, pbc_add. rewrite !(land_IMGMASK OK).
  pose proof (field_pos OK) as Hp.
  assert (Hm : forall a s t,
             ((a - s + IMGMAX) mod 2 ^ IMGBITS - IMGMAX - t + IMGMAX)
               mod 2 ^ IMGBITS
             = (a - (s + t) + IMGMAX) mod 2 ^ IMGBITS).
  { intros a s t.
    replace ((a - s + IMGMAX) mod 2 ^ IMGBITS - IMGMAX - t + IMGMAX)
      with ((a - s + IMGMAX) mod 2 ^ IMGBITS - t) by lia.
    rewrite Zminus_mod_idemp_l. f_equal. lia. }
  rewrite !Hm. reflexivity.
Qed.

Lemma image_remap_compose_witness :
  image_remap (lmp := smallbig)
    (image_remap (lmp := smallbig) 537395712 (pbc3 1 0 (-1))) (pbc3 600 2 0)
  = image_remap (lmp := smallbig) 537395712
      (pbc_add (pbc3 1 0 (-1)) (pbc3 600 2 0)).
Proof.
  apply (image_remap_compose (lmp := smallbig)).
  - constructor; reflexivity.
  - simpl; lia.
Defined.

(** ** Loops, lists and buffers *)

Lemma for_from_ext {T : Type} (body1 body2 : nat -> T -> T) :
  (forall k s, body1 k s = body2 k s) ->
  forall n k0 s, for_from k0 n body1 s = for_from k0 n body2 s.
Proof.
  intros He n. induction n as [|n IH]; intros k0 s; simpl.
  - reflexivity.
  - rewrite He. apply IH.
Qed.

(** The invariant rule for a counted loop. *)
Lemma for_from_ind {T : Type} (P : nat -> T -> Prop) (body : nat -> T -> T) :
  forall n k0 s,
    P k0 s ->
    (forall k t, (k0 <= k < k0 + n)%nat -> P k t -> P (S k) (body k t)) ->
    P (k0 + n)%nat (for_from k0 n body s).
Proof.
  induction n as [|n IH]; intros k0 s H0 Hstep; simpl.
  - rewrite Nat.add_0_r. exact H0.
  - rewrite <- Nat.add_succ_comm. apply IH.
    + apply Hstep; [lia | exact H0].
    + intros k t Hk. apply Hstep. lia.
Qed.

Lemma for_from_S {T : Type} (body : nat -> T -> T) (n k0 : nat) (s : T) :
  for_from k0 (S n) body s = body (k0 + n)%nat (for_from k0 n body s).
Proof.
  revert k0 s. induction n as [|n IH]; intros k0 s.
  - simpl. rewrite Nat.add_0_r. reflexivity.
  - change (for_from k0 (S (S n)) body s)
      with (for_from (S k0) (S n) body (body k0 s)).
    rewrite IH. simpl. rewrite <- Nat.add_succ_comm. reflexivity.
Qed.

Lemma blit_inside (ws : list word) (buf : buffer) (k : nat) (d : word) :
  (k < length ws)%nat -> blit ws buf k = nth k ws d.
Proof. intros Hk. unfold blit. apply nth_indep, Hk. Qed.

Lemma length_rows {A : Type} (row : nat -> list A) (w : nat) :
  (forall k, length (row k) = w) ->
  forall n k0, length (flat_map row (seq k0 n)) = (n * w)%nat.
Proof.
  intros Hw n. induction n as [|n IH]; intros k0; simpl.
  - reflexivity.
  - rewrite length_app, Hw, IH. reflexivity.
Qed.

(** Word [c] of row [k] of a block of rows of equal width. *)
Lemma nth_rows {A : Type} (row : nat -> list A) (w : nat) (rest : list A) (d : A) :
  (forall k, length (row k) = w) ->
  forall n k0 k c,
    (k < n)%nat -> (c < w)%nat ->
    nth (k * w + c) (flat_map row (seq k0 n) ++ rest) d = nth c (row (k0 + k)%nat) d.
Proof.
  intros Hw n. induction n as [|n IH]; intros k0 k c Hk Hc; [lia|].
  simpl. rewrite <- app_assoc. destruct k as [|k].
  - simpl. rewrite app_nth1 by (rewrite Hw; exact Hc).
    rewrite Nat.add_0_r. reflexivity.
  - rewrite app_nth2 by (rewrite Hw; simpl; lia).
    rewrite Hw. replace (S k * w + c - w)%nat with (k * w + c)%nat by (simpl; lia).
    rewrite IH by lia. f_equal. f_equal. lia.
Qed.

(** The words after such a block. *)
Lemma nth_after_rows {A : Type} (row : nat -> list A) (w : nat) (rest : list A)
    (d : A) :
  (forall k, length (row k) = w) ->
  forall n k0 j,
    nth (n * w + j) (flat_map row (seq k0 n) ++ rest) d = nth j rest d.
Proof.
  intros Hw n k0 j.
  rewrite app_nth2 by (rewrite (length_rows row w Hw); lia).
  rewrite (length_rows row w Hw). f_equal. lia.
Qed.

(** ** Reading the store after assignments *)

Lemma ivec_eq_dec_refl (a : ivec) {T : Type} (u w : T) :
  (if ivec_eq_dec a a then u else w) = u.
Proof. destruct (ivec_eq_dec a a); [reflexivity | congruence]. Qed.

Lemma iarr_eq_dec_refl (a : iarr) {T : Type} (u w : T) :
  (if iarr_eq_dec a a then u else w) = u.
Proof. destruct (iarr_eq_dec a a); [reflexivity | congruence]. Qed.

Lemma darr_eq_dec_refl (a : darr) {T : Type} (u w : T) :
  (if darr_eq_dec a a then u else w) = u.
Proof. destruct (darr_eq_dec a a); [reflexivity | congruence]. Qed.

Lemma ivec_eq_dec_neq (a b : ivec) {T : Type} (u w : T) :
  a <> b -> (if ivec_eq_dec a b then u else w) = w.
Proof. intros Hn. destruct (ivec_eq_dec a b); [congruence | reflexivity]. Qed.

Lemma iarr_eq_dec_neq (a b : iarr) {T : Type} (u w : T) :
  a <> b -> (if iarr_eq_dec a b then u else w) = w.
Proof. intros Hn. destruct (iarr_eq_dec a b); [congruence | reflexivity]. Qed.

Lemma darr_eq_dec_neq (a b : darr) {T : Type} (u w : T) :
  a <> b -> (if darr_eq_dec a b then u else w) = w.
Proof. intros Hn. destruct (darr_eq_dec a b); [congruence | reflexivity]. Qed.

(** Reduces a read of an array through the assignments made after the value
    was stored. *)
Ltac store_simpl :=
  repeat first
    [ progress cbn [cfg nmax nlocal ivecs iarrs darrs fixes
                    set_ivec set_iarr set_darr set_nmax set_nlocal set_fixes
                    tag type mask image molecule num_bond num_angle num_dihedral
                    nspecial special bond_type bond_atom angle_type angle_atom1
                    angle_atom2 angle_atom3 dihedral_type dihedral_atom1
                    dihedral_atom2 dihedral_atom3 dihedral_atom4
                    x v f bond_r0 angle_a0 andb Nat.eqb fst snd]
    | rewrite ivec_eq_dec_refl
    | rewrite iarr_eq_dec_refl
    | rewrite darr_eq_dec_refl
    | rewrite ivec_eq_dec_neq by discriminate
    | rewrite iarr_eq_dec_neq by discriminate
    | rewrite darr_eq_dec_neq by discriminate
    | rewrite Nat.eqb_refl ].

(** ** Reverse communication: forces are accumulated *)

Section Reverse.
Context {FS : Type} {lmp : LmpType}.
Implicit Types (st src dst : Store FS) (buf : buffer) (lst : nat -> nat).

Lemma f_set_f st (j c : nat) (d : double) (s c' : nat) :
  f (set_darr a_f j c d st) s c'
  = if (Nat.eqb j s && Nat.eqb c c')%bool then d else f st s c'.
Proof. reflexivity. Qed.

(** One round adds the three words at the cursor to the force of [lst i] and
    touches no other slot. *)
Lemma unpack_reverse_atom_f lst buf (i m : nat) st (s c : nat) :
  (c < 3)%nat ->
  f (snd (unpack_reverse_atom lst buf i (m, st))) s c
  = if Nat.eqb (lst i) s
    then (f st s c + as_double (buf (m + c)%nat))%float
    else f st s c.
Proof.
  intros Hc. unfold unpack_reverse_atom. cbn [snd]. rewrite !f_set_f.
  destruct (Nat.eqb_spec (lst i) s) as [->|Hne]; cbn [andb].
  - destruct c as [|[|[|c]]]; [| | |lia]; cbn [Nat.eqb];
      rewrite ?Nat.add_0_r, ?Nat.add_1_r, ?Nat.eqb_refl; cbn [andb];
      try reflexivity.
    replace (m + 2)%nat with (S (S m)) by lia. reflexivity.
  - reflexivity.
Qed.

Lemma unpack_reverse_atom_cursor lst buf (i m : nat) st :
  fst (unpack_reverse_atom lst buf i (m, st)) = (m + 3)%nat.
Proof. unfold unpack_reverse_atom. cbn [fst]. lia. Qed.

(** What the loop does for any list, repeated slots included. *)
Lemma unpack_reverse_loop lst buf (n : nat) :
  forall (k0 : nat) st (s c : nat),
    (c < 3)%nat ->
    f (snd (for_from k0 n (unpack_reverse_atom lst buf) ((3 * k0)%nat, st))) s c
    = accumulate lst buf k0 n s c (f st s c).
Proof.
  induction n as [|n IH]; intros k0 st s c Hc; [reflexivity|].
  cbn [for_from accumulate].
  destruct (unpack_reverse_atom lst buf k0 ((3 * k0)%nat, st)) as [m' st'] eqn:Hr.
  pose proof (unpack_reverse_atom_cursor lst buf k0 (3 * k0) st) as Hm.
  pose proof (unpack_reverse_atom_f lst buf k0 (3 * k0) st s c Hc) as Hf.
  rewrite Hr in Hm, Hf. cbn [fst snd] in Hm, Hf.
  replace m' with (3 * S k0)%nat by lia.
  rewrite IH by exact Hc. rewrite Hf. reflexivity.
Qed.

Lemma unpack_reverse_accumulate (n : nat) lst buf st (s c : nat) :
  (c < 3)%nat ->
  f (unpack_reverse n lst buf st) s c = accumulate lst buf 0 n s c (f st s c).
Proof.
  intros Hc. unfold unpack_reverse, for_.
  apply (unpack_reverse_loop lst buf n 0 st s c Hc).
Qed.

(** When the slot is named by exactly one round, one word is added. *)
Lemma accumulate_absent lst buf (n : nat) :
  forall (k0 s c : nat) (acc : double),
    (forall i, (k0 <= i < k0 + n)%nat -> lst i <> s) ->
    accumulate lst buf k0 n s c acc = acc.
Proof.
  induction n as [|n IH]; intros k0 s c acc Hn; [reflexivity|].
  cbn [accumulate].
  destruct (Nat.eqb_spec (lst k0) s) as [He|_].
  - exfalso. apply (Hn k0); [lia | exact He].
  - apply IH. intros i Hi. apply Hn. lia.
Qed.

Lemma accumulate_once lst buf (n : nat) :
  forall (k0 k c : nat) (acc : double),
    (k0 <= k < k0 + n)%nat ->
    (forall i, (k0 <= i < k0 + n)%nat -> lst i = lst k -> i = k) ->
    accumulate lst buf k0 n (lst k) c acc
    = (acc + as_double (buf (3 * k + c)%nat))%float.
Proof.
  induction n as [|n IH]; intros k0 k c acc Hk Hu; [lia|].
  cbn [accumulate].
  destruct (Nat.eqb_spec (lst k0) (lst k)) as [He|Hne].
  - assert (k0 = k) by (apply Hu; [lia | exact He]). subst k0.
    apply accumulate_absent. intros i Hi Hi'.
    assert (i = k) by (apply Hu; [lia | exact Hi']). lia.
  - assert (k0 <> k) by (intros ->; apply Hne; reflexivity).
    apply IH; [lia|]. intros i Hi. apply Hu. lia.
Qed.

(** The words [pack_reverse] leaves in the buffer. *)
Lemma pack_reverse_word (n first : nat) buf src (k c : nat) :
  (k < n)%nat -> (c < 3)%nat ->
  snd (pack_reverse n first buf src) (3 * k + c)%nat
  = Wdouble (f src (first + k)%nat c).
Proof.
  intros Hk Hc. unfold pack_reverse. cbn [snd].
  set (row := fun k : nat =>
                [Wdouble (f src (first + k)%nat 0%nat);
                 Wdouble (f src (first + k)%nat 1%nat);
                 Wdouble (f src (first + k)%nat 2%nat)]).
  assert (Hw : forall k, length (row k) = 3%nat) by reflexivity.
  rewrite (blit_inside _ _ _ (Wdouble 0)).
  - replace (3 * k + c)%nat with (k * 3 + c)%nat by lia.
    rewrite <- (app_nil_r (flat_map row (seq 0 n))).
    rewrite (nth_rows row 3 [] _ Hw) by assumption.
    cbn [Nat.add]. unfold row.
    destruct c as [|[|[|c]]]; [reflexivity..|lia].
  - rewrite (length_rows row 3 Hw). lia.
Qed.

Lemma pack_reverse_count (n first : nat) buf src :
  fst (pack_reverse n first buf src) = (3 * n)%nat.
Proof.
  unfold pack_reverse. cbn [fst].
  rewrite (length_rows _ 3) by reflexivity. lia.
Qed.

End Reverse.

(** C7, as the code has it.  The forces of [n] consecutive slots of [src] are
    packed and then unpacked onto the slots that [lst] names in [dst]; when
    [lst] names no slot twice, each component of slot [lst k] ends as its
    prior value plus the [k]-th packed value, one floating-point addition,
    and a slot that [lst] does not name keeps its force. *)
Theorem reverse_accumulates {FS : Type} {lmp : LmpType}
    (n first : nat) (lst : nat -> nat) (buf : buffer) (src dst : Store FS) :
  distinct_slots n lst ->
  let buf' := snd (pack_reverse n first buf src) in
  let dst' := unpack_reverse n lst buf' dst in
  (forall k c, (k < n)%nat -> (c < 3)%nat ->
     f dst' (lst k) c = (f dst (lst k) c + f src (first + k)%nat c)%float)
  /\ (forall s c, (c < 3)%nat -> (forall k, (k < n)%nat -> lst k <> s) ->
        f dst' s c = f dst s c).
Proof.
  intros Hd buf' dst'. split.
  - intros k c Hk Hc. unfold dst'.
    rewrite unpack_reverse_accumulate by exact Hc.
    rewrite accumulate_once.
    + unfold buf'. rewrite pack_reverse_word by assumption. reflexivity.
    + lia.
    + intros i Hi He. apply Hd; [lia | exact Hk | exact He].
  - intros s c Hc Hn. unfold dst'.
    rewrite unpack_reverse_accumulate by exact Hc.
    apply accumulate_absent. intros i Hi. apply Hn. lia.
Qed.

Lemma reverse_accumulates_witness :
  let lst := fun k : nat => (k + 4)%nat in
  let buf' := snd (pack_reverse 2 0 empty_buffer unit_force_store) in
  let dst' := unpack_reverse (lmp := smallbig) 2 lst buf' unit_force_store in
  (forall k c, (k < 2)%nat -> (c < 3)%nat ->
     f dst' (lst k) c
     = (f unit_force_store (lst k) c + f unit_force_store (0 + k)%nat c)%float)
  /\ (forall s c, (c < 3)%nat -> (forall k, (k < 2)%nat -> lst k <> s) ->
        f dst' s c = f unit_force_store s c).
Proof.
  apply (reverse_accumulates (lmp := smallbig) 2 0 (fun k : nat => (k + 4)%nat)
           empty_buffer unit_force_store unit_force_store).
  unfold distinct_slots. intros a b _ _ Hab. lia.
Defined.

(** C7 as stated, for every index list, fails when the list names a slot
    twice: both packed triples are added to it, so it does not end as its
    prior value plus one of them.  Here every force is [1.0] and the list is
    [0, 0]: slot 0 ends at [3.0], not at [1.0 + 1.0]. *)
Lemma reverse_repeated_slot_counterexample :
  ~ (forall (n first : nat) (lst : nat -> nat) (buf : buffer)
            (src dst : Store unit) (k c : nat),
        (k < n)%nat -> (c < 3)%nat ->
        f (unpack_reverse (lmp := smallbig) n lst
             (snd (pack_reverse n first buf src)) dst) (lst k) c
        = (f dst (lst k) c + f src (first + k)%nat c)%float).
Proof.
  intros Hall.
  specialize (Hall 2%nat 0%nat (fun _ => 0%nat) empty_buffer
                   unit_force_store unit_force_store 0%nat 0%nat
                   ltac:(lia) ltac:(lia)).
  apply (f_equal Prim2SF) in Hall. vm_compute in Hall. discriminate Hall.
Qed.

(** ** copy: what it leaves alone *)

Section Copy.
Context {FS : Type}.
Implicit Types (st : Store FS).

Lemma copy_inv_refl st0 i j : copy_inv st0 i j st0.
Proof. constructor; try reflexivity. intros s _. repeat split. Qed.

Lemma copy_inv_set_ivec st0 i j st a z :
  copy_inv st0 i j st -> copy_inv st0 i j (set_ivec a j z st).
Proof.
  intros [H1 H2 H3 H4 H5 H6]. constructor; try assumption.
  intros s Hs. destruct (H4 s Hs) as (Ha & Hb & Hc). repeat split; try assumption.
  intros b. cbn [set_ivec ivecs]. rewrite <- Ha.
  destruct (ivec_eq_dec a b); [|reflexivity].
  destruct (Nat.eqb_spec j s); [congruence | reflexivity].
Qed.

Lemma copy_inv_set_iarr st0 i j st a k z :
  (k < atom_rows_i st0 i a)%nat ->
  copy_inv st0 i j st -> copy_inv st0 i j (set_iarr a j k z st).
Proof.
  intros Hk [H1 H2 H3 H4 H5 H6]. constructor; try assumption.
  - intros s Hs. destruct (H4 s Hs) as (Ha & Hb & Hc).
    repeat split; try assumption.
    intros b l. cbn [set_iarr iarrs]. rewrite <- Hb.
    destruct (iarr_eq_dec a b); [|reflexivity].
    destruct (Nat.eqb_spec j s); [congruence | reflexivity].
  - intros b l Hl. cbn [set_iarr iarrs]. rewrite <- H5 by exact Hl.
    destruct (iarr_eq_dec a b) as [<-|]; [|reflexivity].
    destruct (Nat.eqb_spec k l); [lia|]. rewrite andb_false_r. reflexivity.
Qed.

Lemma copy_inv_set_darr st0 i j st a k d :
  (k < atom_rows_d st0 i a)%nat ->
  copy_inv st0 i j st -> copy_inv st0 i j (set_darr a j k d st).
Proof.
  intros Hk [H1 H2 H3 H4 H5 H6]. constructor; try assumption.
  - intros s Hs. destruct (H4 s Hs) as (Ha & Hb & Hc).
    repeat split; try assumption.
    intros b l. cbn [set_darr darrs]. rewrite <- Hc.
    destruct (darr_eq_dec a b); [|reflexivity].
    destruct (Nat.eqb_spec j s); [congruence | reflexivity].
  - intros b l Hl. cbn [set_darr darrs]. rewrite <- H6 by exact Hl.
    destruct (darr_eq_dec a b) as [<-|]; [|reflexivity].
    destruct (Nat.eqb_spec k l); [lia|]. rewrite andb_false_r. reflexivity.
Qed.

Lemma copy_inv_set_fixes st0 i j st fs :
  copy_inv st0 i j st -> copy_inv st0 i j (set_fixes fs st).
Proof. intros [H1 H2 H3 H4 H5 H6]. constructor; assumption. Qed.

Lemma copy_inv_for st0 i j st (n : nat) (body : nat -> Store FS -> Store FS) :
  (forall k t, (k < n)%nat -> copy_inv st0 i j t -> copy_inv st0 i j (body k t)) ->
  copy_inv st0 i j st -> copy_inv st0 i j (for_ n body st).
Proof.
  intros Hb H0. unfold for_.
  apply (for_from_ind (fun _ t => copy_inv st0 i j t) body n 0 st H0).
  intros k t Hk. apply Hb. lia.
Qed.

(** A count just assigned to slot [j] is the count of slot [i] at the start. *)
Lemma copy_count st0 i j st (a : ivec) :
  i <> j -> copy_inv st0 i j st ->
  ivecs (set_ivec a j (ivecs st a i) st) a j = ivecs st0 a i.
Proof.
  intros Hij Hinv. cbn [set_ivec ivecs].
  destruct (ivec_eq_dec a a); [|congruence]. rewrite Nat.eqb_refl.
  destruct (inv_others _ _ _ _ Hinv i Hij) as (Ha & _). apply Ha.
Qed.

End Copy.

Create HintDb copy.
#[local] Hint Resolve copy_inv_refl copy_inv_set_ivec copy_inv_set_fixes : copy.

(** Names the store a [let] binds and moves on to the rest of [copy]. *)
Ltac copy_name s :=
  lazymatch goal with
  | |- copy_inv ?st0 ?i ?j (let st := ?e in @?b st) =>
      pose (s := e); change (copy_inv st0 i j (b s)); cbv beta
  end.

(** C10.  For distinct slots [i] and [j], [copy(i, j, delflag)] keeps the
    configuration, the capacity and the count of owned atoms, keeps every
    slot other than [j] (slot [i] among them) in every array, and within
    slot [j] assigns only the leading entries of each row that the counts of
    slot [i] select; the state of the fixes is the only other thing it may
    change. *)
Theorem copy_frame {FS : Type} (st : Store FS) (i j : nat) (delflag : Z) :
  i <> j ->
  let st' := copy i j delflag st in
  cfg st' = cfg st /\ nmax st' = nmax st /\ nlocal st' = nlocal st
  /\ (forall s, s <> j -> same_slot st st' s)
  /\ (forall a k, (atom_rows_i st i a <= k)%nat ->
                  iarrs st' a j k = iarrs st a j k)
  /\ (forall a k, (atom_rows_d st i a <= k)%nat ->
                  darrs st' a j k = darrs st a j k).
Proof.
  intros Hij st'.
  assert (Hinv : copy_inv st i j st').
  { unfold st'. cbv beta delta [copy].
    copy_name s1. assert (H1 : copy_inv st i j s1) by (subst s1; auto with copy).
    copy_name s2. assert (H2 : copy_inv st i j s2) by (subst s2; auto with copy).
    copy_name s3. assert (H3 : copy_inv st i j s3) by (subst s3; auto with copy).
    copy_name s4. assert (H4 : copy_inv st i j s4) by (subst s4; auto with copy).
    clearbody s1 s2 s3 s4. clear H1 H2 H3.
    copy_name x0. assert (Hx0 : copy_inv st i j x0)
      by (subst x0; apply copy_inv_set_darr; [simpl; lia | assumption]).
    copy_name x1. assert (Hx1 : copy_inv st i j x1)
      by (subst x1; apply copy_inv_set_darr; [simpl; lia | assumption]).
    copy_name x2. assert (Hx2 : copy_inv st i j x2)
      by (subst x2; apply copy_inv_set_darr; [simpl; lia | assumption]).
    copy_name v0. assert (Hv0 : copy_inv st i j v0)
      by (subst v0; apply copy_inv_set_darr; [simpl; lia | assumption]).
    copy_name v1. assert (Hv1 : copy_inv st i j v1)
      by (subst v1; apply copy_inv_set_darr; [simpl; lia | assumption]).
    copy_name v2. assert (Hv2 : copy_inv st i j v2)
      by (subst v2; apply copy_inv_set_darr; [simpl; lia | assumption]).
    clearbody x0 x1 x2 v0 v1 v2. clear H4 Hx0 Hx1 Hx2 Hv0 Hv1.
    copy_name s5. assert (H5 : copy_inv st i j s5) by (subst s5; auto with copy).
    clearbody s5. clear Hv2.
    (* bonds *)
    copy_name s6. assert (H6 : copy_inv st i j s6) by (subst s6; auto with copy).
    assert (C6 : num_bond s6 j = num_bond st i)
      by (subst s6; apply copy_count; assumption).
    clearbody s6. clear H5.
    copy_name s7. assert (H7 : copy_inv st i j s7).
    { subst s7. apply copy_inv_for; [|assumption]. intros k t Hk Ht.
      rewrite C6 in Hk.
      apply copy_inv_set_darr; [exact Hk|].
      apply copy_inv_set_iarr; [exact Hk|].
      apply copy_inv_set_iarr; [exact Hk|]. exact Ht. }
    clearbody s7. clear H6 C6.
    (* angles *)
    copy_name s8. assert (H8 : copy_inv st i j s8) by (subst s8; auto with copy).
    assert (C8 : num_angle s8 j = num_angle st i)
      by (subst s8; apply copy_count; assumption).
    clearbody s8. clear H7.
    copy_name s9. assert (H9 : copy_inv st i j s9).
    { subst s9. apply copy_inv_for; [|assumption]. intros k t Hk Ht.
      rewrite C8 in Hk.
      apply copy_inv_set_darr; [exact Hk|].
      do 4 (apply copy_inv_set_iarr; [exact Hk|]). exact Ht. }
    clearbody s9. clear H8 C8.
    (* dihedrals *)
    copy_name s10.
    assert (H10 : copy_inv st i j s10) by (subst s10; auto with copy).
    assert (C10 : num_dihedral s10 j = num_dihedral st i)
      by (subst s10; apply copy_count; assumption).
    clearbody s10. clear H9.
    copy_name s11. assert (H11 : copy_inv st i j s11).
    { subst s11. apply copy_inv_for; [|assumption]. intros k t Hk Ht.
      rewrite C10 in Hk.
      do 5 (apply copy_inv_set_iarr; [exact Hk|]). exact Ht. }
    clearbody s11. clear H10 C10.
    (* special neighbours *)
    copy_name n0. assert (Hn0 : copy_inv st i j n0)
      by (subst n0; apply copy_inv_set_iarr; [simpl; lia | assumption]).
    copy_name n1. assert (Hn1 : copy_inv st i j n1)
      by (subst n1; apply copy_inv_set_iarr; [simpl; lia | assumption]).
    clearbody n0 n1. clear H11 Hn0.
    copy_name n2. assert (Hn2 : copy_inv st i j n2)
      by (subst n2; apply copy_inv_set_iarr; [simpl; lia | assumption]).
    assert (C2 : nspecial n2 j 2%nat = nspecial st i 2%nat).
    { subst n2. unfold nspecial. cbn [set_iarr iarrs].
      destruct (iarr_eq_dec a_nspecial a_nspecial); [|congruence].
      rewrite Nat.eqb_refl. cbn [andb Nat.eqb].
      destruct (inv_others _ _ _ _ Hn1 i Hij) as (_ & Hb & _). apply Hb. }
    clearbody n2. clear Hn1.
    copy_name s12. assert (H12 : copy_inv st i j s12).
    { subst s12. apply copy_inv_for; [|assumption]. intros k t Hk Ht.
      rewrite C2 in Hk. apply copy_inv_set_iarr; [exact Hk | exact Ht]. }
    clearbody s12.
    apply copy_inv_set_fixes. exact H12. }
  destruct Hinv as [H1 H2 H3 H4 H5 H6]. repeat split; try assumption.
  - apply H4. assumption.
  - apply H4. assumption.
  - apply H4. assumption.
Qed.

Lemma copy_frame_witness :
  let st := one_bond_store in
  let st' := copy 0 1 0 st in
  cfg st' = cfg st /\ nmax st' = nmax st /\ nlocal st' = nlocal st
  /\ (forall s, s <> 1%nat -> same_slot st st' s)
  /\ (forall a k, (atom_rows_i st 0 a <= k)%nat ->
                  iarrs st' a 1%nat k = iarrs st a 1%nat k)
  /\ (forall a k, (atom_rows_d st 0 a <= k)%nat ->
                  darrs st' a 1%nat k = darrs st a 1%nat k).
Proof.
  apply (copy_frame one_bond_store 0 1 0). lia.
Defined.

(** ** Restart records *)

Section Restart.
Context {FS : Type}.
Implicit Types (st : Store FS) (buf : buffer).

(** The number of words of a restart record. *)
Lemma pack_restart_count i buf st :
  fst (pack_restart i buf st)
  = (15 + 3 * rounds (num_bond st i) + 5 * rounds (num_angle st i)
     + 5 * rounds (num_dihedral st i)
     + length (flat_map (fun fx => fix_pack_restart fx i (fixes st))
                        (extra_restart (cfg st))))%nat.
Proof.
  unfold pack_restart. cbn [fst].
  rewrite length_app. cbn [length].
  rewrite length_app, (length_rows _ 3) by reflexivity. cbn [length].
  rewrite length_app, (length_rows _ 5) by reflexivity. cbn [length].
  rewrite length_app, (length_rows _ 5) by reflexivity. lia.
Qed.

Lemma pack_restart_bond i buf st (k c : nat) :
  (k < rounds (num_bond st i))%nat -> (c < 3)%nat ->
  snd (pack_restart i buf st) (restart_bonds_at + 3 * k + c)%nat
  = nth c [Wint (MAX (bond_type st i k) (int_neg (bond_type st i k)));
           Wint (bond_atom st i k); Wdouble (bond_r0 st i k)]
        (buf (restart_bonds_at + 3 * k + c)%nat).
Proof.
  intros Hk Hc. unfold pack_restart, restart_bonds_at. cbn [snd]. unfold blit.
  replace (13 + 3 * k + c)%nat with (13 + (k * 3 + c))%nat by lia.
  cbn [Nat.add nth app].
  rewrite (nth_rows _ 3) by (reflexivity || assumption). reflexivity.
Qed.

Lemma pack_restart_angle i buf st (k c : nat) :
  (k < rounds (num_angle st i))%nat -> (c < 5)%nat ->
  snd (pack_restart i buf st) (restart_angles_at st i + 5 * k + c)%nat
  = nth c [Wint (MAX (angle_type st i k) (int_neg (angle_type st i k)));
           Wint (angle_atom1 st i k); Wint (angle_atom2 st i k);
           Wint (angle_atom3 st i k); Wdouble (angle_a0 st i k)]
        (buf (restart_angles_at st i + 5 * k + c)%nat).
Proof.
  intros Hk Hc. unfold pack_restart, restart_angles_at. cbn [snd]. unfold blit.
  replace (14 + 3 * rounds (num_bond st i) + 5 * k + c)%nat
    with (13 + (rounds (num_bond st i) * 3 + (1 + (k * 5 + c))))%nat by lia.
  cbn [Nat.add nth app].
  rewrite (nth_after_rows _ 3) by reflexivity.
  cbn [Nat.add nth app].
  rewrite (nth_rows _ 5) by (reflexivity || assumption). reflexivity.
Qed.

Lemma pack_restart_dihedral i buf st (k c : nat) :
  (k < rounds (num_dihedral st i))%nat -> (c < 5)%nat ->
  snd (pack_restart i buf st) (restart_dihedrals_at st i + 5 * k + c)%nat
  = nth c [Wint (MAX (dihedral_type st i k) (int_neg (dihedral_type st i k)));
           Wint (dihedral_atom1 st i k); Wint (dihedral_atom2 st i k);
           Wint (dihedral_atom3 st i k); Wint (dihedral_atom4 st i k)]
        (buf (restart_dihedrals_at st i + 5 * k + c)%nat).
Proof.
  intros Hk Hc. unfold pack_restart, restart_dihedrals_at. cbn [snd]. unfold blit.
  replace (15 + 3 * rounds (num_bond st i) + 5 * rounds (num_angle st i)
           + 5 * k + c)%nat
    with (13 + (rounds (num_bond st i) * 3
                + (1 + (rounds (num_angle st i) * 5 + (1 + (k * 5 + c))))))%nat
    by lia.
  cbn [Nat.add nth app].
  rewrite (nth_after_rows _ 3) by reflexivity.
  cbn [Nat.add nth app].
  rewrite (nth_after_rows _ 5) by reflexivity.
  cbn [Nat.add nth app].
  rewrite (nth_rows _ 5) by (reflexivity || assumption). reflexivity.
Qed.

End Restart.

(** C9.  In the restart record of any slot whose bond, angle and dihedral
    types are [int]s other than [INT_MIN] (the one [int] that [-t] cannot
    negate), the type word of every bond, angle and dihedral is the absolute
    value of the stored type, negative or not, and the other words of the
    entry (partner tags, equilibrium length, equilibrium angle) are the stored
    values. *)
Theorem pack_restart_types_unsigned {FS : Type} (st : Store FS) (i : nat)
    (buf : buffer) :
  (forall k, (k < rounds (num_bond st i))%nat ->
     int_negatable (bond_type st i k)) ->
  (forall k, (k < rounds (num_angle st i))%nat ->
     int_negatable (angle_type st i k)) ->
  (forall k, (k < rounds (num_dihedral st i))%nat ->
     int_negatable (dihedral_type st i k)) ->
  let buf' := snd (pack_restart i buf st) in
  (forall k, (k < rounds (num_bond st i))%nat ->
     let o := (restart_bonds_at + 3 * k)%nat in
     buf' o = Wint (Z.abs (bond_type st i k))
     /\ buf' (o + 1)%nat = Wint (bond_atom st i k)
     /\ buf' (o + 2)%nat = Wdouble (bond_r0 st i k))
  /\ (forall k, (k < rounds (num_angle st i))%nat ->
     let o := (restart_angles_at st i + 5 * k)%nat in
     buf' o = Wint (Z.abs (angle_type st i k))
     /\ buf' (o + 1)%nat = Wint (angle_atom1 st i k)
     /\ buf' (o + 2)%nat = Wint (angle_atom2 st i k)
     /\ buf' (o + 3)%nat = Wint (angle_atom3 st i k)
     /\ buf' (o + 4)%nat = Wdouble (angle_a0 st i k))
  /\ (forall k, (k < rounds (num_dihedral st i))%nat ->
     let o := (restart_dihedrals_at st i + 5 * k)%nat in
     buf' o = Wint (Z.abs (dihedral_type st i k))
     /\ buf' (o + 1)%nat = Wint (dihedral_atom1 st i k)
     /\ buf' (o + 2)%nat = Wint (dihedral_atom2 st i k)
     /\ buf' (o + 3)%nat = Wint (dihedral_atom3 st i k)
     /\ buf' (o + 4)%nat = Wint (dihedral_atom4 st i k)).
Proof.
  intros Hb Ha Hd buf'. unfold buf'. repeat split.
  - rewrite <- (Nat.add_0_r (_ + 3 * k)), pack_restart_bond by (assumption || lia).
    cbn [nth]. rewrite MAX_int_neg by (apply Hb; assumption). reflexivity.
  - rewrite pack_restart_bond by (assumption || lia). reflexivity.
  - rewrite pack_restart_bond by (assumption || lia). reflexivity.
  - rewrite <- (Nat.add_0_r (_ + 5 * k)), pack_restart_angle by (assumption || lia).
    cbn [nth]. rewrite MAX_int_neg by (apply Ha; assumption). reflexivity.
  - rewrite pack_restart_angle by (assumption || lia). reflexivity.
  - rewrite pack_restart_angle by (assumption || lia). reflexivity.
  - rewrite pack_restart_angle by (assumption || lia). reflexivity.
  - rewrite pack_restart_angle by (assumption || lia). reflexivity.
  - rewrite <- (Nat.add_0_r (_ + 5 * k)), pack_restart_dihedral
      by (assumption || lia).
    cbn [nth]. rewrite MAX_int_neg by (apply Hd; assumption). reflexivity.
  - rewrite pack_restart_dihedral by (assumption || lia). reflexivity.
  - rewrite pack_restart_dihedral by (assumption || lia). reflexivity.
  - rewrite pack_restart_dihedral by (assumption || lia). reflexivity.
  - rewrite pack_restart_dihedral by (assumption || lia). reflexivity.
Qed.

Lemma pack_restart_types_unsigned_witness :
  let st := rbc_store in
  let i := 0%nat in
  let buf' := snd (pack_restart i empty_buffer st) in
  (forall k, (k < rounds (num_bond st i))%nat ->
     let o := (restart_bonds_at + 3 * k)%nat in
     buf' o = Wint (Z.abs (bond_type st i k))
     /\ buf' (o + 1)%nat = Wint (bond_atom st i k)
     /\ buf' (o + 2)%nat = Wdouble (bond_r0 st i k))
  /\ (forall k, (k < rounds (num_angle st i))%nat ->
     let o := (restart_angles_at st i + 5 * k)%nat in
     buf' o = Wint (Z.abs (angle_type st i k))
     /\ buf' (o + 1)%nat = Wint (angle_atom1 st i k)
     /\ buf' (o + 2)%nat = Wint (angle_atom2 st i k)
     /\ buf' (o + 3)%nat = Wint (angle_atom3 st i k)
     /\ buf' (o + 4)%nat = Wdouble (angle_a0 st i k))
  /\ (forall k, (k < rounds (num_dihedral st i))%nat ->
     let o := (restart_dihedrals_at st i + 5 * k)%nat in
     buf' o = Wint (Z.abs (dihedral_type st i k))
     /\ buf' (o + 1)%nat = Wint (dihedral_atom1 st i k)
     /\ buf' (o + 2)%nat = Wint (dihedral_atom2 st i k)
     /\ buf' (o + 3)%nat = Wint (dihedral_atom3 st i k)
     /\ buf' (o + 4)%nat = Wint (dihedral_atom4 st i k)).
Proof.
  apply (pack_restart_types_unsigned rbc_store 0 empty_buffer);
    intros k Hk; vm_compute; (split; [reflexivity | discriminate]).
Defined.

(** *** The size announced and the size written *)

Section RestartSize.
Context {FS : Type}.
Implicit Types (st : Store FS) (buf : buffer).

(** X15.  Without restart fixes and with counts that are not negative, the
    records of the owned atoms take one word per bond more than [size_restart]
    announces: it counts two words for a bond, [pack_restart] writes three. *)
Lemma restart_words_exceed_size buf st :
  extra_restart (cfg st) = [] -> counts_nonneg st ->
  Z.of_nat (restart_words_written buf st) = size_restart st + owned_bonds st.
Proof.
  unfold restart_words_written, size_restart, owned_bonds, counts_nonneg.
  intros Hx. rewrite Hx. cbn [fold_left].
  generalize (nlocal st). intros n. induction n as [|n IH]; intros Hc.
  - reflexivity.
  - unfold for_ in *. rewrite !for_from_S. cbn [Nat.add].
    rewrite Nat2Z.inj_add, IH by (intros i Hi; apply Hc; lia).
    rewrite pack_restart_count, Hx. cbn [flat_map length].
    destruct (Hc n ltac:(lia)) as (Hb & Ha & Hd).
    unfold rounds. lia.
Qed.

End RestartSize.

(** C1 at a failing input.  One owned atom with one bond and no fix:
    [size_restart] announces 17 words, the record written has 18. *)
Theorem size_restart_omits_bond_word :
  size_restart one_bond_store = 17
  /\ restart_words_written empty_buffer one_bond_store = 18%nat
  /\ fst (pack_restart 0 empty_buffer one_bond_store) = 18%nat.
Proof. repeat split; vm_compute; reflexivity. Qed.

(** ** The velocity correction under deformation *)

Section Deform.
Context {FS : Type} {lmp : LmpType}.
Implicit Types (st : Store FS) (buf : buffer) (lst : nat -> nat).

(** What [pack_comm_vel] packs as the velocity of round [k] when the box
    deforms and the list crosses a periodic boundary: the correction is
    decided by the mask of slot [k], the round, and is applied to the velocity
    of slot [lst k]. *)
Lemma pack_comm_vel_deform_velocity (n : nat) lst buf (pbc_flag : Z)
    (pbc : nat -> Z) st (k c : nat) :
  pbc_flag <> 0 -> deform_vremap (cfg st) <> 0 ->
  (k < n)%nat -> (c < 3)%nat ->
  snd (pack_comm_vel n lst buf pbc_flag pbc st) (7 * k + 3 + c)%nat
  = Wdouble (if in_deform_group k st
             then (v st (lst k) c + triple_nth (deform_dv pbc st) c)%float
             else v st (lst k) c).
Proof.
  intros Hp Hd Hk Hc. unfold pack_comm_vel. cbn [snd]. unfold blit.
  apply Z.eqb_neq in Hp, Hd. rewrite Hp, Hd.
  destruct (comm_offset pbc st) as [[dx dy] dz].
  destruct (deform_dv pbc st) as [[dvx dvy] dvz].
  replace (7 * k + 3 + c)%nat with (k * 7 + (3 + c))%nat by lia.
  match goal with |- nth _ (flat_map ?r _) _ = _ => set (row := r) end.
  assert (Hw : forall k, length (row k) = 7%nat)
    by (intros k'; unfold row; destruct (in_deform_group k' st); reflexivity).
  rewrite <- (app_nil_r (flat_map row (seq 0 n))).
  rewrite (nth_rows row 7 [] _ Hw) by lia.
  unfold row. cbn [Nat.add app nth].
  destruct (in_deform_group k st); destruct c as [|[|[|c]]];
    try reflexivity; lia.
Qed.

(** The same for [pack_border_vel]. *)
Lemma pack_border_vel_deform_velocity (n : nat) lst buf (pbc_flag : Z)
    (pbc : nat -> Z) st (k c : nat) :
  pbc_flag <> 0 -> deform_vremap (cfg st) <> 0 ->
  (k < n)%nat -> (c < 3)%nat ->
  snd (pack_border_vel n lst buf pbc_flag pbc st) (11 * k + 7 + c)%nat
  = Wdouble (if in_deform_group k st
             then (v st (lst k) c + triple_nth (deform_dv pbc st) c)%float
             else v st (lst k) c).
Proof.
  intros Hp Hd Hk Hc. unfold pack_border_vel. cbn [snd]. unfold blit.
  apply Z.eqb_neq in Hp, Hd. rewrite Hp, Hd.
  destruct (border_offset pbc st) as [[dx dy] dz].
  destruct (deform_dv pbc st) as [[dvx dvy] dvz].
  replace (11 * k + 7 + c)%nat with (k * 11 + (7 + c))%nat by lia.
  match goal with |- nth _ (flat_map ?r _ ++ _) _ = _ => set (row := r) end.
  assert (Hw : forall k, length (row k) = 11%nat)
    by (intros k'; unfold row; destruct (in_deform_group k' st); reflexivity).
  rewrite (nth_rows row 11 _ _ Hw) by lia.
  unfold row. cbn [Nat.add app nth].
  destruct (in_deform_group k st); destruct c as [|[|[|c]]];
    try reflexivity; lia.
Qed.

End Deform.

Lemma Wdouble_neq (a b : double) : Prim2SF a <> Prim2SF b -> Wdouble a <> Wdouble b.
Proof. intros Hne He. apply Hne. injection He as ->. reflexivity. Qed.

(** C6 at a failing input.  The box deforms, the offset is one box length
    along x, and the list is [1, 0].  Slot 1 is in the deformation group and
    slot 0 is not, yet the velocity of slot 1 (round 0) is packed unchanged
    and the velocity of slot 0 (round 1) is packed with the correction: the
    test reads [mask[i]] for the round [i], not the mask of the listed slot.
    [pack_border_vel] does the same. *)
Theorem deform_correction_tests_round_not_slot :
  let st := deform_store in
  let pbc := pbc3 1 0 0 in
  let comm := snd (pack_comm_vel (lmp := smallbig) 2 swapped_pair empty_buffer 1 pbc st) in
  let border :=
    snd (pack_border_vel (lmp := smallbig) 2 swapped_pair empty_buffer 1 pbc st) in
  (swapped_pair 0 = 1%nat /\ in_deform_group 1 st = true
   /\ comm 3%nat = Wdouble (v st 1%nat 0%nat)
   /\ border 7%nat = Wdouble (v st 1%nat 0%nat)
   /\ Wdouble (v st 1%nat 0%nat)
      <> Wdouble (v st 1%nat 0%nat + triple_nth (deform_dv pbc st) 0)%float)
  /\ (swapped_pair 1 = 0%nat /\ in_deform_group 0 st = false
      /\ comm 10%nat
         = Wdouble (v st 0%nat 0%nat + triple_nth (deform_dv pbc st) 0)%float
      /\ border 18%nat
         = Wdouble (v st 0%nat 0%nat + triple_nth (deform_dv pbc st) 0)%float
      /\ Wdouble (v st 0%nat 0%nat + triple_nth (deform_dv pbc st) 0)%float
         <> Wdouble (v st 0%nat 0%nat)).
Proof.
  cbv zeta. repeat split; try (vm_compute; reflexivity);
    apply Wdouble_neq; vm_compute; discriminate.
Qed.

(** ** Border atoms across a periodic boundary *)

Section Border.
Context {FS : Type} {lmp : LmpType} (OK : lmptype_ok).
Implicit Types (st src dst : Store FS) (buf : buffer) (lst : nat -> nat).

Lemma image_count_ok_0 : image_count_ok 0.
Proof.
  unfold image_count_ok. rewrite (IMGMASK_val OK), (imgmax_eq OK).
  pose proof (imgbits_pos OK) as Hb.
  assert (0 < 2 ^ (IMGBITS - 1)) by (apply Z.pow_pos_nonneg; lia).
  assert (2 ^ IMGBITS = 2 * 2 ^ (IMGBITS - 1))
    by (rewrite <- Z.pow_succ_r by lia; f_equal; lia).
  lia.
Qed.

Lemma image_remap_fresh (FIT : 3 * IMGBITS <= 31) (pbc : nat -> Z) :
  image_remap (image_encode 0 0 0) pbc
  = image_encode (- pbc 0%nat) (- pbc 1%nat) (- pbc 2%nat).
Proof.
  unfold image_remap.
  rewrite (image_decode_encode_mod OK FIT).
  rewrite !(biased_count_small OK) by exact image_count_ok_0.
  reflexivity.
Qed.


End Border.

(** C2.  In a build whose three image fields fit an [int]
    ([3 * IMGBITS <= 31], as in the stock build): an atom at [(9.5, 0, 0)]
    whose image flags encode [(0, 0, 0)], in an orthogonal box of x-length 10,
    is packed by [pack_border] with the periodic offset [(1, 0, 0)] as the
    position [(19.5, 0, 0)] and the image flags of [(-1, 0, 0)];
    [unpack_border] stores exactly this position and these flags in the
    destination slot, whatever the slot held. *)
Theorem border_round_trip_offset {FS : Type} {lmp : LmpType} (OK : lmptype_ok)
    (FIT : 3 * IMGBITS <= 31) (src dst : Store FS) (j first : nat) (lst : nat -> nat) (buf : buffer)
    (pbc_flag : Z) :
  x src j 0%nat = 9.5%float -> x src j 1%nat = 0%float -> x src j 2%nat = 0%float ->
  image src j = image_encode 0 0 0 ->
  triclinic (domain (cfg src)) = 0 ->
  xprd (domain (cfg src)) = 10%float ->
  double_finite (yprd (domain (cfg src))) = true ->
  double_finite (zprd (domain (cfg src))) = true ->
  lst 0%nat = j -> pbc_flag <> 0 ->
  has_room first dst ->
  let buf' := snd (pack_border 1 lst buf pbc_flag (pbc3 1 0 0) src) in
  (buf' 0%nat = Wdouble 19.5 /\ buf' 1%nat = Wdouble 0 /\ buf' 2%nat = Wdouble 0
   /\ buf' 7%nat = Wtagint (image_encode (-1) 0 0))
  /\ exists dst',
       unpack_border 1 first buf' dst = Ok dst'
       /\ x dst' first 0%nat = 19.5%float
       /\ x dst' first 1%nat = 0%float
       /\ x dst' first 2%nat = 0%float
       /\ image dst' first = image_encode (-1) 0 0.
Proof.
  intros Hx0 Hx1 Hx2 Him Htri Hxp Hyp Hzp Hl Hp [dst1 Hroom] buf'.
  assert (Hw : buf' 0%nat = Wdouble 19.5 /\ buf' 1%nat = Wdouble 0
               /\ buf' 2%nat = Wdouble 0
               /\ buf' 7%nat = Wtagint (image_encode (-1) 0 0)).
  { unfold buf', pack_border. cbn [snd]. unfold blit, border_offset.
    apply Z.eqb_neq in Hp. rewrite Hp, Htri. cbn [Z.eqb].
    cbn [seq flat_map app nth]. rewrite Hl, Hx0, Hx1, Hx2, Him, Hxp.
    rewrite (image_remap_fresh OK FIT). cbn [pbc3 Z.opp].
    rewrite !zero_plus_zero_offset by assumption.
    repeat split. }
  split; [exact Hw|].
  destruct Hw as (W0 & W1 & W2 & W7).
  unfold unpack_border. cbn [for_from]. unfold unpack_border_atom at 1.
  cbn [bind]. rewrite Hroom. cbn [bind].
  match goal with |- context [unpack_border_fixes ?a ?b ?c ?d ?e ?g] =>
    destruct (unpack_border_fixes a b c d e g) as [m fs] end.
  eexists. split; [reflexivity|].
  rewrite W0, W1, W2, W7. store_simpl. cbn [as_double as_tagint].
  repeat split.
Qed.

Lemma border_round_trip_offset_witness :
  let buf' :=
    snd (pack_border (lmp := smallbig) 1 (fun _ => 0%nat) empty_buffer 1
           (pbc3 1 0 0) border_store) in
  (buf' 0%nat = Wdouble 19.5 /\ buf' 1%nat = Wdouble 0 /\ buf' 2%nat = Wdouble 0
   /\ buf' 7%nat = Wtagint (image_encode (lmp := smallbig) (-1) 0 0))
  /\ exists dst',
       unpack_border (lmp := smallbig) 1 2 buf' border_store = Ok dst'
       /\ x dst' 2%nat 0%nat = 19.5%float
       /\ x dst' 2%nat 1%nat = 0%float
       /\ x dst' 2%nat 2%nat = 0%float
       /\ image dst' 2%nat = image_encode (lmp := smallbig) (-1) 0 0.
Proof.
  apply (border_round_trip_offset (lmp := smallbig)) with (j := 0%nat);
    try reflexivity.
  - constructor; reflexivity.
  - simpl; lia.
  - discriminate.
  - exists border_store. reflexivity.
Defined.

(** ** Atoms read from a data file *)

Section DataAtom.
Context {FS : Type} {lmp : LmpType}.
Implicit Types (st : Store FS).

(** Growing changes the capacity and the state of the fixes, nothing else. *)
Lemma grow_if_full_keeps (i : nat) st st1 :
  grow_if_full i st = Ok st1 ->
  cfg st1 = cfg st /\ nlocal st1 = nlocal st /\ ivecs st1 = ivecs st
  /\ iarrs st1 = iarrs st /\ darrs st1 = darrs st.
Proof.
  unfold grow_if_full, grow.
  destruct (Z.of_nat i =? nmax st).
  - destruct (_ || _)%bool; [discriminate|].
    intros He. injection He as <-. repeat split.
  - intros He. injection He as <-. repeat split.
Qed.

End DataAtom.

(** C8.  On a store that can take one more atom, [data_atom] stops with the
    atom-ID error when the parsed tag is not positive, stops with an error when
    the parsed type is outside [1 .. ntypes] (the atom-type error, unless the
    atom-ID error came first), and otherwise appends an owned atom with the tag, the
    molecule id, the type, the coordinates and the image flags of the row,
    mask 1, zero velocity and no bond, angle or dihedral, leaving every other
    slot as it was. *)
Theorem data_atom_checks {FS : Type} {lmp : LmpType} (coord : nat -> double)
    (imagetmp : Z) (values : nat -> string) (st : Store FS) :
  has_room (nlocal st) st ->
  let nl := nlocal st in
  let id := atoi (values 0%nat) in
  let ty := atoi (values 2%nat) in
  (id <= 0 ->
   data_atom coord imagetmp values st
   = Fatal "Invalid atom ID in Atoms section of data file")
  /\ (ty <= 0 \/ ntypes (cfg st) < ty ->
      data_atom coord imagetmp values st
      = Fatal (if id <=? 0
               then "Invalid atom ID in Atoms section of data file"
               else "Invalid atom type in Atoms section of data file"))
  /\ (0 < id -> 1 <= ty <= ntypes (cfg st) ->
      exists st',
        data_atom coord imagetmp values st = Ok st'
        /\ nlocal st' = S nl
        /\ tag st' nl = id
        /\ molecule st' nl = atoi (values 1%nat)
        /\ type st' nl = ty
        /\ x st' nl 0%nat = coord 0%nat
        /\ x st' nl 1%nat = coord 1%nat
        /\ x st' nl 2%nat = coord 2%nat
        /\ image st' nl = imagetmp
        /\ mask st' nl = 1
        /\ v st' nl 0%nat = 0%float
        /\ v st' nl 1%nat = 0%float
        /\ v st' nl 2%nat = 0%float
        /\ num_bond st' nl = 0
        /\ num_angle st' nl = 0
        /\ num_dihedral st' nl = 0
        /\ (forall s, s <> nl -> same_slot st st' s)).
Proof.
  intros [st1 Hroom] nl id ty.
  destruct (grow_if_full_keeps _ _ _ Hroom) as (Hc & Hn & Hi & Ha & Hd).
  subst nl. unfold data_atom. rewrite Hroom. cbn [bind]. store_simpl.
  fold id ty. rewrite Hc.
  split; [|split].
  - intros Hid. apply Z.leb_le in Hid. rewrite Hid. reflexivity.
  - intros Hty.
    destruct (Z.leb_spec id 0); [reflexivity|].
    replace ((ty <=? 0) || (ty >? ntypes (cfg st)))%bool with true; [reflexivity|].
    symmetry. apply orb_true_iff. rewrite Z.leb_le, Z.gtb_ltb, Z.ltb_lt. exact Hty.
  - intros Hid Hty.
    destruct (Z.leb_spec id 0); [lia|].
    replace ((ty <=? 0) || (ty >? ntypes (cfg st)))%bool with false.
    + eexists. split; [reflexivity|]. store_simpl.
      do 15 (split; [reflexivity|]).
      intros s Hs. unfold same_slot. store_simpl. rewrite Hi, Ha, Hd.
      destruct (Nat.eqb_spec (nlocal st) s) as [He|_]; [congruence|].
      repeat split; intros;
        repeat match goal with
               | |- context [ivec_eq_dec ?a ?b] => destruct (ivec_eq_dec a b)
               | |- context [darr_eq_dec ?a ?b] => destruct (darr_eq_dec a b)
               end; reflexivity.
    + symmetry. apply orb_false_iff. rewrite Z.leb_gt, Z.gtb_ltb, Z.ltb_ge. lia.
Qed.

Lemma data_atom_checks_witness :
  let st := border_store in
  let coord := fun _ : nat => 0.5%float in
  let nl := nlocal st in
  let id := atoi (atoms_row 0%nat) in
  let ty := atoi (atoms_row 2%nat) in
  (id <= 0 ->
   data_atom (lmp := smallbig) coord 537395712 atoms_row st
   = Fatal "Invalid atom ID in Atoms section of data file")
  /\ (ty <= 0 \/ ntypes (cfg st) < ty ->
      data_atom (lmp := smallbig) coord 537395712 atoms_row st
      = Fatal (if id <=? 0
               then "Invalid atom ID in Atoms section of data file"
               else "Invalid atom type in Atoms section of data file"))
  /\ (0 < id -> 1 <= ty <= ntypes (cfg st) ->
      exists st',
        data_atom (lmp := smallbig) coord 537395712 atoms_row st = Ok st'
        /\ nlocal st' = S nl
        /\ tag st' nl = id
        /\ molecule st' nl = atoi (atoms_row 1%nat)
        /\ type st' nl = ty
        /\ x st' nl 0%nat = coord 0%nat
        /\ x st' nl 1%nat = coord 1%nat
        /\ x st' nl 2%nat = coord 2%nat
        /\ image st' nl = 537395712
        /\ mask st' nl = 1
        /\ v st' nl 0%nat = 0%float
        /\ v st' nl 1%nat = 0%float
        /\ v st' nl 2%nat = 0%float
        /\ num_bond st' nl = 0
        /\ num_angle st' nl = 0
        /\ num_dihedral st' nl = 0
        /\ (forall s, s <> nl -> same_slot st st' s)).
Proof.
  apply (data_atom_checks (lmp := smallbig) (fun _ : nat => 0.5%float)
           537395712 atoms_row border_store).
  exists border_store. reflexivity.
Defined.

(** ** Loops that unpack rows *)

Section Rows.
Context {FS : Type} {lmp : LmpType}.
Variables (nl : nat) (buf : buffer).
Implicit Types (st : Store FS) (cols : list col).

Lemma col_index_absent (c : col) cols : ~ In c cols -> col_index c cols = None.
Proof.
  induction cols as [|d cols IH]; intros Hn; [reflexivity|].
  cbn [col_index]. destruct (col_eq_dec d c) as [->|_].
  - exfalso. apply Hn. left. reflexivity.
  - rewrite IH; [reflexivity|]. intros Hi. apply Hn. right. exact Hi.
Qed.

Lemma row_cursor (k : nat) cols :
  forall (m : nat) st,
    fst (fold_left (row_step nl k buf) cols (m, st)) = (m + length cols)%nat.
Proof.
  induction cols as [|c cols IH]; intros m st; cbn [fold_left length].
  - cbn [fst]. lia.
  - destruct c; cbn [row_step fst snd]; rewrite IH; lia.
Qed.

Lemma row_scalars (k : nat) cols :
  forall (m : nat) st,
    let st' := snd (fold_left (row_step nl k buf) cols (m, st)) in
    cfg st' = cfg st /\ nmax st' = nmax st /\ nlocal st' = nlocal st
    /\ fixes st' = fixes st /\ ivecs st' = ivecs st.
Proof.
  induction cols as [|c cols IH]; intros m st; cbn [fold_left].
  - cbn [snd]. repeat split.
  - destruct c as [a|a]; cbn [row_step fst snd].
    + destruct (IH (S m) (set_iarr a nl k (as_int (buf m)) st))
        as (H1 & H2 & H3 & H4 & H5).
      cbv zeta. rewrite H1, H2, H3, H4, H5. repeat split.
    + destruct (IH (S m) (set_darr a nl k (as_double (buf m)) st))
        as (H1 & H2 & H3 & H4 & H5).
      cbv zeta. rewrite H1, H2, H3, H4, H5. repeat split.
Qed.

Lemma row_iarrs (k : nat) cols :
  NoDup cols ->
  forall (m : nat) st (a : iarr) (s l : nat),
    iarrs (snd (fold_left (row_step nl k buf) cols (m, st))) a s l
    = match col_index (CI a) cols with
      | Some c =>
          if (Nat.eqb s nl && Nat.eqb l k)%bool
          then as_int (buf (m + c)%nat) else iarrs st a s l
      | None => iarrs st a s l
      end.
Proof.
  induction 1 as [|c cols Hn Hd IH]; intros m st a s l; [reflexivity|].
  cbn [fold_left col_index].
  destruct (row_step nl k buf (m, st) c) as [m1 st1] eqn:E. rewrite IH.
  assert (Hm : m1 = S m) by (destruct c; injection E as <- _; reflexivity).
  subst m1.
  destruct (col_eq_dec c (CI a)) as [->|Hne].
  - rewrite (col_index_absent _ _ Hn). cbn [row_step fst snd] in E.
    injection E as <-. cbn [set_iarr iarrs].
    rewrite iarr_eq_dec_refl, Nat.add_0_r, (Nat.eqb_sym nl s), (Nat.eqb_sym k l).
    reflexivity.
  - assert (Hs : iarrs st1 a s l = iarrs st a s l).
    { destruct c as [b|b]; cbn [row_step fst snd] in E; injection E as <-;
        cbn [set_iarr set_darr iarrs]; [|reflexivity].
      rewrite iarr_eq_dec_neq by congruence. reflexivity. }
    rewrite Hs.
    destruct (col_index (CI a) cols) as [i|]; cbn [option_map]; [|reflexivity].
    rewrite Nat.add_succ_comm. reflexivity.
Qed.

Lemma row_darrs (k : nat) cols :
  NoDup cols ->
  forall (m : nat) st (a : darr) (s l : nat),
    darrs (snd (fold_left (row_step nl k buf) cols (m, st))) a s l
    = match col_index (CD a) cols with
      | Some c =>
          if (Nat.eqb s nl && Nat.eqb l k)%bool
          then as_double (buf (m + c)%nat) else darrs st a s l
      | None => darrs st a s l
      end.
Proof.
  induction 1 as [|c cols Hn Hd IH]; intros m st a s l; [reflexivity|].
  cbn [fold_left col_index].
  destruct (row_step nl k buf (m, st) c) as [m1 st1] eqn:E. rewrite IH.
  assert (Hm : m1 = S m) by (destruct c; injection E as <- _; reflexivity).
  subst m1.
  destruct (col_eq_dec c (CD a)) as [->|Hne].
  - rewrite (col_index_absent _ _ Hn). cbn [row_step fst snd] in E.
    injection E as <-. cbn [set_darr darrs].
    rewrite darr_eq_dec_refl, Nat.add_0_r, (Nat.eqb_sym nl s), (Nat.eqb_sym k l).
    reflexivity.
  - assert (Hs : darrs st1 a s l = darrs st a s l).
    { destruct c as [b|b]; cbn [row_step fst snd] in E; injection E as <-;
        cbn [set_iarr set_darr darrs]; [reflexivity|].
      rewrite darr_eq_dec_neq by congruence. reflexivity. }
    rewrite Hs.
    destruct (col_index (CD a) cols) as [i|]; cbn [option_map]; [|reflexivity].
    rewrite Nat.add_succ_comm. reflexivity.
Qed.

(** The whole loop. *)
Lemma rows_cursor cols (n : nat) :
  forall (k0 m : nat) st,
    fst (for_from k0 n (row_body cols nl buf) (m, st))
    = (m + n * length cols)%nat.
Proof.
  induction n as [|n IH]; intros k0 m st; cbn [for_from].
  - cbn [fst]. lia.
  - change (row_body cols nl buf k0 (m, st))
      with (fold_left (row_step nl k0 buf) cols (m, st)).
    destruct (fold_left (row_step nl k0 buf) cols (m, st)) as [m1 st1] eqn:E.
    rewrite IH. pose proof (row_cursor k0 cols m st) as Hc.
    rewrite E in Hc. cbn [fst] in Hc. lia.
Qed.

Lemma rows_scalars cols (n : nat) :
  forall (k0 m : nat) st,
    let st' := snd (for_from k0 n (row_body cols nl buf) (m, st)) in
    cfg st' = cfg st /\ nmax st' = nmax st /\ nlocal st' = nlocal st
    /\ fixes st' = fixes st /\ ivecs st' = ivecs st.
Proof.
  induction n as [|n IH]; intros k0 m st; cbv zeta; cbn [for_from].
  - cbn [snd]. repeat split.
  - change (row_body cols nl buf k0 (m, st))
      with (fold_left (row_step nl k0 buf) cols (m, st)).
    destruct (fold_left (row_step nl k0 buf) cols (m, st)) as [m1 st1] eqn:E.
    pose proof (row_scalars k0 cols m st) as Hs. rewrite E in Hs.
    cbn [snd] in Hs. destruct Hs as (H1 & H2 & H3 & H4 & H5).
    destruct (IH (S k0) m1 st1) as (I1 & I2 & I3 & I4 & I5).
    rewrite I1, I2, I3, I4, I5. repeat split; assumption.
Qed.

Lemma rows_iarrs cols (n : nat) :
  NoDup cols ->
  forall (k0 m : nat) st (a : iarr) (s l : nat),
    iarrs (snd (for_from k0 n (row_body cols nl buf) (m, st))) a s l
    = match col_index (CI a) cols with
      | Some c =>
          if (Nat.eqb s nl && Nat.leb k0 l && Nat.ltb l (k0 + n))%bool
          then as_int (buf (m + (l - k0) * length cols + c)%nat)
          else iarrs st a s l
      | None => iarrs st a s l
      end.
Proof.
  intros Hd. induction n as [|n IH]; intros k0 m st a s l; cbn [for_from].
  - cbn [snd]. destruct (col_index (CI a) cols); [|reflexivity].
    replace (Nat.ltb l (k0 + 0)) with (Nat.ltb l k0) by (f_equal; lia).
    destruct (Nat.leb_spec k0 l), (Nat.ltb_spec l k0); try lia;
      rewrite ?andb_false_r; reflexivity.
  - change (row_body cols nl buf k0 (m, st))
      with (fold_left (row_step nl k0 buf) cols (m, st)).
    destruct (fold_left (row_step nl k0 buf) cols (m, st)) as [m1 st1] eqn:E.
    rewrite IH.
    pose proof (row_iarrs k0 cols Hd m st a s l) as Hr.
    pose proof (row_cursor k0 cols m st) as Hc.
    rewrite E in Hr, Hc. cbn [fst snd] in Hr, Hc. rewrite Hr. subst m1.
    destruct (col_index (CI a) cols) as [c|]; [|reflexivity].
    destruct (Nat.eqb s nl); cbn [andb]; [|reflexivity].
    destruct (Nat.leb_spec (S k0) l), (Nat.ltb_spec l (S k0 + n)),
      (Nat.leb_spec k0 l), (Nat.ltb_spec l (k0 + S n)), (Nat.eqb_spec l k0);
      try lia; cbn [andb]; try reflexivity.
    + f_equal. f_equal. nia.
    + subst l. f_equal. f_equal. lia.
Qed.

Lemma rows_darrs cols (n : nat) :
  NoDup cols ->
  forall (k0 m : nat) st (a : darr) (s l : nat),
    darrs (snd (for_from k0 n (row_body cols nl buf) (m, st))) a s l
    = match col_index (CD a) cols with
      | Some c =>
          if (Nat.eqb s nl && Nat.leb k0 l && Nat.ltb l (k0 + n))%bool
          then as_double (buf (m + (l - k0) * length cols + c)%nat)
          else darrs st a s l
      | None => darrs st a s l
      end.
Proof.
  intros Hd. induction n as [|n IH]; intros k0 m st a s l; cbn [for_from].
  - cbn [snd]. destruct (col_index (CD a) cols); [|reflexivity].
    replace (Nat.ltb l (k0 + 0)) with (Nat.ltb l k0) by (f_equal; lia).
    destruct (Nat.leb_spec k0 l), (Nat.ltb_spec l k0); try lia;
      rewrite ?andb_false_r; reflexivity.
  - change (row_body cols nl buf k0 (m, st))
      with (fold_left (row_step nl k0 buf) cols (m, st)).
    destruct (fold_left (row_step nl k0 buf) cols (m, st)) as [m1 st1] eqn:E.
    rewrite IH.
    pose proof (row_darrs k0 cols Hd m st a s l) as Hr.
    pose proof (row_cursor k0 cols m st) as Hc.
    rewrite E in Hr, Hc. cbn [fst snd] in Hr, Hc. rewrite Hr. subst m1.
    destruct (col_index (CD a) cols) as [c|]; [|reflexivity].
    destruct (Nat.eqb s nl); cbn [andb]; [|reflexivity].
    destruct (Nat.leb_spec (S k0) l), (Nat.ltb_spec l (S k0 + n)),
      (Nat.leb_spec k0 l), (Nat.ltb_spec l (k0 + S n)), (Nat.eqb_spec l k0);
      try lia; cbn [andb]; try reflexivity.
    + f_equal. f_equal. nia.
    + subst l. f_equal. f_equal. lia.
Qed.

End Rows.

(** ** Migration: the record and its round trip *)

Lemma nth_map_seq {A : Type} (g : nat -> A) (n k : nat) (rest : list A) (d : A) :
  (k < n)%nat -> nth k (map g (seq 0 n) ++ rest) d = g k.
Proof.
  intros Hk. rewrite app_nth1 by (rewrite length_map, length_seq; exact Hk).
  rewrite (nth_indep _ d (g 0%nat)) by (rewrite length_map, length_seq; exact Hk).
  rewrite map_nth, seq_nth by exact Hk. reflexivity.
Qed.

Lemma nth_after_map_seq {A : Type} (g : nat -> A) (n j : nat) (rest : list A)
    (d : A) :
  nth (n + j) (map g (seq 0 n) ++ rest) d = nth j rest d.
Proof.
  rewrite app_nth2 by (rewrite length_map, length_seq; lia).
  rewrite length_map, length_seq. f_equal. lia.
Qed.

Section ExchangeRecord.
Context {FS : Type}.
Implicit Types (st : Store FS) (buf : buffer).

(** Steps over a list of rows, or over the special neighbours, in a word
    index. *)
Ltac over_rows w :=
  rewrite (nth_after_rows _ w) by reflexivity; cbn [Nat.add nth app].

Ltac in_rows w :=
  rewrite (nth_rows _ w) by (reflexivity || assumption || lia);
  cbn [Nat.add nth app].

Lemma pack_exchange_count i buf st :
  fst (pack_exchange i buf st)
  = (exchange_fixes_at (rounds (num_bond st i)) (rounds (num_angle st i))
       (rounds (num_dihedral st i)) (rounds (nspecial st i 2%nat))
     + length (flat_map (fun fx => fix_pack_exchange fx i (fixes st))
                        (extra_grow (cfg st))))%nat.
Proof.
  unfold pack_exchange, exchange_fixes_at. cbn [fst].
  rewrite length_app. cbn [length].
  rewrite length_app, (length_rows _ 3) by reflexivity. cbn [length].
  rewrite length_app, (length_rows _ 5) by reflexivity. cbn [length].
  rewrite length_app, (length_rows _ 5) by reflexivity.
  rewrite length_app. cbn [length].
  rewrite length_app, length_map, length_seq. lia.
Qed.

Lemma pack_exchange_word0 i buf st :
  snd (pack_exchange i buf st) 0%nat
  = Wint (Z.of_nat (fst (pack_exchange i buf st))).
Proof. reflexivity. Qed.

Lemma pack_exchange_ivec i buf st (a : ivec) :
  snd (pack_exchange i buf st)
      (exchange_ivec_at (rounds (num_bond st i)) (rounds (num_angle st i)) a)
  = ivec_word a (ivecs st a i).
Proof.
  unfold pack_exchange. cbn [snd]. unfold blit.
  destruct a; cbn [exchange_ivec_at ivec_word]; try reflexivity.
  - replace (13 + 3 * rounds (num_bond st i))%nat
      with (13 + (rounds (num_bond st i) * 3 + 0))%nat by lia.
    cbn [Nat.add nth app]. over_rows 3%nat. reflexivity.
  - replace (14 + 3 * rounds (num_bond st i) + 5 * rounds (num_angle st i))%nat
      with (13 + (rounds (num_bond st i) * 3
                  + (1 + (rounds (num_angle st i) * 5 + 0))))%nat by lia.
    cbn [Nat.add nth app]. over_rows 3%nat. over_rows 5%nat. reflexivity.
Qed.

Lemma pack_exchange_iarr i buf st (a : iarr) (k : nat) :
  (k < atom_rows_i st i a)%nat ->
  snd (pack_exchange i buf st)
      (exchange_iarr_at (rounds (num_bond st i)) (rounds (num_angle st i))
         (rounds (num_dihedral st i)) a k)
  = Wint (iarrs st a i k).
Proof.
  intros Hk. unfold pack_exchange. cbn [snd]. unfold blit.
  set (nb := rounds (num_bond st i)). set (na := rounds (num_angle st i)).
  set (nd := rounds (num_dihedral st i)).
  destruct a; unfold atom_rows_i in Hk; cbn [exchange_iarr_at count_rows_i] in *.
  - (* nspecial *)
    replace (15 + 3 * nb + 5 * na + 5 * nd + k)%nat
      with (13 + (nb * 3 + (1 + (na * 5 + (1 + (nd * 5 + k))))))%nat by lia.
    cbn [Nat.add nth app]. over_rows 3%nat. over_rows 5%nat. over_rows 5%nat.
    destruct k as [|[|[|k]]]; [reflexivity..|lia].
  - (* special *)
    replace (18 + 3 * nb + 5 * na + 5 * nd + k)%nat
      with (13 + (nb * 3 + (1 + (na * 5 + (1 + (nd * 5 + (3 + k)))))))%nat by lia.
    cbn [Nat.add nth app]. over_rows 3%nat. over_rows 5%nat. over_rows 5%nat.
    rewrite nth_map_seq by exact Hk. reflexivity.
  - replace (13 + 3 * k)%nat with (13 + (k * 3 + 0))%nat by lia.
    cbn [Nat.add nth app]. in_rows 3%nat. reflexivity.
  - replace (13 + 3 * k + 1)%nat with (13 + (k * 3 + 1))%nat by lia.
    cbn [Nat.add nth app]. in_rows 3%nat. reflexivity.
  - replace (14 + 3 * nb + 5 * k)%nat
      with (13 + (nb * 3 + (1 + (k * 5 + 0))))%nat by lia.
    cbn [Nat.add nth app]. over_rows 3%nat. in_rows 5%nat. reflexivity.
  - replace (14 + 3 * nb + 5 * k + 1)%nat
      with (13 + (nb * 3 + (1 + (k * 5 + 1))))%nat by lia.
    cbn [Nat.add nth app]. over_rows 3%nat. in_rows 5%nat. reflexivity.
  - replace (14 + 3 * nb + 5 * k + 2)%nat
      with (13 + (nb * 3 + (1 + (k * 5 + 2))))%nat by lia.
    cbn [Nat.add nth app]. over_rows 3%nat. in_rows 5%nat. reflexivity.
  - replace (14 + 3 * nb + 5 * k + 3)%nat
      with (13 + (nb * 3 + (1 + (k * 5 + 3))))%nat by lia.
    cbn [Nat.add nth app]. over_rows 3%nat. in_rows 5%nat. reflexivity.
  - replace (15 + 3 * nb + 5 * na + 5 * k)%nat
      with (13 + (nb * 3 + (1 + (na * 5 + (1 + (k * 5 + 0))))))%nat by lia.
    cbn [Nat.add nth app]. over_rows 3%nat. over_rows 5%nat. in_rows 5%nat.
    reflexivity.
  - replace (15 + 3 * nb + 5 * na + 5 * k + 1)%nat
      with (13 + (nb * 3 + (1 + (na * 5 + (1 + (k * 5 + 1))))))%nat by lia.
    cbn [Nat.add nth app]. over_rows 3%nat. over_rows 5%nat. in_rows 5%nat.
    reflexivity.
  - replace (15 + 3 * nb + 5 * na + 5 * k + 2)%nat
      with (13 + (nb * 3 + (1 + (na * 5 + (1 + (k * 5 + 2))))))%nat by lia.
    cbn [Nat.add nth app]. over_rows 3%nat. over_rows 5%nat. in_rows 5%nat.
    reflexivity.
  - replace (15 + 3 * nb + 5 * na + 5 * k + 3)%nat
      with (13 + (nb * 3 + (1 + (na * 5 + (1 + (k * 5 + 3))))))%nat by lia.
    cbn [Nat.add nth app]. over_rows 3%nat. over_rows 5%nat. in_rows 5%nat.
    reflexivity.
  - replace (15 + 3 * nb + 5 * na + 5 * k + 4)%nat
      with (13 + (nb * 3 + (1 + (na * 5 + (1 + (k * 5 + 4))))))%nat by lia.
    cbn [Nat.add nth app]. over_rows 3%nat. over_rows 5%nat. in_rows 5%nat.
    reflexivity.
Qed.

Lemma pack_exchange_darr i buf st (a : darr) (k : nat) :
  (k < atom_rows_d st i a)%nat ->
  snd (pack_exchange i buf st)
      (exchange_darr_at (rounds (num_bond st i)) a k)
  = Wdouble (darrs st a i k).
Proof.
  intros Hk. unfold pack_exchange. cbn [snd]. unfold blit.
  set (nb := rounds (num_bond st i)).
  destruct a; unfold atom_rows_d in Hk; cbn [exchange_darr_at count_rows_d] in *.
  - destruct k as [|[|[|k]]]; [reflexivity..|lia].
  - destruct k as [|[|[|k]]]; [reflexivity..|lia].
  - lia.
  - replace (13 + 3 * k + 2)%nat with (13 + (k * 3 + 2))%nat by lia.
    cbn [Nat.add nth app]. in_rows 3%nat. reflexivity.
  - replace (14 + 3 * nb + 5 * k + 4)%nat
      with (13 + (nb * 3 + (1 + (k * 5 + 4))))%nat by lia.
    cbn [Nat.add nth app]. over_rows 3%nat. in_rows 5%nat. reflexivity.
Qed.

Lemma pack_exchange_fix_words i buf st :
  starts_with
    (advance (exchange_fixes_at (rounds (num_bond st i)) (rounds (num_angle st i))
                (rounds (num_dihedral st i)) (rounds (nspecial st i 2%nat)))
             (snd (pack_exchange i buf st)))
    (flat_map (fun fx => fix_pack_exchange fx i (fixes st)) (extra_grow (cfg st))).
Proof.
  intros k w Hk. unfold advance, pack_exchange, exchange_fixes_at. cbn [snd].
  unfold blit.
  set (nb := rounds (num_bond st i)). set (na := rounds (num_angle st i)).
  set (nd := rounds (num_dihedral st i)).
  set (ns := rounds (nspecial st i 2%nat)).
  replace (18 + 3 * nb + 5 * na + 5 * nd + ns + k)%nat
    with (13 + (nb * 3 + (1 + (na * 5 + (1 + (nd * 5 + (3 + (ns + k))))))))%nat
    by lia.
  cbn [Nat.add nth app]. over_rows 3%nat. over_rows 5%nat. over_rows 5%nat.
  rewrite nth_after_map_seq. apply nth_error_nth. exact Hk.
Qed.

End ExchangeRecord.

Section ExchangeUnpack.
Context {FS : Type} {lmp : LmpType}.
Implicit Types (st : Store FS) (buf : buffer).

Lemma NoDup_bond_cols : NoDup bond_cols.
Proof. repeat constructor; simpl; intuition discriminate. Qed.
Lemma NoDup_angle_cols : NoDup angle_cols.
Proof. repeat constructor; simpl; intuition discriminate. Qed.
Lemma NoDup_dihedral_cols : NoDup dihedral_cols.
Proof. repeat constructor; simpl; intuition discriminate. Qed.
Lemma NoDup_special_cols : NoDup special_cols.
Proof. repeat constructor; simpl; intuition discriminate. Qed.

(** Each loop of [unpack_exchange] is a loop over rows. *)
Lemma for_bond_rows (nl : nat) buf (n : nat) (p : nat * Store FS) :
  for_ n (unpack_exchange_bond nl buf) p = for_from 0 n (row_body bond_cols nl buf) p.
Proof. apply for_from_ext. intros k [m s]. reflexivity. Qed.

Lemma for_angle_rows (nl : nat) buf (n : nat) (p : nat * Store FS) :
  for_ n (unpack_exchange_angle nl buf) p
  = for_from 0 n (row_body angle_cols nl buf) p.
Proof. apply for_from_ext. intros k [m s]. reflexivity. Qed.

Lemma for_dihedral_rows (nl : nat) buf (n : nat) (p : nat * Store FS) :
  for_ n (unpack_exchange_dihedral nl buf) p
  = for_from 0 n (row_body dihedral_cols nl buf) p.
Proof. apply for_from_ext. intros k [m s]. reflexivity. Qed.

Lemma for_special_rows (nl : nat) buf (n : nat) (p : nat * Store FS) :
  for_ n (unpack_exchange_special nl buf) p
  = for_from 0 n (row_body special_cols nl buf) p.
Proof. apply for_from_ext. intros k [m s]. reflexivity. Qed.

(** What a loop over rows yields, in one statement. *)
Lemma rows_loop (nl : nat) buf cols (n m : nat) st :
  NoDup cols ->
  exists st',
    for_from 0 n (row_body cols nl buf) (m, st) = ((m + n * length cols)%nat, st')
    /\ cfg st' = cfg st /\ nlocal st' = nlocal st /\ fixes st' = fixes st
    /\ ivecs st' = ivecs st
    /\ (forall a s l,
          iarrs st' a s l
          = match col_index (CI a) cols with
            | Some c =>
                if (Nat.eqb s nl && Nat.ltb l n)%bool
                then as_int (buf (m + l * length cols + c)%nat)
                else iarrs st a s l
            | None => iarrs st a s l
            end)
    /\ (forall a s l,
          darrs st' a s l
          = match col_index (CD a) cols with
            | Some c =>
                if (Nat.eqb s nl && Nat.ltb l n)%bool
                then as_double (buf (m + l * length cols + c)%nat)
                else darrs st a s l
            | None => darrs st a s l
            end).
Proof.
  intros Hd.
  destruct (for_from 0 n (row_body cols nl buf) (m, st)) as [m' st'] eqn:E.
  exists st'.
  pose proof (rows_cursor nl buf cols n 0 m st) as Hc.
  pose proof (rows_scalars nl buf cols n 0 m st) as Hs.
  pose proof (rows_iarrs nl buf cols n Hd 0 m st) as Hi.
  pose proof (rows_darrs nl buf cols n Hd 0 m st) as Hf.
  rewrite E in Hc, Hs, Hi, Hf. cbn [fst snd] in Hc, Hs, Hi, Hf.
  destruct Hs as (H1 & H2 & H3 & H4 & H5). subst m'.
  repeat split; try assumption.
  - intros a s l. rewrite Hi. cbn [Nat.leb Nat.add]. rewrite andb_true_r, Nat.sub_0_r.
    reflexivity.
  - intros a s l. rewrite Hf. cbn [Nat.leb Nat.add]. rewrite andb_true_r, Nat.sub_0_r.
    reflexivity.
Qed.


(** Follows a read of the final store back through the loops and the
    assignments to the word it came from. *)
Ltac walk :=
  repeat first
    [ progress store_simpl
    | match goal with
      | H : forall a s l, iarrs ?S a s l = _ |- context [iarrs ?S _ _ _] =>
          rewrite H
      | H : forall a s l, darrs ?S a s l = _ |- context [darrs ?S _ _ _] =>
          rewrite H
      | H : ivecs ?S = _ |- context [ivecs ?S] => rewrite H
      | P := _ : Store _ |- _ => progress unfold P
      end
    | progress simpl (col_index _ _) ].

Lemma unpack_exchange_reads buf st st1 (nb na nd ns : nat) :
  grow_if_full (nlocal st) st = Ok st1 ->
  rounds (as_int (buf 12%nat)) = nb ->
  rounds (as_int (buf (13 + 3 * nb)%nat)) = na ->
  rounds (as_int (buf (14 + 3 * nb + 5 * na)%nat)) = nd ->
  rounds (as_int (buf (17 + 3 * nb + 5 * na + 5 * nd)%nat)) = ns ->
  let nl := nlocal st in
  exists st',
    unpack_exchange buf st
    = Ok (fst (unpack_exchange_fixes nl buf (exchange_fixes_at nb na nd ns)
                 (extra_grow (cfg st)) (fixes st1)), st')
    /\ nlocal st' = S nl
    /\ (forall a, ivecs st' a nl = ivec_read a (buf (exchange_ivec_at nb na a)))
    /\ (forall a k, (k < count_rows_i nb na nd ns a)%nat ->
          iarrs st' a nl k = as_int (buf (exchange_iarr_at nb na nd a k)))
    /\ (forall a k, (k < count_rows_d nb na a)%nat ->
          darrs st' a nl k = as_double (buf (exchange_darr_at nb a k)))
    /\ (forall s, s <> nl -> same_slot st st' s).
Proof.
  intros Hroom Hnb Hna Hnd Hns nl. subst nl.
  destruct (grow_if_full_keeps _ _ _ Hroom) as (Gc & Gn & Gi & Ga & Gd).
  unfold unpack_exchange. rewrite Hroom. cbn [bind].
  set (nl := nlocal st).
  (* the fixed fields and the bonds *)
  match goal with
  | |- context [for_ _ (unpack_exchange_bond nl buf) (13%nat, ?h)] => set (P1 := h)
  end.
  assert (B1 : num_bond P1 nl = as_int (buf 12%nat))
    by (unfold P1; store_simpl; reflexivity).
  rewrite B1, Hnb, for_bond_rows.
  destruct (rows_loop nl buf bond_cols nb 13 P1 NoDup_bond_cols)
    as (S1 & E1 & C1 & L1 & X1 & V1 & I1 & D1).
  rewrite E1. cbn [length bond_cols] in *.
  replace (13 + nb * 3)%nat with (13 + 3 * nb)%nat in * by lia.
  (* the angles *)
  match goal with
  | |- context [for_ _ (unpack_exchange_angle nl buf) (_, ?h)] => set (P2 := h)
  end.
  assert (B2 : num_angle P2 nl = as_int (buf (13 + 3 * nb)%nat))
    by (unfold P2; store_simpl; reflexivity).
  rewrite B2, Hna, for_angle_rows.
  destruct (rows_loop nl buf angle_cols na (S (13 + 3 * nb)) P2 NoDup_angle_cols)
    as (S2 & E2 & C2 & L2 & X2 & V2 & I2 & D2).
  rewrite E2. cbn [length angle_cols] in *.
  replace (S (13 + 3 * nb) + na * 5)%nat with (14 + 3 * nb + 5 * na)%nat in * by lia.
  (* the dihedrals *)
  match goal with
  | |- context [for_ _ (unpack_exchange_dihedral nl buf) (_, ?h)] => set (P3 := h)
  end.
  assert (B3 : num_dihedral P3 nl = as_int (buf (14 + 3 * nb + 5 * na)%nat))
    by (unfold P3; store_simpl; reflexivity).
  rewrite B3, Hnd, for_dihedral_rows.
  destruct (rows_loop nl buf dihedral_cols nd (S (14 + 3 * nb + 5 * na)) P3
              NoDup_dihedral_cols)
    as (S3 & E3 & C3 & L3 & X3 & V3 & I3 & D3).
  rewrite E3. cbn [length dihedral_cols] in *.
  replace (S (14 + 3 * nb + 5 * na) + nd * 5)%nat
    with (15 + 3 * nb + 5 * na + 5 * nd)%nat in * by lia.
  (* the special neighbours *)
  match goal with
  | |- context [for_ _ (unpack_exchange_special nl buf) (_, ?h)] => set (P4 := h)
  end.
  assert (B4 : nspecial P4 nl 2%nat
               = as_int (buf (17 + 3 * nb + 5 * na + 5 * nd)%nat)).
  { unfold P4. store_simpl. try reflexivity; f_equal; f_equal; lia. }
  rewrite B4, Hns, for_special_rows.
  destruct (rows_loop nl buf special_cols ns
              (S (S (S (15 + 3 * nb + 5 * na + 5 * nd)))) P4 NoDup_special_cols)
    as (S4 & E4 & C4 & L4 & X4 & V4 & I4 & D4).
  rewrite E4. cbn [length special_cols] in *.
  replace (S (S (S (15 + 3 * nb + 5 * na + 5 * nd))) + ns * 1)%nat
    with (exchange_fixes_at nb na nd ns) by (unfold exchange_fixes_at; lia).
  assert (Hcfg : cfg S4 = cfg st).
  { rewrite C4. unfold P4. store_simpl. rewrite C3. unfold P3. store_simpl.
    rewrite C2. unfold P2. store_simpl. rewrite C1. unfold P1. store_simpl.
    exact Gc. }
  assert (Hfix : fixes S4 = fixes st1).
  { rewrite X4. unfold P4. store_simpl. rewrite X3. unfold P3. store_simpl.
    rewrite X2. unfold P2. store_simpl. rewrite X1. unfold P1. store_simpl.
    reflexivity. }
  rewrite Hcfg, Hfix.
  destruct (unpack_exchange_fixes nl buf (exchange_fixes_at nb na nd ns)
              (extra_grow (cfg st)) (fixes st1)) as [m5 fs].
  eexists. split; [reflexivity|]. cbn [fst].
  split; [reflexivity|].
  pose proof I as walk_marker.
  split; [|split; [|split]].
  - intros a. destruct a; walk; reflexivity.
  - intros a k Hk. apply Nat.ltb_lt in Hk.
    destruct a; cbn [count_rows_i exchange_iarr_at] in Hk |- *;
      try (walk; rewrite Hk; walk; try reflexivity; f_equal; f_equal; lia).
    apply Nat.ltb_lt in Hk.
    destruct k as [|[|[|k]]]; [| | |lia]; walk; try reflexivity;
      f_equal; f_equal; lia.
  - intros a k Hk. apply Nat.ltb_lt in Hk.
    destruct a; cbn [count_rows_d exchange_darr_at] in Hk |- *;
      try (walk; rewrite Hk; walk; try reflexivity; f_equal; f_equal; lia);
      apply Nat.ltb_lt in Hk; try lia;
      (destruct k as [|[|[|k]]]; [| | |lia]); walk; reflexivity.
  - intros s Hs.
    assert (Hs1 : Nat.eqb s nl = false) by (apply Nat.eqb_neq; exact Hs).
    assert (Hs2 : Nat.eqb nl s = false) by (apply Nat.eqb_neq; congruence).
    unfold same_slot. repeat split; intros a; intros;
      destruct a; repeat (walk; rewrite ?Hs1, ?Hs2);
      rewrite ?Gi, ?Ga, ?Gd; reflexivity.
Qed.

(** The fixes consume what the fixes packed. *)
Lemma starts_with_app (b : buffer) (l1 l2 : list word) :
  starts_with b (l1 ++ l2) ->
  starts_with b l1 /\ starts_with (advance (length l1) b) l2.
Proof.
  intros Hs. split.
  - intros k w Hk. apply Hs. rewrite nth_error_app1; [exact Hk|].
    apply nth_error_Some. congruence.
  - intros k w Hk. unfold advance. apply Hs.
    rewrite nth_error_app2 by lia.
    replace (length l1 + k - length l1)%nat with k by lia. exact Hk.
Qed.

Lemma unpack_exchange_fixes_count (nl i : nat) buf (fs : FS) (fxs : list (Fix FS)) :
  Forall fix_exchange_coherent fxs ->
  forall (m : nat) (fs' : FS),
    starts_with (advance m buf)
                (flat_map (fun fx => fix_pack_exchange fx i fs) fxs) ->
    fst (unpack_exchange_fixes nl buf m fxs fs')
    = (m + length (flat_map (fun fx => fix_pack_exchange fx i fs) fxs))%nat.
Proof.
  unfold unpack_exchange_fixes.
  induction 1 as [|fx fxs Hfx Hall IH]; intros m fs' Hs; cbn [fold_left flat_map].
  - cbn [fst length]. lia.
  - cbn [flat_map] in Hs. apply starts_with_app in Hs. destruct Hs as [Hs1 Hs2].
    pose proof (Hfx i nl fs fs' (advance m buf) Hs1) as Hc.
    destruct (fix_unpack_exchange fx nl (advance m buf) fs') as [c fs2].
    cbn [fst] in Hc. subst c.
    rewrite IH.
    + rewrite length_app. lia.
    + intros k w Hk. specialize (Hs2 k w Hk). unfold advance in *.
      rewrite <- Hs2. f_equal. lia.
Qed.

Lemma as_int_Wint (z : Z) : int_range z -> as_int (Wint z) = z.
Proof. intros Hz. unfold as_int, Wint. cbn [as_double]. apply int_of_double_of_int, Hz. Qed.

Lemma ivec_read_word (a : ivec) (z : Z) :
  (a <> a_image -> int_range z) -> ivec_read a (ivec_word a z) = z.
Proof.
  intros Hz. destruct a; cbn [ivec_read ivec_word as_tagint];
    try reflexivity; apply as_int_Wint, Hz; discriminate.
Qed.

End ExchangeUnpack.

(** C5.  For any slot [i] whose integers are [int]s, on a store that can take
    one more atom and whose fixes consume what they pack: the record
    [pack_exchange(i)] writes has its own length in word 0, the length
    [pack_exchange] returns; [unpack_exchange] on that buffer returns the same
    length and appends an owned atom that has slot [i]'s position, velocity,
    tag, type, mask, image flags, molecule id, counts, topology entries,
    special-neighbour counts and special neighbours, and leaves the other
    slots as they were. *)
Theorem exchange_round_trip {FS : Type} {lmp : LmpType} (st : Store FS) (i : nat)
    (buf : buffer) :
  slot_ints st i ->
  has_room (nlocal st) st ->
  Forall fix_exchange_coherent (extra_grow (cfg st)) ->
  let m := fst (pack_exchange i buf st) in
  let buf' := snd (pack_exchange i buf st) in
  buf' 0%nat = Wint (Z.of_nat m)
  /\ exists st',
       unpack_exchange buf' st = Ok (m, st')
       /\ nlocal st' = S (nlocal st)
       /\ same_atom st i st' (nlocal st)
       /\ (forall s, s <> nlocal st -> same_slot st st' s).
Proof.
  intros [Hiv Hia] [st1 Hroom] Hfix m buf'.
  split; [reflexivity|].
  set (nb := rounds (num_bond st i)). set (na := rounds (num_angle st i)).
  set (nd := rounds (num_dihedral st i)). set (ns := rounds (nspecial st i 2%nat)).
  pose proof (pack_exchange_ivec i buf st) as Wv.
  pose proof (pack_exchange_iarr i buf st) as Wi.
  pose proof (pack_exchange_darr i buf st) as Wd.
  fold nb na nd buf' in Wv, Wi, Wd. unfold atom_rows_i, atom_rows_d in Wi, Wd.
  fold nb na nd ns in Wi, Wd.
  assert (Rv : forall a, ivec_read a (buf' (exchange_ivec_at nb na a)) = ivecs st a i).
  { intros a. rewrite Wv. apply ivec_read_word. apply Hiv. }
  assert (Ri : forall a k, (k < count_rows_i nb na nd ns a)%nat ->
             as_int (buf' (exchange_iarr_at nb na nd a k)) = iarrs st a i k).
  { intros a k Hk. rewrite Wi by exact Hk. apply as_int_Wint. apply Hia. exact Hk. }
  destruct (unpack_exchange_reads buf' st st1 nb na nd ns Hroom)
    as (st' & Hu & Hn & Uv & Ui & Ud & Uo).
  - exact (f_equal rounds (Rv a_num_bond)).
  - exact (f_equal rounds (Rv a_num_angle)).
  - exact (f_equal rounds (Rv a_num_dihedral)).
  - replace (17 + 3 * nb + 5 * na + 5 * nd)%nat
      with (exchange_iarr_at nb na nd a_nspecial 2)
      by (cbn [exchange_iarr_at]; lia).
    rewrite Ri by (cbn [count_rows_i]; lia). reflexivity.
  - exists st'. split; [|split; [exact Hn|split; [|exact Uo]]].
    + rewrite Hu. f_equal. f_equal.
      rewrite (unpack_exchange_fixes_count _ i _ (fixes st)) by
        (try exact Hfix; apply pack_exchange_fix_words).
      unfold m. rewrite pack_exchange_count. reflexivity.
    + unfold same_atom. unfold atom_rows_i, atom_rows_d. fold nb na nd ns.
      repeat split.
      * intros a. rewrite Uv. apply Rv.
      * intros a k Hk. rewrite Ui by exact Hk. apply Ri, Hk.
      * intros a k Hk. rewrite Ud by exact Hk. rewrite Wd by exact Hk. reflexivity.
Qed.


Lemma exchange_round_trip_witness :
  let st := rbc_store in
  let m := fst (pack_exchange 0 empty_buffer st) in
  let buf' := snd (pack_exchange 0 empty_buffer st) in
  buf' 0%nat = Wint (Z.of_nat m)
  /\ exists st',
       unpack_exchange (lmp := smallbig) buf' st = Ok (m, st')
       /\ nlocal st' = S (nlocal st)
       /\ same_atom st 0 st' (nlocal st)
       /\ (forall s, s <> nlocal st -> same_slot st st' s).
Proof.
  apply (exchange_round_trip (lmp := smallbig) rbc_store 0 empty_buffer).
  - split.
    + intros a _. destruct a; vm_compute; split; discriminate.
    + intros a k _. destruct a; vm_compute; split; discriminate.
  - exists rbc_store. reflexivity.
  - repeat constructor.
Defined.

(** ** More on the image codec *)

Section ImageMore.
Context {lmp : LmpType} (OK : lmptype_ok) (FIT : 3 * IMGBITS <= 31).

(** The three fields of any code. *)
Lemma image_fields (img : Z) :
  img mod 2 ^ (3 * IMGBITS)
  = Z.land img IMGMASK
    + 2 ^ IMGBITS * (Z.land (Z.shiftr img IMGBITS) IMGMASK
                     + 2 ^ IMGBITS * Z.land (Z.shiftr img IMG2BITS) IMGMASK).
Proof.
  pose proof (IMGBITS_nonneg OK) as Hn. pose proof (field_pos OK) as Hp.
  rewrite !(land_IMGMASK OK), (img2bits_eq OK).
  rewrite !Z.shiftr_div_pow2 by lia.
  replace (3 * IMGBITS) with (IMGBITS + (IMGBITS + IMGBITS)) by lia.
  replace (2 * IMGBITS) with (IMGBITS + IMGBITS) by lia.
  rewrite !Z.pow_add_r by lia.
  rewrite Z.rem_mul_r by nia.
  rewrite (Z.rem_mul_r (img / 2 ^ IMGBITS)) by lia.
  rewrite Z.div_div by lia. reflexivity.
Qed.

Lemma image_remap_zero (img : Z) :
  image_remap img (pbc3 0 0 0) = img mod 2 ^ (3 * IMGBITS).
Proof.
  unfold image_remap. rewrite (image_decode_fit OK FIT).
  unfold image_encode. cbn [pbc3].
  rewrite !Z.sub_0_r, !Z.sub_add.
  rewrite !(land_IMGMASK OK), !Z.mod_mod by (pose proof (field_pos OK); lia).
  rewrite <- !(land_IMGMASK OK).
  rewrite (fields_sum OK) by (try apply (field_range OK); apply (field_range OK)).
  symmetry. apply image_fields.
Qed.

Lemma image_code_high (img : Z) :
  image_code_ok img ->
  Z.land (Z.shiftr img IMG2BITS) IMGMASK = Z.shiftr img IMG2BITS.
Proof.
  unfold image_code_ok. intros Hi.
  pose proof (IMGBITS_nonneg OK) as Hn. pose proof (field_pos OK) as Hp.
  rewrite (land_IMGMASK OK), (img2bits_eq OK), Z.shiftr_div_pow2 by lia.
  apply Z.mod_small. split.
  - apply Z.div_pos; [lia | apply Z.pow_pos_nonneg; lia].
  - apply Z.div_lt_upper_bound; [apply Z.pow_pos_nonneg; lia|].
    rewrite <- Z.pow_add_r by lia.
    replace (2 * IMGBITS + IMGBITS) with (3 * IMGBITS) by lia. lia.
Qed.

Lemma field_count_ok (a : Z) : image_count_ok (Z.land a IMGMASK - IMGMAX).
Proof.
  unfold image_count_ok. pose proof (field_range OK a).
  pose proof (IMGMASK_val OK). lia.
Qed.

End ImageMore.

(** X1.  In a build whose three fields fit an [int]: remapping by the zero
    offset keeps the three fields of a code and clears every bit above them,
    so a code is unchanged exactly when it has nothing there.  (With
    [pbc_flag] set and a zero offset the packing functions send this, not the
    stored code.) *)
Theorem image_remap_zero_offset {lmp : LmpType} (OK : lmptype_ok)
    (FIT : 3 * IMGBITS <= 31) (img : Z) :
  image_remap img (pbc3 0 0 0) = img mod 2 ^ (3 * IMGBITS)
  /\ (image_remap img (pbc3 0 0 0) = img <-> image_code_ok img).
Proof.
  rewrite (image_remap_zero OK FIT). split; [reflexivity|].
  pose proof (imgbits_pos OK) as Hb.
  assert (0 < 2 ^ (3 * IMGBITS)) by (apply Z.pow_pos_nonneg; lia).
  unfold image_code_ok. split.
  - intros <-. apply Z.mod_pos_bound. assumption.
  - intros Hi. apply Z.mod_small, Hi.
Qed.

Lemma image_remap_zero_offset_witness :
  image_remap (lmp := smallbig) (-1) (pbc3 0 0 0)
  = (-1) mod 2 ^ (3 * IMGBITS (LmpType := smallbig))
  /\ (image_remap (lmp := smallbig) (-1) (pbc3 0 0 0) = -1
      <-> image_code_ok (lmp := smallbig) (-1)).
Proof.
  apply (image_remap_zero_offset (lmp := smallbig)).
  - constructor; reflexivity.
  - simpl; lia.
Defined.

(** X2.  In a build whose three fields fit an [int]: the wrap counts of a
    remapped code are the counts of the code less the offset, as long as these
    stay in the range of a field. *)
Theorem image_decode_remap {lmp : LmpType} (OK : lmptype_ok)
    (FIT : 3 * IMGBITS <= 31) (img : Z) (pbc : nat -> Z) :
  counts_ok (counts_less (image_decode img) pbc) ->
  image_decode (image_remap img pbc) = counts_less (image_decode img) pbc.
Proof.
  unfold image_remap. destruct (image_decode img) as [[wx wy] wz].
  cbn [counts_less counts_ok]. intros (Hx & Hy & Hz).
  rewrite (image_decode_encode_mod OK FIT).
  rewrite !(biased_count_small OK) by assumption. reflexivity.
Qed.

Lemma image_decode_remap_witness :
  image_decode (lmp := smallbig)
    (image_remap (lmp := smallbig) 537395712 (pbc3 1 0 (-1)))
  = counts_less (image_decode (lmp := smallbig) 537395712) (pbc3 1 0 (-1)).
Proof.
  apply (image_decode_remap (lmp := smallbig)).
  - constructor; reflexivity.
  - simpl; lia.
  - vm_compute. repeat split; discriminate.
Defined.

(** X3.  In a build whose three fields fit an [int], on a code that has
    nothing above its three fields: encoding is the inverse of decoding, the
    counts decoded are in range, and the decoder of [pack_data], which reads
    the stored code and does not mask the third field, agrees with the decoder
    of the remapping blocks. *)
Theorem image_encode_decode {lmp : LmpType} (OK : lmptype_ok)
    (FIT : 3 * IMGBITS <= 31) (img : Z) :
  image_code_ok img ->
  (let '(wx, wy, wz) := image_decode img in image_encode wx wy wz = img)
  /\ counts_ok (image_decode img)
  /\ image_decode_data img = image_decode img.
Proof.
  intros Hi. split; [|split].
  - pose proof (image_remap_zero OK FIT img) as Hz. unfold image_remap in Hz.
    destruct (image_decode img) as [[wx wy] wz]. cbn [pbc3] in Hz.
    rewrite !Z.sub_0_r in Hz. rewrite Hz. apply Z.mod_small, Hi.
  - rewrite (image_decode_fit OK FIT). cbn [counts_ok].
    repeat split; apply (field_count_ok OK).
  - rewrite (image_decode_fit OK FIT). unfold image_decode_data.
    rewrite (image_code_high OK) by exact Hi. reflexivity.
Qed.

Lemma image_encode_decode_witness :
  (let '(wx, wy, wz) := image_decode (lmp := smallbig) 1073741823 in
   image_encode (lmp := smallbig) wx wy wz = 1073741823)
  /\ counts_ok (lmp := smallbig) (image_decode (lmp := smallbig) 1073741823)
  /\ image_decode_data (lmp := smallbig) 1073741823
     = image_decode (lmp := smallbig) 1073741823.
Proof.
  apply (image_encode_decode (lmp := smallbig)).
  - constructor; reflexivity.
  - simpl; lia.
  - vm_compute. split; [discriminate | reflexivity].
Defined.


(** ** Loops that unpack one atom per round *)

Section Atoms.
Context {FS : Type} {lmp : LmpType}.
Variable (buf : buffer).
Implicit Types (st : Store FS) (cols : list acol).

Lemma acol_index_absent (c : acol) cols : ~ In c cols -> acol_index c cols = None.
Proof.
  induction cols as [|d cols IH]; intros Hn; [reflexivity|].
  cbn [acol_index]. destruct (acol_eq_dec d c) as [->|_].
  - exfalso. apply Hn. left. reflexivity.
  - rewrite IH; [reflexivity|]. intros Hi. apply Hn. right. exact Hi.
Qed.

Lemma atom_cursor (i : nat) cols :
  forall (m : nat) st,
    fst (fold_left (atom_step i buf) cols (m, st)) = (m + length cols)%nat.
Proof.
  induction cols as [|c cols IH]; intros m st; cbn [fold_left length].
  - cbn [fst]. lia.
  - destruct c; cbn [atom_step fst snd]; rewrite IH; lia.
Qed.

Lemma atom_scalars (i : nat) cols :
  forall (m : nat) st,
    let st' := snd (fold_left (atom_step i buf) cols (m, st)) in
    cfg st' = cfg st /\ nmax st' = nmax st /\ nlocal st' = nlocal st
    /\ fixes st' = fixes st /\ iarrs st' = iarrs st.
Proof.
  induction cols as [|c cols IH]; intros m st; cbn [fold_left].
  - cbn [snd]. repeat split.
  - destruct c as [a|a l]; cbn [atom_step fst snd].
    + destruct (IH (S m) (set_ivec a i (ivec_read a (buf m)) st))
        as (H1 & H2 & H3 & H4 & H5).
      cbv zeta. rewrite H1, H2, H3, H4, H5. repeat split.
    + destruct (IH (S m) (set_darr a i l (as_double (buf m)) st))
        as (H1 & H2 & H3 & H4 & H5).
      cbv zeta. rewrite H1, H2, H3, H4, H5. repeat split.
Qed.

Lemma atom_ivecs (i : nat) cols :
  NoDup cols ->
  forall (m : nat) st (a : ivec) (s : nat),
    ivecs (snd (fold_left (atom_step i buf) cols (m, st))) a s
    = match acol_index (AV a) cols with
      | Some c =>
          if Nat.eqb s i then ivec_read a (buf (m + c)%nat) else ivecs st a s
      | None => ivecs st a s
      end.
Proof.
  induction 1 as [|c cols Hn Hd IH]; intros m st a s; [reflexivity|].
  cbn [fold_left acol_index].
  destruct (atom_step i buf (m, st) c) as [m1 st1] eqn:E. rewrite IH.
  assert (Hm : m1 = S m) by (destruct c; injection E as <- _; reflexivity).
  subst m1.
  destruct (acol_eq_dec c (AV a)) as [->|Hne].
  - rewrite (acol_index_absent _ _ Hn). cbn [atom_step fst snd] in E.
    injection E as <-. cbn [set_ivec ivecs].
    rewrite ivec_eq_dec_refl, Nat.add_0_r, (Nat.eqb_sym i s). reflexivity.
  - assert (Hs : ivecs st1 a s = ivecs st a s).
    { destruct c as [b|b l]; cbn [atom_step fst snd] in E; injection E as <-;
        cbn [set_ivec set_darr ivecs]; [|reflexivity].
      rewrite ivec_eq_dec_neq by congruence. reflexivity. }
    rewrite Hs.
    destruct (acol_index (AV a) cols) as [k|]; cbn [option_map]; [|reflexivity].
    rewrite Nat.add_succ_comm. reflexivity.
Qed.

Lemma atom_darrs (i : nat) cols :
  NoDup cols ->
  forall (m : nat) st (a : darr) (s l : nat),
    darrs (snd (fold_left (atom_step i buf) cols (m, st))) a s l
    = match acol_index (AD a l) cols with
      | Some c =>
          if Nat.eqb s i then as_double (buf (m + c)%nat) else darrs st a s l
      | None => darrs st a s l
      end.
Proof.
  induction 1 as [|c cols Hn Hd IH]; intros m st a s l; [reflexivity|].
  cbn [fold_left acol_index].
  destruct (atom_step i buf (m, st) c) as [m1 st1] eqn:E. rewrite IH.
  assert (Hm : m1 = S m) by (destruct c; injection E as <- _; reflexivity).
  subst m1.
  destruct (acol_eq_dec c (AD a l)) as [->|Hne].
  - rewrite (acol_index_absent _ _ Hn). cbn [atom_step fst snd] in E.
    injection E as <-. cbn [set_darr darrs].
    rewrite darr_eq_dec_refl, Nat.add_0_r, (Nat.eqb_sym i s), Nat.eqb_refl,
      andb_true_r.
    reflexivity.
  - assert (Hs : darrs st1 a s l = darrs st a s l).
    { destruct c as [b|b l']; cbn [atom_step fst snd] in E; injection E as <-;
        cbn [set_ivec set_darr darrs]; [reflexivity|].
      destruct (darr_eq_dec b a) as [->|]; [|reflexivity].
      destruct (Nat.eqb_spec l' l) as [->|]; [congruence|].
      rewrite andb_false_r. reflexivity. }
    rewrite Hs.
    destruct (acol_index (AD a l) cols) as [k|]; cbn [option_map]; [|reflexivity].
    rewrite Nat.add_succ_comm. reflexivity.
Qed.

(** The whole loop, in one statement. *)
Lemma atoms_loop cols (n : nat) :
  NoDup cols ->
  forall (first m : nat) st,
  exists st',
    for_from first n (atom_body cols buf) (m, st)
    = ((m + n * length cols)%nat, st')
    /\ cfg st' = cfg st /\ nmax st' = nmax st /\ nlocal st' = nlocal st
    /\ fixes st' = fixes st /\ iarrs st' = iarrs st
    /\ (forall a s,
          ivecs st' a s
          = match acol_index (AV a) cols with
            | Some c =>
                if in_block first n s
                then ivec_read a (buf (m + (s - first) * length cols + c)%nat)
                else ivecs st a s
            | None => ivecs st a s
            end)
    /\ (forall a s l,
          darrs st' a s l
          = match acol_index (AD a l) cols with
            | Some c =>
                if in_block first n s
                then as_double (buf (m + (s - first) * length cols + c)%nat)
                else darrs st a s l
            | None => darrs st a s l
            end).
Proof.
  intros Hd. unfold in_block.
  induction n as [|n IH]; intros first m st; cbn [for_from].
  - exists st. split; [f_equal; lia|]. repeat split.
    + intros a s. destruct (acol_index (AV a) cols); [|reflexivity].
      destruct (Nat.leb_spec first s), (Nat.ltb_spec s (first + 0)); try lia;
        reflexivity.
    + intros a s l. destruct (acol_index (AD a l) cols); [|reflexivity].
      destruct (Nat.leb_spec first s), (Nat.ltb_spec s (first + 0)); try lia;
        reflexivity.
  - change (atom_body cols buf first (m, st))
      with (fold_left (atom_step first buf) cols (m, st)).
    destruct (fold_left (atom_step first buf) cols (m, st)) as [m1 st1] eqn:E.
    pose proof (atom_cursor first cols m st) as Hc.
    pose proof (atom_scalars first cols m st) as Hs.
    pose proof (atom_ivecs first cols Hd m st) as Hi.
    pose proof (atom_darrs first cols Hd m st) as Hf.
    rewrite E in Hc, Hs, Hi, Hf. cbn [fst snd] in Hc, Hs, Hi, Hf.
    destruct Hs as (H1 & H2 & H3 & H4 & H5). subst m1.
    destruct (IH (S first) (m + length cols)%nat st1)
      as (st' & E' & I1 & I2 & I3 & I4 & I5 & Iv & Id).
    exists st'. rewrite E'. split; [f_equal; lia|].
    rewrite I1, I2, I3, I4, I5. repeat split; try assumption.
    + intros a s. rewrite Iv, Hi.
      destruct (acol_index (AV a) cols) as [c|]; [|reflexivity].
      destruct (Nat.leb_spec (S first) s), (Nat.ltb_spec s (S first + n)),
        (Nat.leb_spec first s), (Nat.ltb_spec s (first + S n)),
        (Nat.eqb_spec s first); try lia; cbn [andb]; try reflexivity.
      * f_equal. f_equal. nia.
      * subst s. f_equal. f_equal. lia.
    + intros a s l. rewrite Id, Hf.
      destruct (acol_index (AD a l) cols) as [c|]; [|reflexivity].
      destruct (Nat.leb_spec (S first) s), (Nat.ltb_spec s (S first + n)),
        (Nat.leb_spec first s), (Nat.ltb_spec s (first + S n)),
        (Nat.eqb_spec s first); try lia; cbn [andb]; try reflexivity.
      * f_equal. f_equal. nia.
      * subst s. f_equal. f_equal. lia.
Qed.

End Atoms.

(** ** Forward communication *)

Ltac acol_eval :=
  repeat match goal with
  | |- context [acol_index ?c ?l] =>
      let r := eval vm_compute in (acol_index c l) in
      change (acol_index c l) with r
  end.

Ltac acol_absent :=
  rewrite acol_index_absent
    by (cbn [In]; intros Hin; repeat destruct Hin as [Hin|Hin];
        congruence || discriminate || exact Hin).

Lemma in_block_offset (first n k : nat) :
  (k < n)%nat -> in_block first n (first + k) = true.
Proof.
  intros Hk. unfold in_block.
  destruct (Nat.leb_spec first (first + k)), (Nat.ltb_spec (first + k) (first + n));
    try lia; reflexivity.
Qed.

Lemma NoDup_cols (cols : list acol) :
  (fix distinct (l : list acol) : bool :=
     match l with
     | [] => true
     | c :: l' =>
         (if in_dec acol_eq_dec c l' then false else true) && distinct l'
     end) cols = true ->
  NoDup cols.
Proof.
  induction cols as [|c cols IH]; intros H; [constructor|].
  apply andb_true_iff in H. destruct H as [H1 H2].
  destruct (in_dec acol_eq_dec c cols) as [|Hn]; [discriminate|].
  constructor; [exact Hn | apply IH, H2].
Qed.

Section Comm.
Context {FS : Type} {lmp : LmpType}.
Implicit Types (src dst : Store FS) (buf : buffer) (lst : nat -> nat).

Lemma unpack_comm_loop (n first : nat) buf dst :
  unpack_comm n first buf dst
  = snd (for_from first n (atom_body comm_cols buf) (0%nat, dst)).
Proof.
  unfold unpack_comm. apply (f_equal snd). apply for_from_ext.
  intros k [m st]. reflexivity.
Qed.

Lemma unpack_comm_vel_loop (n first : nat) buf dst :
  unpack_comm_vel n first buf dst
  = snd (for_from first n (atom_body comm_vel_cols buf) (0%nat, dst)).
Proof.
  unfold unpack_comm_vel. apply (f_equal snd). apply for_from_ext.
  intros k [m st]. reflexivity.
Qed.

End Comm.

(** X4.  [pack_comm] writes three words per listed atom, and [unpack_comm] on
    that buffer stores in slot [first + k] the position of the [k]-th listed
    atom, shifted by the periodic offset when [pbc_flag] is not 0; it changes
    nothing else in the destination. *)
Theorem comm_round_trip {FS : Type} {lmp : LmpType} (n first : nat)
    (lst : nat -> nat) (buf : buffer) (pbc_flag : Z) (pbc : nat -> Z)
    (src dst : Store FS) :
  let packed := pack_comm n lst buf pbc_flag pbc src in
  let dst' := unpack_comm n first (snd packed) dst in
  fst packed = (3 * n)%nat
  /\ (forall k c, (k < n)%nat -> (c < 3)%nat ->
        x dst' (first + k)%nat c
        = if pbc_flag =? 0 then x src (lst k) c
          else (x src (lst k) c + triple_nth (comm_offset pbc src) c)%float)
  /\ (forall s c, in_block first n s = false -> x dst' s c = x dst s c)
  /\ (forall a s c, a <> a_x -> darrs dst' a s c = darrs dst a s c)
  /\ (forall a s, ivecs dst' a s = ivecs dst a s)
  /\ iarrs dst' = iarrs dst /\ fixes dst' = fixes dst
  /\ nlocal dst' = nlocal dst /\ nmax dst' = nmax dst /\ cfg dst' = cfg dst.
Proof.
  intros packed dst'.
  assert (Hp : exists row,
             (forall k, length (row k) = 3%nat)
             /\ packed = (length (flat_map row (seq 0 n)),
                          blit (flat_map row (seq 0 n)) buf)
             /\ forall k c, (c < 3)%nat ->
                  nth c (row k) (buf (k * 3 + c)%nat)
                  = Wdouble (if pbc_flag =? 0 then x src (lst k) c
                             else (x src (lst k) c
                                   + triple_nth (comm_offset pbc src) c)%float)).
  { unfold packed, pack_comm. destruct (pbc_flag =? 0).
    - eexists. split; [|split; [reflexivity|]]; [reflexivity|].
      intros k c Hc. destruct c as [|[|[|c]]]; try lia; reflexivity.
    - destruct (comm_offset pbc src) as [[dx dy] dz].
      eexists. split; [|split; [reflexivity|]]; [reflexivity|].
      intros k c Hc. destruct c as [|[|[|c]]]; try lia; reflexivity. }
  destruct Hp as (row & Hw & Hpk & Hrow).
  assert (Hb : forall k c, (k < n)%nat -> (c < 3)%nat ->
             as_double (snd packed (k * 3 + c)%nat)
             = if pbc_flag =? 0 then x src (lst k) c
               else (x src (lst k) c + triple_nth (comm_offset pbc src) c)%float).
  { intros k c Hk Hc. rewrite Hpk. cbn [snd]. unfold blit.
    rewrite <- (app_nil_r (flat_map row (seq 0 n))).
    rewrite (nth_rows row 3 [] _ Hw) by assumption.
    cbn [Nat.add]. rewrite Hrow by exact Hc. reflexivity. }
  split.
  { rewrite Hpk. cbn [fst]. rewrite (length_rows row 3 Hw). lia. }
  subst dst'. rewrite unpack_comm_loop.
  destruct (atoms_loop (snd packed) comm_cols n
              (NoDup_cols comm_cols eq_refl) first 0%nat dst)
    as (st' & E & H1 & H2 & H3 & H4 & H5 & Hi & Hd).
  rewrite E. cbn [snd]. unfold x.
  repeat split; try assumption.
  - intros k c Hk Hc. rewrite Hd.
    destruct c as [|[|[|c]]]; try lia; acol_eval;
      rewrite in_block_offset by exact Hk;
      replace (first + k - first)%nat with k by lia;
      cbn [length comm_cols Nat.add]; apply Hb; lia.
  - intros s c Hs. rewrite Hd, Hs.
    destruct (acol_index (AD a_x c) comm_cols); reflexivity.
  - intros a s c Ha. rewrite Hd. acol_absent. reflexivity.
Qed.

(** X5.  [pack_comm_vel] writes [size_forward + size_velocity] words per
    listed atom, and [unpack_comm_vel] on that buffer stores in slot
    [first + k] the position, the velocity and the image flags it was sent
    for the [k]-th listed atom: the position shifted and the flags remapped
    when [pbc_flag] is not 0, the velocity corrected when moreover the box
    deforms and the mask of slot [k] of the sender is in the deformation
    group.  It changes nothing else in the destination. *)
Theorem comm_vel_round_trip {FS : Type} {lmp : LmpType} (n first : nat)
    (lst : nat -> nat) (buf : buffer) (pbc_flag : Z) (pbc : nat -> Z)
    (src dst : Store FS) :
  let packed := pack_comm_vel n lst buf pbc_flag pbc src in
  let dst' := unpack_comm_vel n first (snd packed) dst in
  fst packed = (n * (size_forward + size_velocity))%nat
  /\ (forall k c, (k < n)%nat -> (c < 3)%nat ->
        x dst' (first + k)%nat c
        = if pbc_flag =? 0 then x src (lst k) c
          else (x src (lst k) c + triple_nth (comm_offset pbc src) c)%float)
  /\ (forall k c, (k < n)%nat -> (c < 3)%nat ->
        v dst' (first + k)%nat c
        = if ((pbc_flag =? 0) || (deform_vremap (cfg src) =? 0)
              || negb (in_deform_group k src))%bool
          then v src (lst k) c
          else (v src (lst k) c + triple_nth (deform_dv pbc src) c)%float)
  /\ (forall k, (k < n)%nat ->
        image dst' (first + k)%nat
        = if pbc_flag =? 0 then image src (lst k)
          else image_remap (image src (lst k)) pbc)
  /\ (forall s, in_block first n s = false ->
        image dst' s = image dst s
        /\ forall c, x dst' s c = x dst s c /\ v dst' s c = v dst s c)
  /\ (forall a s c, a <> a_x -> a <> a_v -> darrs dst' a s c = darrs dst a s c)
  /\ (forall a s, a <> a_image -> ivecs dst' a s = ivecs dst a s)
  /\ iarrs dst' = iarrs dst /\ fixes dst' = fixes dst
  /\ nlocal dst' = nlocal dst /\ nmax dst' = nmax dst /\ cfg dst' = cfg dst.
Proof.
  intros packed dst'.
  assert (Hp : exists row,
             (forall k, length (row k) = 7%nat)
             /\ packed = (length (flat_map row (seq 0 n)),
                          blit (flat_map row (seq 0 n)) buf)
             /\ forall k d,
                  (forall c, (c < 3)%nat ->
                     nth c (row k) d
                     = Wdouble (if pbc_flag =? 0 then x src (lst k) c
                                else (x src (lst k) c
                                      + triple_nth (comm_offset pbc src) c)%float))
                  /\ (forall c, (c < 3)%nat ->
                        nth (3 + c) (row k) d
                        = Wdouble
                            (if ((pbc_flag =? 0) || (deform_vremap (cfg src) =? 0)
                                 || negb (in_deform_group k src))%bool
                             then v src (lst k) c
                             else (v src (lst k) c
                                   + triple_nth (deform_dv pbc src) c)%float))
                  /\ nth 6 (row k) d
                     = Wtagint (if pbc_flag =? 0 then image src (lst k)
                                else image_remap (image src (lst k)) pbc)).
  { unfold packed, pack_comm_vel. destruct (pbc_flag =? 0).
    - eexists. split; [|split; [reflexivity|]]; [reflexivity|].
      intros k d. repeat split; intros c Hc;
        destruct c as [|[|[|c]]]; try lia; reflexivity.
    - destruct (comm_offset pbc src) as [[dx dy] dz].
      destruct (deform_vremap (cfg src) =? 0).
      + eexists. split; [|split; [reflexivity|]]; [reflexivity|].
        intros k d. repeat split; intros c Hc;
          destruct c as [|[|[|c]]]; try lia; reflexivity.
      + destruct (deform_dv pbc src) as [[dvx dvy] dvz].
        eexists. split; [|split; [reflexivity|]].
        * intros k. cbv beta. destruct (in_deform_group k src); reflexivity.
        * intros k d. cbv beta.
          destruct (in_deform_group k src); repeat split; intros c Hc;
            destruct c as [|[|[|c]]]; try lia; reflexivity. }
  destruct Hp as (row & Hw & Hpk & Hrow).
  assert (Hb : forall k c, (k < n)%nat -> (c < 7)%nat ->
             snd packed (k * 7 + c)%nat = nth c (row k) (buf (k * 7 + c)%nat)).
  { intros k c Hk Hc. rewrite Hpk. cbn [snd]. unfold blit.
    rewrite <- (app_nil_r (flat_map row (seq 0 n))).
    rewrite (nth_rows row 7 [] _ Hw) by assumption. reflexivity. }
  split.
  { rewrite Hpk. cbn [fst]. rewrite (length_rows row 7 Hw). reflexivity. }
  subst dst'. rewrite unpack_comm_vel_loop.
  destruct (atoms_loop (snd packed) comm_vel_cols n
              (NoDup_cols comm_vel_cols eq_refl) first 0%nat dst)
    as (st' & E & H1 & H2 & H3 & H4 & H5 & Hi & Hd).
  rewrite E. cbn [snd]. unfold x, v, image.
  split; [|split; [|split; [|split; [|split; [|split]]]]].
  - intros k c Hk Hc. rewrite Hd.
    destruct c as [|[|[|c]]]; try lia; acol_eval;
      rewrite in_block_offset by exact Hk;
      replace (first + k - first)%nat with k by lia;
      cbn [length comm_vel_cols Nat.add]; rewrite Hb by lia;
      first [ rewrite (proj1 (Hrow k _) 0%nat) by lia
            | rewrite (proj1 (Hrow k _) 1%nat) by lia
            | rewrite (proj1 (Hrow k _) 2%nat) by lia ]; reflexivity.
  - intros k c Hk Hc. rewrite Hd.
    destruct c as [|[|[|c]]]; try lia; acol_eval;
      rewrite in_block_offset by exact Hk;
      replace (first + k - first)%nat with k by lia;
      cbn [length comm_vel_cols Nat.add]; rewrite Hb by lia;
      first [ rewrite (proj1 (proj2 (Hrow k _)) 0%nat) by lia
            | rewrite (proj1 (proj2 (Hrow k _)) 1%nat) by lia
            | rewrite (proj1 (proj2 (Hrow k _)) 2%nat) by lia ]; reflexivity.
  - intros k Hk. rewrite Hi. acol_eval.
    rewrite in_block_offset by exact Hk.
    replace (first + k - first)%nat with k by lia.
    cbn [length comm_vel_cols Nat.add]. rewrite Hb by lia.
    rewrite (proj2 (proj2 (Hrow k _))). reflexivity.
  - intros s Hs. split; [|intros c; split].
    + rewrite Hi, Hs. acol_eval. reflexivity.
    + rewrite Hd, Hs. destruct (acol_index (AD a_x c) comm_vel_cols); reflexivity.
    + rewrite Hd, Hs. destruct (acol_index (AD a_v c) comm_vel_cols); reflexivity.
  - intros a s c Ha Hv. rewrite Hd. acol_absent. reflexivity.
  - intros a s Ha. rewrite Hi. acol_absent. reflexivity.
  - repeat split; assumption.
Qed.

(** ** Border atoms in general *)

Section Grown.
Context {FS : Type} {lmp : LmpType}.
Implicit Types (st src dst : Store FS) (buf : buffer) (lst : nat -> nat).

Lemma regrow_self st : regrow (nmax st) (fixes st) st = st.
Proof. destruct st. reflexivity. Qed.

(** [grow_if_full] either leaves the store alone, or raises the capacity by
    [DELTA], or fails because the raised capacity is no small integer. *)
Lemma grow_if_full_cases (i : nat) st :
  match grow_if_full i st with
  | Ok st1 =>
      exists nm fs,
        st1 = regrow nm fs st
        /\ (Z.of_nat i <> nmax st -> nm = nmax st /\ fs = fixes st)
        /\ (Z.of_nat i = nmax st ->
            nm = nmax st + DELTA /\ 0 <= nm <= MAXSMALLINT)
  | Fatal msg =>
      msg = "Per-processor system is too big"%string
      /\ Z.of_nat i = nmax st
      /\ (nmax st + DELTA < 0 \/ MAXSMALLINT < nmax st + DELTA)
  end.
Proof.
  unfold grow_if_full. destruct (Z.eqb_spec (Z.of_nat i) (nmax st)) as [He|Hne].
  - unfold grow. cbn [Z.eqb].
    destruct (Z.ltb_spec (nmax st + DELTA) 0) as [Hl|Hl]; cbn [orb].
    + repeat split; [exact He | left; exact Hl].
    + destruct (Z.gtb_spec (nmax st + DELTA) MAXSMALLINT) as [Hg|Hg].
      * repeat split; [exact He | right; lia].
      * eexists _, _. split; [reflexivity|]. split; [intros Hn; contradiction|].
        intros _. split; [reflexivity | lia].
  - exists (nmax st), (fixes st). split; [symmetry; apply regrow_self|].
    split; [intros _; split; reflexivity | intros He; contradiction].
Qed.

Lemma atom_body_regrow (cols : list acol) buf (i : nat) (nm : Z) (fs : FS) :
  forall (m : nat) st,
    atom_body cols buf i (m, regrow nm fs st)
    = (fst (atom_body cols buf i (m, st)),
       regrow nm fs (snd (atom_body cols buf i (m, st)))).
Proof.
  unfold atom_body.
  induction cols as [|c cols IH]; intros m st; cbn [fold_left]; [reflexivity|].
  destruct c as [a|a l]; cbn [atom_step fst snd].
  - rewrite <- IH. reflexivity.
  - rewrite <- IH. reflexivity.
Qed.

Lemma atoms_regrow (cols : list acol) buf (nm : Z) (fs : FS) (n : nat) :
  forall (first m : nat) st,
    for_from first n (atom_body cols buf) (m, regrow nm fs st)
    = (fst (for_from first n (atom_body cols buf) (m, st)),
       regrow nm fs (snd (for_from first n (atom_body cols buf) (m, st)))).
Proof.
  induction n as [|n IH]; intros first m st; cbn [for_from]; [reflexivity|].
  rewrite atom_body_regrow.
  destruct (atom_body cols buf first (m, st)) as [m1 st1]. cbn [fst snd].
  apply IH.
Qed.

Lemma atom_body_nmax (cols : list acol) buf (i m : nat) st :
  nmax (snd (atom_body cols buf i (m, st))) = nmax st.
Proof. exact (proj1 (proj2 (atom_scalars buf i cols m st))). Qed.

Lemma for_from_fatal {A : Type} (body : nat -> result A -> result A) (msg : string) :
  (forall i, body i (Fatal msg) = Fatal msg) ->
  forall n k0, for_from k0 n body (Fatal msg) = Fatal msg.
Proof.
  intros Hb n. induction n as [|n IH]; intros k0; cbn [for_from]; [reflexivity|].
  rewrite Hb. apply IH.
Qed.

(** The loop with the capacity check is the loop without it on a store that
    was regrown, unless growing failed. *)
Lemma grown_loop (cols : list acol) buf (n : nat) :
  forall (first m : nat) st,
    match for_from first n (grow_atom_body cols buf) (Ok (m, st)) with
    | Ok p =>
        exists nm fs,
          p = (fst (for_from first n (atom_body cols buf) (m, st)),
               regrow nm fs (snd (for_from first n (atom_body cols buf) (m, st))))
          /\ nmax st <= nm
          /\ (Z.of_nat first <= nmax st -> Z.of_nat (first + n) <= nm)
          /\ (Z.of_nat (first + n) <= nmax st -> nm = nmax st /\ fs = fixes st)
    | Fatal msg =>
        msg = "Per-processor system is too big"%string
        /\ exists g, nmax st <= g < Z.of_nat (first + n)
                     /\ (g + DELTA < 0 \/ MAXSMALLINT < g + DELTA)
    end.
Proof.
  induction n as [|n IH]; intros first m st; cbn [for_from].
  - exists (nmax st), (fixes st). cbn [fst snd]. rewrite regrow_self.
    repeat split; lia.
  - unfold grow_atom_body at 2. cbn [bind].
    pose proof (grow_if_full_cases first st) as Hg.
    destruct (grow_if_full first st) as [st1|msg]; cbn [bind].
    + destruct Hg as (nm1 & fs1 & -> & Hsame & Hgrew).
      rewrite atom_body_regrow.
      pose proof (atom_body_nmax cols buf first m st) as Hn.
      destruct (atom_body cols buf first (m, st)) as [m1 st2]. cbn [fst snd] in *.
      specialize (IH (S first) m1 (regrow nm1 fs1 st2)).
      rewrite atoms_regrow in IH. cbn [fst snd] in IH.
      change (nmax (regrow nm1 fs1 st2)) with nm1 in IH.
      change (fixes (regrow nm1 fs1 st2)) with fs1 in IH.
      unfold DELTA in *.
      destruct (for_from (S first) n (grow_atom_body cols buf)
                  (Ok (m1, regrow nm1 fs1 st2))) as [p|msg].
      * destruct IH as (nm & fs & -> & I1 & I2 & I3).
        exists nm, fs. split; [reflexivity|].
        destruct (Z.eq_dec (Z.of_nat first) (nmax st)) as [He|Hne].
        -- destruct (Hgrew He) as [-> Hr]. repeat split; try lia.
        -- destruct (Hsame Hne) as [-> ->].
           repeat split; try lia; apply I3; lia.
      * destruct IH as (-> & g & Hg1 & Hg2). split; [reflexivity|].
        exists g. split; [|exact Hg2].
        destruct (Z.eq_dec (Z.of_nat first) (nmax st)) as [He|Hne].
        -- destruct (Hgrew He) as [-> Hr]. lia.
        -- destruct (Hsame Hne) as [-> ->]. lia.
    + rewrite for_from_fatal by reflexivity.
      destruct Hg as (-> & He & Hover). split; [reflexivity|].
      exists (nmax st). split; [lia | exact Hover].
Qed.

Lemma unpack_border_atom_cols buf (i : nat) (r : result (nat * Store FS)) :
  unpack_border_atom buf i r = grow_atom_body border_cols buf i r.
Proof.
  destruct r as [[m st]|msg]; [|reflexivity].
  unfold unpack_border_atom, grow_atom_body. cbn [bind].
  destruct (grow_if_full i st); reflexivity.
Qed.

Lemma unpack_border_vel_atom_cols buf (i : nat) (r : result (nat * Store FS)) :
  unpack_border_vel_atom buf i r = grow_atom_body border_vel_cols buf i r.
Proof.
  destruct r as [[m st]|msg]; [|reflexivity].
  unfold unpack_border_vel_atom, grow_atom_body. cbn [bind].
  destruct (grow_if_full i st); reflexivity.
Qed.

End Grown.

Section BorderTrip.
Context {FS : Type} {lmp : LmpType}.
Implicit Types (st src dst : Store FS) (buf : buffer) (lst : nat -> nat).

(** The loop with the capacity check on a store with room, or that can
    grow: what it leaves. *)
Lemma grown_atoms (cols : list acol) buf (n first : nat) dst :
  NoDup cols ->
  match for_from first n (grow_atom_body cols buf) (Ok (0%nat, dst)) with
  | Ok p =>
      fst p = (n * length cols)%nat
      /\ cfg (snd p) = cfg dst /\ nlocal (snd p) = nlocal dst
      /\ iarrs (snd p) = iarrs dst
      /\ nmax dst <= nmax (snd p)
      /\ (Z.of_nat first <= nmax dst -> Z.of_nat (first + n) <= nmax (snd p))
      /\ (Z.of_nat (first + n) <= nmax dst ->
          nmax (snd p) = nmax dst /\ fixes (snd p) = fixes dst)
      /\ (forall a s,
            ivecs (snd p) a s
            = match acol_index (AV a) cols with
              | Some c =>
                  if in_block first n s
                  then ivec_read a (buf ((s - first) * length cols + c)%nat)
                  else ivecs dst a s
              | None => ivecs dst a s
              end)
      /\ (forall a s l,
            darrs (snd p) a s l
            = match acol_index (AD a l) cols with
              | Some c =>
                  if in_block first n s
                  then as_double (buf ((s - first) * length cols + c)%nat)
                  else darrs dst a s l
              | None => darrs dst a s l
              end)
  | Fatal msg =>
      msg = "Per-processor system is too big"%string
      /\ exists g, nmax dst <= g < Z.of_nat (first + n)
                   /\ (g + DELTA < 0 \/ MAXSMALLINT < g + DELTA)
  end.
Proof.
  intros Hd. pose proof (grown_loop cols buf n first 0%nat dst) as Hg.
  destruct (for_from first n (grow_atom_body cols buf) (Ok (0%nat, dst)))
    as [p|msg]; [|exact Hg].
  destruct Hg as (nm & fs & -> & G1 & G2 & G3).
  destruct (atoms_loop buf cols n Hd first 0%nat dst)
    as (st' & E & H1 & H2 & H3 & H4 & H5 & Hi & Hf).
  rewrite E. cbn [fst snd regrow set_fixes set_nmax cfg nlocal iarrs nmax fixes
                  ivecs darrs].
  repeat split; try assumption; try (apply G3; assumption).
Qed.


(** The words of [pack_border]: eight per listed atom, then those of the
    fixes. *)
Lemma pack_border_words (n : nat) lst buf (pbc_flag : Z) (pbc : nat -> Z) src :
  exists row,
    (forall k, length (row k) = 8%nat)
    /\ pack_border n lst buf pbc_flag pbc src
       = (length (flat_map row (seq 0 n) ++ border_fix_words n lst src),
          blit (flat_map row (seq 0 n) ++ border_fix_words n lst src) buf)
    /\ forall k d,
         (forall c, (c < 3)%nat ->
            nth c (row k) d
            = Wdouble (if pbc_flag =? 0 then x src (lst k) c
                       else (x src (lst k) c
                             + triple_nth (border_offset pbc src) c)%float))
         /\ nth 3 (row k) d = Wint (tag src (lst k))
         /\ nth 4 (row k) d = Wint (type src (lst k))
         /\ nth 5 (row k) d = Wint (mask src (lst k))
         /\ nth 6 (row k) d = Wint (molecule src (lst k))
         /\ nth 7 (row k) d
            = Wtagint (if pbc_flag =? 0 then image src (lst k)
                       else image_remap (image src (lst k)) pbc).
Proof.
  unfold pack_border, border_fix_words. destruct (pbc_flag =? 0).
  - eexists. split; [|split; [reflexivity|]]; [reflexivity|].
    intros k d. repeat split. intros c Hc.
    destruct c as [|[|[|c]]]; try lia; reflexivity.
  - destruct (border_offset pbc src) as [[dx dy] dz].
    eexists. split; [|split; [reflexivity|]]; [reflexivity|].
    intros k d. repeat split. intros c Hc.
    destruct c as [|[|[|c]]]; try lia; reflexivity.
Qed.

(** The words of the fixes follow those of the atoms. *)
Lemma starts_with_after_rows (row : nat -> list word) (w n : nat)
    (rest : list word) buf :
  (forall k, length (row k) = w) ->
  starts_with (advance (n * w) (blit (flat_map row (seq 0 n) ++ rest) buf)) rest.
Proof.
  intros Hw k wd Hk. unfold advance, blit.
  rewrite (nth_after_rows row w rest _ Hw).
  apply nth_error_nth. exact Hk.
Qed.


(** The words of [pack_border_vel]: eleven per listed atom, then those of the
    fixes. *)
Lemma pack_border_vel_words (n : nat) lst buf (pbc_flag : Z) (pbc : nat -> Z) src :
  exists row,
    (forall k, length (row k) = 11%nat)
    /\ pack_border_vel n lst buf pbc_flag pbc src
       = (length (flat_map row (seq 0 n) ++ border_fix_words n lst src),
          blit (flat_map row (seq 0 n) ++ border_fix_words n lst src) buf)
    /\ forall k d,
         (forall c, (c < 3)%nat ->
            nth c (row k) d
            = Wdouble (if pbc_flag =? 0 then x src (lst k) c
                       else (x src (lst k) c
                             + triple_nth (border_offset pbc src) c)%float))
         /\ nth 3 (row k) d = Wint (tag src (lst k))
         /\ nth 4 (row k) d = Wint (type src (lst k))
         /\ nth 5 (row k) d = Wint (mask src (lst k))
         /\ nth 6 (row k) d = Wint (molecule src (lst k))
         /\ (forall c, (c < 3)%nat ->
               nth (7 + c) (row k) d
               = Wdouble
                   (if ((pbc_flag =? 0) || (deform_vremap (cfg src) =? 0)
                        || negb (in_deform_group k src))%bool
                    then v src (lst k) c
                    else (v src (lst k) c
                          + triple_nth (deform_dv pbc src) c)%float))
         /\ nth 10 (row k) d
            = Wtagint (if pbc_flag =? 0 then image src (lst k)
                       else image_remap (image src (lst k)) pbc).
Proof.
  unfold pack_border_vel, border_fix_words. destruct (pbc_flag =? 0).
  - eexists. split; [|split; [reflexivity|]]; [reflexivity|].
    intros k d. repeat split; intros c Hc;
      destruct c as [|[|[|c]]]; try lia; reflexivity.
  - destruct (border_offset pbc src) as [[dx dy] dz].
    destruct (deform_vremap (cfg src) =? 0).
    + eexists. split; [|split; [reflexivity|]]; [reflexivity|].
      intros k d. repeat split; intros c Hc;
        destruct c as [|[|[|c]]]; try lia; reflexivity.
    + destruct (deform_dv pbc src) as [[dvx dvy] dvz].
      eexists. split; [|split; [reflexivity|]].
      * intros k. cbv beta. destruct (in_deform_group k src); reflexivity.
      * intros k d. cbv beta.
        destruct (in_deform_group k src); repeat split; intros c Hc;
          destruct c as [|[|[|c]]]; try lia; reflexivity.
Qed.

End BorderTrip.

(** X6.  For any number of listed atoms whose tag, type, mask and molecule id
    are [int]s, and a destination with room for them from slot [first] on:
    [pack_border] writes [size_border] words per atom and then the words of
    the fixes; [unpack_border] on that buffer succeeds without growing and
    stores in slot [first + k] the position, tag, type, mask, molecule id and
    image flags of the [k]-th listed atom, the position shifted and the flags
    remapped when [pbc_flag] is not 0.  The fixes unpack from the word where
    the fixes' words start.  Every other slot, the velocities, the counts, the
    topology and the number of owned atoms are as before. *)
Theorem border_round_trip {FS : Type} {lmp : LmpType} (n first : nat)
    (lst : nat -> nat) (buf : buffer) (pbc_flag : Z) (pbc : nat -> Z)
    (src dst : Store FS) :
  (forall k a, (k < n)%nat -> In a border_ints -> int_range (ivecs src a (lst k))) ->
  Z.of_nat (first + n) <= nmax dst ->
  let packed := pack_border n lst buf pbc_flag pbc src in
  fst packed = (n * size_border + length (border_fix_words n lst src))%nat
  /\ starts_with (advance (n * size_border) (snd packed))
                 (border_fix_words n lst src)
  /\ exists dst',
       unpack_border n first (snd packed) dst = Ok dst'
       /\ (forall k c, (k < n)%nat -> (c < 3)%nat ->
             x dst' (first + k)%nat c
             = if pbc_flag =? 0 then x src (lst k) c
               else (x src (lst k) c
                     + triple_nth (border_offset pbc src) c)%float)
       /\ (forall k a, (k < n)%nat -> In a border_ints ->
             ivecs dst' a (first + k)%nat = ivecs src a (lst k))
       /\ (forall k, (k < n)%nat ->
             image dst' (first + k)%nat
             = if pbc_flag =? 0 then image src (lst k)
               else image_remap (image src (lst k)) pbc)
       /\ (forall s, in_block first n s = false ->
             (forall a, ivecs dst' a s = ivecs dst a s)
             /\ (forall a c, darrs dst' a s c = darrs dst a s c))
       /\ (forall a s c, a <> a_x -> darrs dst' a s c = darrs dst a s c)
       /\ (forall a s, ~ In a border_ints -> a <> a_image ->
             ivecs dst' a s = ivecs dst a s)
       /\ iarrs dst' = iarrs dst /\ nlocal dst' = nlocal dst
       /\ nmax dst' = nmax dst /\ cfg dst' = cfg dst
       /\ fixes dst'
          = snd (unpack_border_fixes n first (snd packed) (n * size_border)
                   (extra_border (cfg dst)) (fixes dst)).
Proof.
  intros Hint Hroom packed.
  destruct (pack_border_words n lst buf pbc_flag pbc src)
    as (row & Hw & Hpk & Hrow).
  fold packed in Hpk.
  assert (Hb : forall k c, (k < n)%nat -> (c < 8)%nat ->
             snd packed (k * 8 + c)%nat = nth c (row k) (buf (k * 8 + c)%nat)).
  { intros k c Hk Hc. rewrite Hpk. cbn [snd]. unfold blit.
    rewrite (nth_rows row 8 _ _ Hw) by assumption. reflexivity. }
  split.
  { rewrite Hpk. cbn [fst]. rewrite length_app, (length_rows row 8 Hw).
    reflexivity. }
  split.
  { rewrite Hpk. cbn [snd]. apply starts_with_after_rows. exact Hw. }
  unfold unpack_border.
  rewrite (for_from_ext _ _ (unpack_border_atom_cols (snd packed))).
  pose proof (grown_atoms border_cols (snd packed) n first dst
                (NoDup_cols border_cols eq_refl)) as Hg.
  destruct (for_from first n (grow_atom_body border_cols (snd packed))
              (Ok (0%nat, dst))) as [[m st]|msg].
  2:{ destruct Hg as (_ & g & Hg1 & _). lia. }
  cbn [fst snd] in Hg.
  destruct Hg as (Hm & H1 & H2 & H3 & _ & _ & H4 & Hi & Hd).
  destruct (H4 Hroom) as [H5 H6]. cbn [bind]. subst m.
  rewrite H1, H6.
  change (n * length border_cols)%nat with (n * size_border)%nat.
  destruct (unpack_border_fixes n first (snd packed) (n * size_border)
              (extra_border (cfg dst)) (fixes dst)) as [m fs].
  eexists. split; [reflexivity|].
  unfold x, image.
  cbn [snd set_fixes ivecs darrs iarrs nlocal nmax cfg fixes].
  split; [|split; [|split; [|split; [|split; [|split]]]]].
  - intros k c Hk Hc. rewrite Hd.
    destruct c as [|[|[|c]]]; try lia; acol_eval;
      rewrite in_block_offset by exact Hk;
      replace (first + k - first)%nat with k by lia;
      cbn [length border_cols Nat.add]; rewrite Hb by lia;
      first [ rewrite (proj1 (Hrow k _) 0%nat) by lia
            | rewrite (proj1 (Hrow k _) 1%nat) by lia
            | rewrite (proj1 (Hrow k _) 2%nat) by lia ]; reflexivity.
  - intros k a Hk Ha. rewrite Hi. pose proof (Hint k a Hk Ha) as Hr.
    cbn [In border_ints] in Ha.
    destruct Ha as [<-|[<-|[<-|[<-|[]]]]]; acol_eval;
      rewrite in_block_offset by exact Hk;
      replace (first + k - first)%nat with k by lia;
      cbn [length border_cols Nat.add ivec_read]; rewrite Hb by lia;
      [ rewrite (proj1 (proj2 (Hrow k _)))
      | rewrite (proj1 (proj2 (proj2 (Hrow k _))))
      | rewrite (proj1 (proj2 (proj2 (proj2 (Hrow k _)))))
      | rewrite (proj1 (proj2 (proj2 (proj2 (proj2 (Hrow k _)))))) ];
      apply as_int_Wint; exact Hr.
  - intros k Hk. rewrite Hi. acol_eval.
    rewrite in_block_offset by exact Hk.
    replace (first + k - first)%nat with k by lia.
    cbn [length border_cols Nat.add ivec_read]. rewrite Hb by lia.
    rewrite (proj2 (proj2 (proj2 (proj2 (proj2 (Hrow k _)))))). reflexivity.
  - intros s Hs. split.
    + intros a. rewrite Hi, Hs.
      destruct (acol_index (AV a) border_cols); reflexivity.
    + intros a c. rewrite Hd, Hs.
      destruct (acol_index (AD a c) border_cols); reflexivity.
  - intros a s c Ha. rewrite Hd. acol_absent. reflexivity.
  - intros a s Ha Hn. rewrite Hi. rewrite acol_index_absent; [reflexivity|].
    cbn [In border_cols]. cbn [In border_ints] in Ha.
    intros Hin. repeat destruct Hin as [Hin|Hin];
      try discriminate; try exact Hin;
      injection Hin as <-; try (apply Hn; reflexivity);
      apply Ha; tauto.
  - repeat split; assumption.
Qed.

(** X7.  The same for [pack_border_vel] and [unpack_border_vel], with
    [size_border + size_velocity] words per atom: the destination slot also
    receives the velocity, corrected when [pbc_flag] is not 0, the box deforms
    and the mask of slot [k] of the sender is in the deformation group. *)
Theorem border_vel_round_trip {FS : Type} {lmp : LmpType} (n first : nat)
    (lst : nat -> nat) (buf : buffer) (pbc_flag : Z) (pbc : nat -> Z)
    (src dst : Store FS) :
  (forall k a, (k < n)%nat -> In a border_ints -> int_range (ivecs src a (lst k))) ->
  Z.of_nat (first + n) <= nmax dst ->
  let packed := pack_border_vel n lst buf pbc_flag pbc src in
  let width := (size_border + size_velocity)%nat in
  fst packed = (n * width + length (border_fix_words n lst src))%nat
  /\ starts_with (advance (n * width) (snd packed)) (border_fix_words n lst src)
  /\ exists dst',
       unpack_border_vel n first (snd packed) dst = Ok dst'
       /\ (forall k c, (k < n)%nat -> (c < 3)%nat ->
             x dst' (first + k)%nat c
             = if pbc_flag =? 0 then x src (lst k) c
               else (x src (lst k) c
                     + triple_nth (border_offset pbc src) c)%float)
       /\ (forall k c, (k < n)%nat -> (c < 3)%nat ->
             v dst' (first + k)%nat c
             = if ((pbc_flag =? 0) || (deform_vremap (cfg src) =? 0)
                   || negb (in_deform_group k src))%bool
               then v src (lst k) c
               else (v src (lst k) c + triple_nth (deform_dv pbc src) c)%float)
       /\ (forall k a, (k < n)%nat -> In a border_ints ->
             ivecs dst' a (first + k)%nat = ivecs src a (lst k))
       /\ (forall k, (k < n)%nat ->
             image dst' (first + k)%nat
             = if pbc_flag =? 0 then image src (lst k)
               else image_remap (image src (lst k)) pbc)
       /\ (forall s, in_block first n s = false ->
             (forall a, ivecs dst' a s = ivecs dst a s)
             /\ (forall a c, darrs dst' a s c = darrs dst a s c))
       /\ (forall a s c, a <> a_x -> a <> a_v ->
             darrs dst' a s c = darrs dst a s c)
       /\ (forall a s, ~ In a border_ints -> a <> a_image ->
             ivecs dst' a s = ivecs dst a s)
       /\ iarrs dst' = iarrs dst /\ nlocal dst' = nlocal dst
       /\ nmax dst' = nmax dst /\ cfg dst' = cfg dst
       /\ fixes dst'
          = snd (unpack_border_fixes n first (snd packed) (n * width)
                   (extra_border (cfg dst)) (fixes dst)).
Proof.
  intros Hint Hroom packed width.
  destruct (pack_border_vel_words n lst buf pbc_flag pbc src)
    as (row & Hw & Hpk & Hrow).
  fold packed in Hpk.
  assert (Hb : forall k c, (k < n)%nat -> (c < 11)%nat ->
             snd packed (k * 11 + c)%nat = nth c (row k) (buf (k * 11 + c)%nat)).
  { intros k c Hk Hc. rewrite Hpk. cbn [snd]. unfold blit.
    rewrite (nth_rows row 11 _ _ Hw) by assumption. reflexivity. }
  split.
  { rewrite Hpk. cbn [fst]. rewrite length_app, (length_rows row 11 Hw).
    reflexivity. }
  split.
  { rewrite Hpk. cbn [snd]. apply starts_with_after_rows. exact Hw. }
  unfold unpack_border_vel.
  rewrite (for_from_ext _ _ (unpack_border_vel_atom_cols (snd packed))).
  pose proof (grown_atoms border_vel_cols (snd packed) n first dst
                (NoDup_cols border_vel_cols eq_refl)) as Hg.
  destruct (for_from first n (grow_atom_body border_vel_cols (snd packed))
              (Ok (0%nat, dst))) as [[m st]|msg].
  2:{ destruct Hg as (_ & g & Hg1 & _). lia. }
  cbn [fst snd] in Hg.
  destruct Hg as (Hm & H1 & H2 & H3 & _ & _ & H4 & Hi & Hd).
  destruct (H4 Hroom) as [H5 H6]. cbn [bind]. subst m.
  rewrite H1, H6.
  change (n * length border_vel_cols)%nat with (n * width)%nat.
  destruct (unpack_border_fixes n first (snd packed) (n * width)
              (extra_border (cfg dst)) (fixes dst)) as [m fs].
  eexists. split; [reflexivity|].
  unfold x, v, image.
  cbn [snd set_fixes ivecs darrs iarrs nlocal nmax cfg fixes].
  split; [|split; [|split; [|split; [|split; [|split; [|split]]]]]].
  - intros k c Hk Hc. rewrite Hd.
    destruct c as [|[|[|c]]]; try lia; acol_eval;
      rewrite in_block_offset by exact Hk;
      replace (first + k - first)%nat with k by lia;
      cbn [length border_vel_cols Nat.add]; rewrite Hb by lia;
      first [ rewrite (proj1 (Hrow k _) 0%nat) by lia
            | rewrite (proj1 (Hrow k _) 1%nat) by lia
            | rewrite (proj1 (Hrow k _) 2%nat) by lia ]; reflexivity.
  - intros k c Hk Hc. rewrite Hd.
    destruct (Hrow k (buf (k * 11 + (7 + c))%nat)) as (_ & _ & _ & _ & _ & Rv & _).
    specialize (Rv c Hc).
    destruct c as [|[|[|c]]]; try lia; acol_eval;
      rewrite in_block_offset by exact Hk;
      replace (first + k - first)%nat with k by lia;
      cbn [length border_vel_cols Nat.add] in *; rewrite Hb by lia;
      rewrite Rv; reflexivity.
  - intros k a Hk Ha. rewrite Hi. pose proof (Hint k a Hk Ha) as Hr.
    cbn [In border_ints] in Ha.
    destruct Ha as [<-|[<-|[<-|[<-|[]]]]]; acol_eval;
      rewrite in_block_offset by exact Hk;
      replace (first + k - first)%nat with k by lia;
      cbn [length border_vel_cols Nat.add ivec_read]; rewrite Hb by lia;
      [ rewrite (proj1 (proj2 (Hrow k _)))
      | rewrite (proj1 (proj2 (proj2 (Hrow k _))))
      | rewrite (proj1 (proj2 (proj2 (proj2 (Hrow k _)))))
      | rewrite (proj1 (proj2 (proj2 (proj2 (proj2 (Hrow k _)))))) ];
      apply as_int_Wint; exact Hr.
  - intros k Hk. rewrite Hi. acol_eval.
    rewrite in_block_offset by exact Hk.
    replace (first + k - first)%nat with k by lia.
    cbn [length border_vel_cols Nat.add ivec_read]. rewrite Hb by lia.
    rewrite (proj2 (proj2 (proj2 (proj2 (proj2 (proj2 (Hrow k _))))))).
    reflexivity.
  - intros s Hs. split.
    + intros a. rewrite Hi, Hs.
      destruct (acol_index (AV a) border_vel_cols); reflexivity.
    + intros a c. rewrite Hd, Hs.
      destruct (acol_index (AD a c) border_vel_cols); reflexivity.
  - intros a s c Ha Hv. rewrite Hd. acol_absent. reflexivity.
  - intros a s Ha Hn. rewrite Hi. rewrite acol_index_absent; [reflexivity|].
    cbn [In border_vel_cols]. cbn [In border_ints] in Ha.
    intros Hin. repeat destruct Hin as [Hin|Hin];
      try discriminate; try exact Hin;
      injection Hin as <-; try (apply Hn; reflexivity);
      apply Ha; tauto.
  - repeat split; assumption.
Qed.

Lemma border_round_trip_witness :
  let n := 2%nat in
  let first := 2%nat in
  let lst := swapped_pair in
  let pbc := pbc3 1 0 0 in
  let src := border_store in
  let dst := border_store in
  let packed := pack_border (lmp := smallbig) n lst empty_buffer 1 pbc src in
  fst packed = (n * size_border + length (border_fix_words n lst src))%nat
  /\ starts_with (advance (n * size_border) (snd packed))
                 (border_fix_words n lst src)
  /\ exists dst',
       unpack_border (lmp := smallbig) n first (snd packed) dst = Ok dst'
       /\ (forall k c, (k < n)%nat -> (c < 3)%nat ->
             x dst' (first + k)%nat c
             = (x src (lst k) c + triple_nth (border_offset pbc src) c)%float)
       /\ (forall k a, (k < n)%nat -> In a border_ints ->
             ivecs dst' a (first + k)%nat = ivecs src a (lst k))
       /\ (forall k, (k < n)%nat ->
             image dst' (first + k)%nat
             = image_remap (lmp := smallbig) (image src (lst k)) pbc)
       /\ (forall s, in_block first n s = false ->
             (forall a, ivecs dst' a s = ivecs dst a s)
             /\ (forall a c, darrs dst' a s c = darrs dst a s c))
       /\ (forall a s c, a <> a_x -> darrs dst' a s c = darrs dst a s c)
       /\ (forall a s, ~ In a border_ints -> a <> a_image ->
             ivecs dst' a s = ivecs dst a s)
       /\ iarrs dst' = iarrs dst /\ nlocal dst' = nlocal dst
       /\ nmax dst' = nmax dst /\ cfg dst' = cfg dst
       /\ fixes dst'
          = snd (unpack_border_fixes n first (snd packed) (n * size_border)
                   (extra_border (cfg dst)) (fixes dst)).
Proof.
  intros n first lst pbc src dst.
  apply (border_round_trip (lmp := smallbig) n first lst empty_buffer 1 pbc
           src dst).
  - intros k a Hk Ha. destruct k as [|[|k]]; [| |unfold n in Hk; lia];
      cbn [In border_ints] in Ha;
      destruct Ha as [<-|[<-|[<-|[<-|[]]]]]; vm_compute; split; discriminate.
  - vm_compute. discriminate.
Defined.

Lemma border_vel_round_trip_witness :
  let n := 2%nat in
  let first := 2%nat in
  let lst := swapped_pair in
  let pbc := pbc3 1 0 0 in
  let src := deform_store in
  let dst := deform_store in
  let packed := pack_border_vel (lmp := smallbig) n lst empty_buffer 1 pbc src in
  let width := (size_border + size_velocity)%nat in
  fst packed = (n * width + length (border_fix_words n lst src))%nat
  /\ starts_with (advance (n * width) (snd packed)) (border_fix_words n lst src)
  /\ exists dst',
       unpack_border_vel (lmp := smallbig) n first (snd packed) dst = Ok dst'
       /\ (forall k c, (k < n)%nat -> (c < 3)%nat ->
             x dst' (first + k)%nat c
             = (x src (lst k) c + triple_nth (border_offset pbc src) c)%float)
       /\ (forall k c, (k < n)%nat -> (c < 3)%nat ->
             v dst' (first + k)%nat c
             = if negb (in_deform_group k src)
               then v src (lst k) c
               else (v src (lst k) c + triple_nth (deform_dv pbc src) c)%float)
       /\ (forall k a, (k < n)%nat -> In a border_ints ->
             ivecs dst' a (first + k)%nat = ivecs src a (lst k))
       /\ (forall k, (k < n)%nat ->
             image dst' (first + k)%nat
             = image_remap (lmp := smallbig) (image src (lst k)) pbc)
       /\ (forall s, in_block first n s = false ->
             (forall a, ivecs dst' a s = ivecs dst a s)
             /\ (forall a c, darrs dst' a s c = darrs dst a s c))
       /\ (forall a s c, a <> a_x -> a <> a_v ->
             darrs dst' a s c = darrs dst a s c)
       /\ (forall a s, ~ In a border_ints -> a <> a_image ->
             ivecs dst' a s = ivecs dst a s)
       /\ iarrs dst' = iarrs dst /\ nlocal dst' = nlocal dst
       /\ nmax dst' = nmax dst /\ cfg dst' = cfg dst
       /\ fixes dst'
          = snd (unpack_border_fixes n first (snd packed) (n * width)
                   (extra_border (cfg dst)) (fixes dst)).
Proof.
  intros n first lst pbc src dst.
  apply (border_vel_round_trip (lmp := smallbig) n first lst empty_buffer 1 pbc
           src dst).
  - intros k a Hk Ha. destruct k as [|[|k]]; [| |unfold n in Hk; lia];
      cbn [In border_ints] in Ha;
      destruct Ha as [<-|[<-|[<-|[<-|[]]]]]; vm_compute; split; discriminate.
  - vm_compute. discriminate.
Defined.

(** X8.  [pack_border_hybrid] writes one word per listed atom, its molecule
    id, and returns their number; [unpack_border_hybrid] on that buffer
    returns the same number and stores in slot [first + k] the molecule id of
    the [k]-th listed atom, when these are [int]s.  Nothing else changes. *)
Theorem border_hybrid_round_trip {FS : Type} {lmp : LmpType} (n first : nat)
    (lst : nat -> nat) (buf : buffer) (src dst : Store FS) :
  (forall k, (k < n)%nat -> int_range (molecule src (lst k))) ->
  let packed := pack_border_hybrid n lst buf src in
  let unpacked := unpack_border_hybrid n first (snd packed) dst in
  fst packed = n /\ fst unpacked = n
  /\ (forall k, (k < n)%nat ->
        molecule (snd unpacked) (first + k)%nat = molecule src (lst k))
  /\ (forall s, in_block first n s = false ->
        molecule (snd unpacked) s = molecule dst s)
  /\ (forall a s, a <> a_molecule -> ivecs (snd unpacked) a s = ivecs dst a s)
  /\ (forall a s c, darrs (snd unpacked) a s c = darrs dst a s c)
  /\ iarrs (snd unpacked) = iarrs dst /\ fixes (snd unpacked) = fixes dst
  /\ nlocal (snd unpacked) = nlocal dst /\ nmax (snd unpacked) = nmax dst
  /\ cfg (snd unpacked) = cfg dst.
Proof.
  intros Hint packed unpacked.
  set (row := fun i : nat => [Wint (molecule src (lst i))]).
  assert (Hw : forall k, length (row k) = 1%nat) by reflexivity.
  assert (Hpk : packed = (length (flat_map row (seq 0 n)),
                          blit (flat_map row (seq 0 n)) buf)) by reflexivity.
  assert (Hb : forall k, (k < n)%nat ->
             snd packed (k * 1 + 0)%nat = Wint (molecule src (lst k))).
  { intros k Hk. rewrite Hpk. cbn [snd]. unfold blit.
    rewrite <- (app_nil_r (flat_map row (seq 0 n))).
    rewrite (nth_rows row 1 [] _ Hw) by lia. reflexivity. }
  split.
  { rewrite Hpk. cbn [fst]. rewrite (length_rows row 1 Hw). lia. }
  assert (Hu : unpacked
               = for_from first n (atom_body hybrid_cols (snd packed)) (0%nat, dst)).
  { unfold unpacked, unpack_border_hybrid. apply for_from_ext.
    intros k [m st]. reflexivity. }
  destruct (atoms_loop (snd packed) hybrid_cols n
              (NoDup_cols hybrid_cols eq_refl) first 0%nat dst)
    as (st' & E & H1 & H2 & H3 & H4 & H5 & Hi & Hd).
  rewrite Hu, E. cbn [fst snd]. unfold molecule.
  split; [cbn [length hybrid_cols]; lia|].
  split; [|split; [|split; [|split]]].
  - intros k Hk. rewrite Hi. acol_eval.
    rewrite in_block_offset by exact Hk.
    replace (first + k - first)%nat with k by lia.
    cbn [length hybrid_cols Nat.add ivec_read]. rewrite Hb by exact Hk.
    apply as_int_Wint, Hint, Hk.
  - intros s Hs. rewrite Hi, Hs. acol_eval. reflexivity.
  - intros a s Ha. rewrite Hi. acol_absent. reflexivity.
  - intros a s c. rewrite Hd. acol_absent. reflexivity.
  - repeat split; assumption.
Qed.

Lemma border_hybrid_round_trip_witness :
  let n := 2%nat in
  let first := 2%nat in
  let lst := swapped_pair in
  let src := border_store in
  let dst := border_store in
  let packed := pack_border_hybrid n lst empty_buffer src in
  let unpacked :=
    unpack_border_hybrid (lmp := smallbig) n first (snd packed) dst in
  fst packed = n /\ fst unpacked = n
  /\ (forall k, (k < n)%nat ->
        molecule (snd unpacked) (first + k)%nat = molecule src (lst k))
  /\ (forall s, in_block first n s = false ->
        molecule (snd unpacked) s = molecule dst s)
  /\ (forall a s, a <> a_molecule -> ivecs (snd unpacked) a s = ivecs dst a s)
  /\ (forall a s c, darrs (snd unpacked) a s c = darrs dst a s c)
  /\ iarrs (snd unpacked) = iarrs dst /\ fixes (snd unpacked) = fixes dst
  /\ nlocal (snd unpacked) = nlocal dst /\ nmax (snd unpacked) = nmax dst
  /\ cfg (snd unpacked) = cfg dst.
Proof.
  intros n first lst src dst.
  apply (border_hybrid_round_trip (lmp := smallbig) n first lst empty_buffer
           src dst).
  intros k Hk. vm_compute. split; discriminate.
Defined.

(** X9.  Border atoms and the capacity.  When the first slot to fill is not
    beyond the capacity, [unpack_border] and [unpack_border_vel] fill only
    slots below the capacity they leave: on success all [n] slots fit, the
    capacity has not shrunk, it is unchanged if there was room already, and
    the number of owned atoms is unchanged.  They fail only with the message
    of [grow], and only when there is no room for the [n] atoms and a raised
    capacity would pass [MAXSMALLINT]. *)
Theorem unpack_border_capacity {FS : Type} {lmp : LmpType} (n first : nat)
    (buf : buffer) (dst : Store FS) :
  Z.of_nat first <= nmax dst ->
  let outcome (r : result (Store FS)) : Prop :=
    match r with
    | Ok dst' =>
        Z.of_nat (first + n) <= nmax dst' /\ nmax dst <= nmax dst'
        /\ (Z.of_nat (first + n) <= nmax dst -> nmax dst' = nmax dst)
        /\ nlocal dst' = nlocal dst
    | Fatal msg =>
        msg = "Per-processor system is too big"%string
        /\ nmax dst < Z.of_nat (first + n)
        /\ MAXSMALLINT < Z.of_nat (first + n) + DELTA
    end in
  outcome (unpack_border n first buf dst)
  /\ outcome (unpack_border_vel n first buf dst).
Proof.
  intros Hfirst outcome.
  assert (Hall : forall cols r,
             NoDup cols ->
             r = (p <- for_from first n (grow_atom_body cols buf) (Ok (0%nat, dst)) ;;
                  let '(m, st) := p in
                  let '(m, fs) :=
                    unpack_border_fixes n first buf m (extra_border (cfg st))
                      (fixes st) in
                  Ok (set_fixes fs st)) ->
             outcome r).
  { intros cols r Hd ->.
    pose proof (grown_atoms cols buf n first dst Hd) as Hg.
    destruct (for_from first n (grow_atom_body cols buf) (Ok (0%nat, dst)))
      as [[m st]|msg]; cbn [bind].
    - cbn [fst snd] in Hg.
      destruct Hg as (_ & _ & H2 & _ & H4 & H5 & H6 & _).
      destruct (unpack_border_fixes n first buf m (extra_border (cfg st))
                  (fixes st)) as [m' fs].
      unfold outcome. cbn [set_fixes nmax nlocal].
      repeat split; try assumption; try (apply H5; lia).
      intros Hr. apply H6, Hr.
    - destruct Hg as (-> & g & Hg1 & Hg2). unfold outcome, DELTA in *.
      repeat split; lia. }
  split.
  - apply (Hall border_cols); [exact (NoDup_cols border_cols eq_refl)|].
    unfold unpack_border.
    rewrite (for_from_ext _ _ (unpack_border_atom_cols buf)). reflexivity.
  - apply (Hall border_vel_cols); [exact (NoDup_cols border_vel_cols eq_refl)|].
    unfold unpack_border_vel.
    rewrite (for_from_ext _ _ (unpack_border_vel_atom_cols buf)). reflexivity.
Qed.

Lemma unpack_border_capacity_witness :
  let n := 2%nat in
  let first := 8%nat in
  let dst := border_store in
  let outcome (r : result (Store unit)) : Prop :=
    match r with
    | Ok dst' =>
        Z.of_nat (first + n) <= nmax dst' /\ nmax dst <= nmax dst'
        /\ (Z.of_nat (first + n) <= nmax dst -> nmax dst' = nmax dst)
        /\ nlocal dst' = nlocal dst
    | Fatal msg =>
        msg = "Per-processor system is too big"%string
        /\ nmax dst < Z.of_nat (first + n)
        /\ MAXSMALLINT (LmpType := smallbig) < Z.of_nat (first + n) + DELTA
    end in
  outcome (unpack_border (lmp := smallbig) n first empty_buffer dst)
  /\ outcome (unpack_border_vel (lmp := smallbig) n first empty_buffer dst).
Proof.
  intros n first dst.
  apply (unpack_border_capacity (lmp := smallbig) n first empty_buffer dst).
  vm_compute. discriminate.
Defined.

(** ** New atoms and the data file *)

Section CreateAtom.
Context {FS : Type} {lmp : LmpType}.
Implicit Types (st : Store FS).

(** The image flags of a created atom are the code of the counts
    [(0, 0, 0)]. *)
Lemma image_zero_encode (OK : lmptype_ok) : image_zero = image_encode 0 0 0.
Proof.
  unfold image_zero, image_encode. rewrite Z.add_0_l, (land_IMGMASK OK).
  pose proof (imgbits_pos OK) as Hb.
  assert (0 < 2 ^ (IMGBITS - 1)) by (apply Z.pow_pos_nonneg; lia).
  assert (2 ^ IMGBITS = 2 * 2 ^ (IMGBITS - 1))
    by (rewrite <- Z.pow_succ_r by lia; f_equal; lia).
  rewrite Z.mod_small by (rewrite (imgmax_eq OK); lia).
  set (c := Z.shiftl IMGMAX IMG2BITS). set (b := Z.shiftl IMGMAX IMGBITS).
  set (a := IMGMAX). clearbody a b c. apply Z.bits_inj'. intros n _. rewrite !Z.lor_spec.
  destruct (Z.testbit a n), (Z.testbit b n), (Z.testbit c n); reflexivity.
Qed.

(** The rows of [pack_data]. *)
Lemma pack_data_rows (buf : table) st (i c : nat) :
  pack_data buf st i c
  = if (Nat.ltb i (nlocal st) && Nat.ltb c 9)%bool then
      match c with
      | 0%nat => double_of_int (tag st i)
      | 1%nat => double_of_int (molecule st i)
      | 2%nat => double_of_int (type st i)
      | 3%nat => x st i 0%nat
      | 4%nat => x st i 1%nat
      | 5%nat => x st i 2%nat
      | 6%nat => double_of_int (fst (fst (image_decode_data (image st i))))
      | 7%nat => double_of_int (snd (fst (image_decode_data (image st i))))
      | _ => double_of_int (snd (image_decode_data (image st i)))
      end
    else buf i c.
Proof.
  unfold pack_data, for_. generalize (nlocal st). intros n.
  induction n as [|n IH].
  - reflexivity.
  - rewrite for_from_S. cbn [Nat.add]. unfold set_table at 1 2 3 4 5 6 7 8 9.
    rewrite IH. unfold image_decode_data. cbn [fst snd].
    destruct (Nat.eqb_spec n i) as [->|Hni].
    + replace (Nat.ltb i (S i)) with true by (symmetry; apply Nat.ltb_lt; lia).
      replace (Nat.ltb i i) with false by (symmetry; apply Nat.ltb_ge; lia).
      cbn [andb].
      do 9 (destruct c as [|c]; [reflexivity|]). reflexivity.
    + cbn [andb].
      destruct (Nat.ltb_spec i n), (Nat.ltb_spec i (S n)); try lia; reflexivity.
Qed.

End CreateAtom.

(** X10.  In a build whose three image fields fit an [int], on a store that
    can take one more atom: [create_atom] appends an
    owned atom of the given type at the given coordinates, with tag 0, mask 1,
    molecule id 0, zero velocity, no bond, angle or dihedral, three zero
    special-neighbour counts, and the image flags of the wrap counts
    [(0, 0, 0)]; every other slot is as it was. *)
Theorem create_atom_defaults {FS : Type} {lmp : LmpType} (OK : lmptype_ok)
    (FIT : 3 * IMGBITS <= 31) (itype : Z) (coord : nat -> double)
    (st : Store FS) :
  has_room (nlocal st) st ->
  let nl := nlocal st in
  exists st',
    create_atom itype coord st = Ok st'
    /\ nlocal st' = S nl
    /\ tag st' nl = 0 /\ type st' nl = itype /\ mask st' nl = 1
    /\ molecule st' nl = 0
    /\ num_bond st' nl = 0 /\ num_angle st' nl = 0 /\ num_dihedral st' nl = 0
    /\ image st' nl = image_encode 0 0 0
    /\ image_decode (image st' nl) = (0, 0, 0)
    /\ (forall c, (c < 3)%nat ->
          x st' nl c = coord c /\ v st' nl c = 0%float /\ nspecial st' nl c = 0)
    /\ (forall s, s <> nl -> same_slot st st' s).
Proof.
  intros [st1 Hroom] nl.
  destruct (grow_if_full_keeps _ _ _ Hroom) as (Hc & Hn & Hi & Ha & Hd).
  subst nl. unfold create_atom. rewrite Hroom. cbn [bind].
  eexists. split; [reflexivity|]. store_simpl.
  do 8 (split; [reflexivity|]).
  split; [apply (image_zero_encode OK)|].
  split.
  { rewrite (image_zero_encode OK), (image_decode_encode_mod OK FIT).
    rewrite !(biased_count_small OK) by exact (image_count_ok_0 OK).
    reflexivity. }
  split.
  - intros c Hc3. destruct c as [|[|[|c]]]; try lia; store_simpl;
      repeat split; reflexivity.
  - intros s Hs. unfold same_slot. store_simpl. rewrite Hi, Ha, Hd.
    destruct (Nat.eqb_spec (nlocal st) s) as [He|_]; [congruence|].
    cbn [andb].
    repeat split; intros;
      repeat match goal with
             | |- context [ivec_eq_dec ?a ?b] => destruct (ivec_eq_dec a b)
             | |- context [iarr_eq_dec ?a ?b] => destruct (iarr_eq_dec a b)
             | |- context [darr_eq_dec ?a ?b] => destruct (darr_eq_dec a b)
             end; reflexivity.
Qed.

Lemma create_atom_defaults_witness :
  let st := border_store in
  let coord := fun _ : nat => 0.5%float in
  let nl := nlocal st in
  exists st',
    create_atom (lmp := smallbig) 2 coord st = Ok st'
    /\ nlocal st' = S nl
    /\ tag st' nl = 0 /\ type st' nl = 2 /\ mask st' nl = 1
    /\ molecule st' nl = 0
    /\ num_bond st' nl = 0 /\ num_angle st' nl = 0 /\ num_dihedral st' nl = 0
    /\ image st' nl = image_encode (lmp := smallbig) 0 0 0
    /\ image_decode (lmp := smallbig) (image st' nl) = (0, 0, 0)
    /\ (forall c, (c < 3)%nat ->
          x st' nl c = coord c /\ v st' nl c = 0%float /\ nspecial st' nl c = 0)
    /\ (forall s, s <> nl -> same_slot st st' s).
Proof.
  apply (create_atom_defaults (lmp := smallbig)).
  - constructor; reflexivity.
  - simpl; lia.
  - exists border_store. reflexivity.
Defined.

(** X11.  A line of the data file read and written back, in a build whose
    three image fields fit an [int].  When [data_atom] accepts a line
    (positive tag, type within [1 .. ntypes]) whose image flags are the code
    of wrap counts [(ix, iy, iz)] in the range of a field,
    [pack_data] afterwards writes for the new atom the row of the tag, the
    molecule id and the type that were read, the coordinates, and the three
    wrap counts; the rows of the atoms owned before are those [pack_data]
    wrote before, and nothing is written beyond the owned atoms or beyond
    column 8. *)
Theorem data_atom_pack_data {FS : Type} {lmp : LmpType} (OK : lmptype_ok)
    (FIT : 3 * IMGBITS <= 31) (coord : nat -> double) (ix iy iz : Z)
    (values : nat -> string) (buf : table) (st : Store FS) :
  has_room (nlocal st) st ->
  0 < atoi (values 0%nat) ->
  1 <= atoi (values 2%nat) <= ntypes (cfg st) ->
  image_count_ok ix -> image_count_ok iy -> image_count_ok iz ->
  let nl := nlocal st in
  exists st',
    data_atom coord (image_encode ix iy iz) values st = Ok st'
    /\ let t := pack_data buf st' in
       t nl 0%nat = double_of_int (atoi (values 0%nat))
       /\ t nl 1%nat = double_of_int (atoi (values 1%nat))
       /\ t nl 2%nat = double_of_int (atoi (values 2%nat))
       /\ t nl 3%nat = coord 0%nat /\ t nl 4%nat = coord 1%nat
       /\ t nl 5%nat = coord 2%nat
       /\ t nl 6%nat = double_of_int ix /\ t nl 7%nat = double_of_int iy
       /\ t nl 8%nat = double_of_int iz
       /\ (forall i c, (i < nl)%nat -> t i c = pack_data buf st i c)
       /\ (forall i c, (nl < i)%nat \/ (9 <= c)%nat -> t i c = buf i c).
Proof.
  intros [st1 Hroom] Hid Hty Hx Hy Hz nl.
  destruct (grow_if_full_keeps _ _ _ Hroom) as (Hc & Hn & Hi & Ha & Hd).
  subst nl. unfold data_atom. rewrite Hroom. cbn [bind]. store_simpl.
  rewrite Hc.
  destruct (Z.leb_spec (atoi (values 0%nat)) 0); [lia|].
  replace ((atoi (values 2%nat) <=? 0)
           || (atoi (values 2%nat) >? ntypes (cfg st)))%bool with false
    by (symmetry; apply orb_false_iff;
        rewrite Z.leb_gt, Z.gtb_ltb, Z.ltb_ge; lia).
  eexists. split; [reflexivity|]. cbv zeta.
  assert (Hself : Nat.ltb (nlocal st) (S (nlocal st)) = true)
    by (apply Nat.ltb_lt; lia).
  assert (Himg : image_decode_data (image_encode ix iy iz) = (ix, iy, iz)).
  { rewrite (image_decode_data_encode_mod OK).
    rewrite !(biased_count_small OK) by assumption. reflexivity. }
  repeat split; try (rewrite pack_data_rows; store_simpl; rewrite Hself;
                     cbn [andb Nat.ltb Nat.leb]; rewrite ?Himg; reflexivity).
  - intros i c Hlt. rewrite !pack_data_rows. store_simpl. rewrite Hi, Hd.
    assert (Hne : Nat.eqb (nlocal st) i = false) by (apply Nat.eqb_neq; lia).
    rewrite !Hne. cbn [andb].
    replace (Nat.ltb i (S (nlocal st))) with true
      by (symmetry; apply Nat.ltb_lt; lia).
    replace (Nat.ltb i (nlocal st)) with true
      by (symmetry; apply Nat.ltb_lt; lia).
    repeat match goal with
           | |- context [ivec_eq_dec ?a ?b] =>
               destruct (ivec_eq_dec a b); try discriminate
           | |- context [darr_eq_dec ?a ?b] =>
               destruct (darr_eq_dec a b); try discriminate
           end; reflexivity.
  - intros i c Hout. rewrite pack_data_rows. store_simpl.
    destruct Hout as [Hlt|Hc9].
    + replace (Nat.ltb i (S (nlocal st))) with false
        by (symmetry; apply Nat.ltb_ge; lia).
      reflexivity.
    + replace (Nat.ltb c 9) with false by (symmetry; apply Nat.ltb_ge; lia).
      rewrite andb_false_r. reflexivity.
Qed.

Lemma data_atom_pack_data_witness :
  let st := border_store in
  let coord := fun _ : nat => 0.5%float in
  let buf : table := fun _ _ => 0%float in
  let nl := nlocal st in
  exists st',
    data_atom (lmp := smallbig) coord (image_encode (lmp := smallbig) 1 0 (-1))
      atoms_row st = Ok st'
    /\ let t := pack_data (lmp := smallbig) buf st' in
       t nl 0%nat = double_of_int (atoi (atoms_row 0%nat))
       /\ t nl 1%nat = double_of_int (atoi (atoms_row 1%nat))
       /\ t nl 2%nat = double_of_int (atoi (atoms_row 2%nat))
       /\ t nl 3%nat = coord 0%nat /\ t nl 4%nat = coord 1%nat
       /\ t nl 5%nat = coord 2%nat
       /\ t nl 6%nat = double_of_int 1 /\ t nl 7%nat = double_of_int 0
       /\ t nl 8%nat = double_of_int (-1)
       /\ (forall i c, (i < nl)%nat ->
             t i c = pack_data (lmp := smallbig) buf st i c)
       /\ (forall i c, (nl < i)%nat \/ (9 <= c)%nat -> t i c = buf i c).
Proof.
  apply (data_atom_pack_data (lmp := smallbig)).
  - constructor; reflexivity.
  - simpl; lia.
  - exists border_store. reflexivity.
  - vm_compute. reflexivity.
  - vm_compute. split; discriminate.
  - vm_compute. split; discriminate.
  - vm_compute. split; discriminate.
  - vm_compute. split; discriminate.
Defined.

(** ** Restart: the record read back *)

Section RestartRecord.
Context {FS : Type}.
Implicit Types (st : Store FS) (buf : buffer).

Ltac over_rows w :=
  rewrite (nth_after_rows _ w) by reflexivity; cbn [Nat.add nth app].

Ltac in_rows w :=
  rewrite (nth_rows _ w) by (reflexivity || assumption || lia);
  cbn [Nat.add nth app].

Lemma pack_restart_ivec i buf st (a : ivec) :
  snd (pack_restart i buf st)
      (restart_ivec_at (rounds (num_bond st i)) (rounds (num_angle st i)) a)
  = ivec_word a (ivecs st a i).
Proof.
  unfold pack_restart. cbn [snd]. unfold blit.
  destruct a; cbn [restart_ivec_at ivec_word]; try reflexivity.
  - replace (13 + 3 * rounds (num_bond st i))%nat
      with (13 + (rounds (num_bond st i) * 3 + 0))%nat by lia.
    cbn [Nat.add nth app]. over_rows 3%nat. reflexivity.
  - replace (14 + 3 * rounds (num_bond st i) + 5 * rounds (num_angle st i))%nat
      with (13 + (rounds (num_bond st i) * 3
                  + (1 + (rounds (num_angle st i) * 5 + 0))))%nat by lia.
    cbn [Nat.add nth app]. over_rows 3%nat. over_rows 5%nat. reflexivity.
Qed.

Lemma pack_restart_iarr i buf st (a : iarr) (k : nat) :
  (k < restart_rows_i (rounds (num_bond st i)) (rounds (num_angle st i))
         (rounds (num_dihedral st i)) a)%nat ->
  snd (pack_restart i buf st)
      (restart_iarr_at (rounds (num_bond st i)) (rounds (num_angle st i)) a k)
  = Wint (if is_type a then MAX (iarrs st a i k) (int_neg (iarrs st a i k))
          else iarrs st a i k).
Proof.
  intros Hk. unfold pack_restart. cbn [snd]. unfold blit.
  set (nb := rounds (num_bond st i)) in *. set (na := rounds (num_angle st i)) in *.
  set (nd := rounds (num_dihedral st i)) in *.
  destruct a; cbn [restart_iarr_at restart_rows_i count_rows_i is_type] in *;
    try lia.
  - replace (13 + 3 * k)%nat with (13 + (k * 3 + 0))%nat by lia.
    cbn [Nat.add nth app]. in_rows 3%nat. reflexivity.
  - replace (13 + 3 * k + 1)%nat with (13 + (k * 3 + 1))%nat by lia.
    cbn [Nat.add nth app]. in_rows 3%nat. reflexivity.
  - replace (14 + 3 * nb + 5 * k)%nat
      with (13 + (nb * 3 + (1 + (k * 5 + 0))))%nat by lia.
    cbn [Nat.add nth app]. over_rows 3%nat. in_rows 5%nat. reflexivity.
  - replace (14 + 3 * nb + 5 * k + 1)%nat
      with (13 + (nb * 3 + (1 + (k * 5 + 1))))%nat by lia.
    cbn [Nat.add nth app]. over_rows 3%nat. in_rows 5%nat. reflexivity.
  - replace (14 + 3 * nb + 5 * k + 2)%nat
      with (13 + (nb * 3 + (1 + (k * 5 + 2))))%nat by lia.
    cbn [Nat.add nth app]. over_rows 3%nat. in_rows 5%nat. reflexivity.
  - replace (14 + 3 * nb + 5 * k + 3)%nat
      with (13 + (nb * 3 + (1 + (k * 5 + 3))))%nat by lia.
    cbn [Nat.add nth app]. over_rows 3%nat. in_rows 5%nat. reflexivity.
  - replace (15 + 3 * nb + 5 * na + 5 * k)%nat
      with (13 + (nb * 3 + (1 + (na * 5 + (1 + (k * 5 + 0))))))%nat by lia.
    cbn [Nat.add nth app]. over_rows 3%nat. over_rows 5%nat. in_rows 5%nat.
    reflexivity.
  - replace (15 + 3 * nb + 5 * na + 5 * k + 1)%nat
      with (13 + (nb * 3 + (1 + (na * 5 + (1 + (k * 5 + 1))))))%nat by lia.
    cbn [Nat.add nth app]. over_rows 3%nat. over_rows 5%nat. in_rows 5%nat.
    reflexivity.
  - replace (15 + 3 * nb + 5 * na + 5 * k + 2)%nat
      with (13 + (nb * 3 + (1 + (na * 5 + (1 + (k * 5 + 2))))))%nat by lia.
    cbn [Nat.add nth app]. over_rows 3%nat. over_rows 5%nat. in_rows 5%nat.
    reflexivity.
  - replace (15 + 3 * nb + 5 * na + 5 * k + 3)%nat
      with (13 + (nb * 3 + (1 + (na * 5 + (1 + (k * 5 + 3))))))%nat by lia.
    cbn [Nat.add nth app]. over_rows 3%nat. over_rows 5%nat. in_rows 5%nat.
    reflexivity.
  - replace (15 + 3 * nb + 5 * na + 5 * k + 4)%nat
      with (13 + (nb * 3 + (1 + (na * 5 + (1 + (k * 5 + 4))))))%nat by lia.
    cbn [Nat.add nth app]. over_rows 3%nat. over_rows 5%nat. in_rows 5%nat.
    reflexivity.
Qed.

Lemma pack_restart_darr i buf st (a : darr) (k : nat) :
  (k < atom_rows_d st i a)%nat ->
  snd (pack_restart i buf st)
      (restart_darr_at (rounds (num_bond st i)) a k)
  = Wdouble (darrs st a i k).
Proof.
  intros Hk. unfold pack_restart. cbn [snd]. unfold blit.
  set (nb := rounds (num_bond st i)) in *.
  destruct a; unfold atom_rows_d in Hk; cbn [restart_darr_at count_rows_d] in *.
  - destruct k as [|[|[|k]]]; [reflexivity..|lia].
  - destruct k as [|[|[|k]]]; [reflexivity..|lia].
  - lia.
  - replace (13 + 3 * k + 2)%nat with (13 + (k * 3 + 2))%nat by lia.
    cbn [Nat.add nth app]. in_rows 3%nat. reflexivity.
  - replace (14 + 3 * nb + 5 * k + 4)%nat
      with (13 + (nb * 3 + (1 + (k * 5 + 4))))%nat by lia.
    cbn [Nat.add nth app]. over_rows 3%nat. in_rows 5%nat. reflexivity.
Qed.

(** The words of the fixes close the record. *)
Lemma pack_restart_fix_word i buf st (j : nat) :
  (j < length (restart_fix_words i st))%nat ->
  snd (pack_restart i buf st)
      (restart_fixes_at (rounds (num_bond st i)) (rounds (num_angle st i))
         (rounds (num_dihedral st i)) + j)%nat
  = nth j (restart_fix_words i st) (Wdouble 0).
Proof.
  intros Hj. unfold pack_restart, restart_fixes_at, restart_fix_words in *.
  cbn [snd]. unfold blit.
  set (nb := rounds (num_bond st i)). set (na := rounds (num_angle st i)).
  set (nd := rounds (num_dihedral st i)).
  replace (15 + 3 * nb + 5 * na + 5 * nd + j)%nat
    with (13 + (nb * 3 + (1 + (na * 5 + (1 + (nd * 5 + j))))))%nat by lia.
  cbn [Nat.add nth app]. over_rows 3%nat. over_rows 5%nat. over_rows 5%nat.
  apply nth_indep. exact Hj.
Qed.

End RestartRecord.

Section RestartUnpack.
Context {FS : Type} {lmp : LmpType}.
Implicit Types (st : Store FS) (buf : buffer) (extra : table).

(** The loop that fills [atom->extra]. *)
Lemma unpack_restart_extra_loop (nl : nat) buf (n : nat) :
  forall (m : nat) extra,
    fst (for_ n (unpack_restart_extra nl buf) (m, extra)) = (m + n)%nat
    /\ forall r j,
         snd (for_ n (unpack_restart_extra nl buf) (m, extra)) r j
         = if (Nat.eqb r nl && Nat.ltb j n)%bool
           then as_double (buf (m + j)%nat) else extra r j.
Proof.
  unfold for_. induction n as [|n IH]; intros m extra.
  - cbn [for_from fst snd]. split; [lia|]. intros r j.
    rewrite andb_false_r. reflexivity.
  - rewrite for_from_S. cbn [Nat.add].
    destruct (IH m extra) as [Hc Ht].
    destruct (for_from 0 n (unpack_restart_extra nl buf) (m, extra)) as [m1 e1].
    cbn [fst snd] in Hc, Ht. subst m1.
    cbn [unpack_restart_extra fst snd]. split; [lia|]. intros r j.
    unfold set_table. rewrite Ht.
    destruct (Nat.eqb_spec nl r) as [Hr|Hr], (Nat.eqb_spec r nl) as [Hr'|Hr'];
      try congruence; cbn [andb]; [|reflexivity].
    destruct (Nat.eqb_spec n j) as [<-|Hj].
    + replace (Nat.ltb n (S n)) with true by (symmetry; apply Nat.ltb_lt; lia).
      reflexivity.
    + destruct (Nat.ltb_spec j n), (Nat.ltb_spec j (S n)); try lia; reflexivity.
Qed.

(** Follows a read of the final store back through the loops and the
    assignments to the word it came from. *)
Ltac trace_back :=
  repeat first
    [ progress store_simpl
    | match goal with
      | H : forall a s l, iarrs ?S a s l = _ |- context [iarrs ?S _ _ _] =>
          rewrite H
      | H : forall a s l, darrs ?S a s l = _ |- context [darrs ?S _ _ _] =>
          rewrite H
      | H : ivecs ?S = _ |- context [ivecs ?S] => rewrite H
      | P := _ : Store _ |- _ => progress unfold P
      end
    | progress simpl (col_index _ _) ].

Lemma unpack_restart_reads (nextra_store : Z) buf extra st st1 (nb na nd : nat) :
  grow_if_full (nlocal st) st = Ok st1 ->
  rounds (as_int (buf 12%nat)) = nb ->
  rounds (as_int (buf (13 + 3 * nb)%nat)) = na ->
  rounds (as_int (buf (14 + 3 * nb + 5 * na)%nat)) = nd ->
  let nl := nlocal st in
  let core := restart_fixes_at nb na nd in
  exists st',
    unpack_restart nextra_store buf extra st
    = Ok (if nextra_store =? 0 then (core, extra)
          else for_ (rounds (as_int (buf 0%nat) - Z.of_nat core))
                 (unpack_restart_extra nl buf) (core, extra),
          st')
    /\ nlocal st' = S nl /\ nmax st' = nmax st1
    /\ cfg st' = cfg st /\ fixes st' = fixes st1
    /\ (forall a, ivecs st' a nl = ivec_read a (buf (restart_ivec_at nb na a)))
    /\ (forall a k, (k < restart_rows_i nb na nd a)%nat ->
          iarrs st' a nl k = as_int (buf (restart_iarr_at nb na a k)))
    /\ (forall k, (k < 3)%nat -> nspecial st' nl k = 0)
    /\ (forall a k, (k < count_rows_d nb na a)%nat ->
          darrs st' a nl k = as_double (buf (restart_darr_at nb a k)))
    /\ (forall s, s <> nl -> same_slot st st' s).
Proof.
  intros Hroom Hnb Hna Hnd nl core. subst nl core.
  destruct (grow_if_full_keeps _ _ _ Hroom) as (Gc & Gn & Gi & Ga & Gd).
  unfold unpack_restart. rewrite Hroom. cbn [bind].
  set (nl := nlocal st).
  (* the fixed fields and the bonds *)
  match goal with
  | |- context [for_ _ (unpack_exchange_bond nl buf) (13%nat, ?h)] => set (P1 := h)
  end.
  assert (B1 : num_bond P1 nl = as_int (buf 12%nat))
    by (unfold P1; store_simpl; reflexivity).
  rewrite B1, Hnb, for_bond_rows.
  pose proof (rows_scalars nl buf bond_cols nb 0 13 P1) as N1.
  destruct (rows_loop nl buf bond_cols nb 13 P1 NoDup_bond_cols)
    as (S1 & E1 & C1 & L1 & X1 & V1 & I1 & D1).
  rewrite E1 in N1 |- *. cbn [snd] in N1. destruct N1 as (_ & N1 & _).
  cbn [length bond_cols] in *.
  replace (13 + nb * 3)%nat with (13 + 3 * nb)%nat in * by lia.
  (* the angles *)
  match goal with
  | |- context [for_ _ (unpack_exchange_angle nl buf) (_, ?h)] => set (P2 := h)
  end.
  assert (B2 : num_angle P2 nl = as_int (buf (13 + 3 * nb)%nat))
    by (unfold P2; store_simpl; reflexivity).
  rewrite B2, Hna, for_angle_rows.
  pose proof (rows_scalars nl buf angle_cols na 0 (S (13 + 3 * nb)) P2) as N2.
  destruct (rows_loop nl buf angle_cols na (S (13 + 3 * nb)) P2 NoDup_angle_cols)
    as (S2 & E2 & C2 & L2 & X2 & V2 & I2 & D2).
  rewrite E2 in N2 |- *. cbn [snd] in N2. destruct N2 as (_ & N2 & _).
  cbn [length angle_cols] in *.
  replace (S (13 + 3 * nb) + na * 5)%nat with (14 + 3 * nb + 5 * na)%nat in * by lia.
  (* the dihedrals *)
  match goal with
  | |- context [for_ _ (unpack_exchange_dihedral nl buf) (_, ?h)] => set (P3 := h)
  end.
  assert (B3 : num_dihedral P3 nl = as_int (buf (14 + 3 * nb + 5 * na)%nat))
    by (unfold P3; store_simpl; reflexivity).
  rewrite B3, Hnd, for_dihedral_rows.
  pose proof (rows_scalars nl buf dihedral_cols nd 0 (S (14 + 3 * nb + 5 * na)) P3)
    as N3.
  destruct (rows_loop nl buf dihedral_cols nd (S (14 + 3 * nb + 5 * na)) P3
              NoDup_dihedral_cols)
    as (S3 & E3 & C3 & L3 & X3 & V3 & I3 & D3).
  rewrite E3 in N3 |- *. cbn [snd] in N3. destruct N3 as (_ & N3 & _).
  cbn [length dihedral_cols] in *.
  replace (S (14 + 3 * nb + 5 * na) + nd * 5)%nat
    with (restart_fixes_at nb na nd) in * by (unfold restart_fixes_at; lia).
  (* the special-neighbour counts, the extra values *)
  match goal with
  | |- context [set_nlocal (S nl) ?h] => set (P4 := h)
  end.
  exists (set_nlocal (S nl) P4). split.
  { destruct (nextra_store =? 0); [reflexivity|].
    destruct (for_ _ (unpack_restart_extra nl buf) _) as [m5 e5]. reflexivity. }
  split; [reflexivity|].
  split.
  { unfold P4. store_simpl. rewrite N3. unfold P3. store_simpl.
    rewrite N2. unfold P2. store_simpl. rewrite N1. unfold P1. store_simpl.
    reflexivity. }
  split.
  { unfold P4. store_simpl. rewrite C3. unfold P3. store_simpl.
    rewrite C2. unfold P2. store_simpl. rewrite C1. unfold P1. store_simpl.
    exact Gc. }
  split.
  { unfold P4. store_simpl. rewrite X3. unfold P3. store_simpl.
    rewrite X2. unfold P2. store_simpl. rewrite X1. unfold P1. store_simpl.
    reflexivity. }
  split; [|split; [|split; [|split]]].
  - intros a. destruct a; trace_back; try reflexivity;
      cbn [restart_ivec_at]; f_equal; f_equal; unfold restart_fixes_at; lia.
  - intros a k Hk. apply Nat.ltb_lt in Hk.
    destruct a; cbn [restart_rows_i count_rows_i restart_iarr_at] in Hk |- *;
      try discriminate;
      trace_back; rewrite Hk; trace_back; try reflexivity; f_equal; f_equal; lia.
  - intros k Hk. destruct k as [|[|[|k]]]; [| | |lia]; trace_back; reflexivity.
  - intros a k Hk. apply Nat.ltb_lt in Hk.
    destruct a; cbn [count_rows_d restart_darr_at] in Hk |- *;
      try (trace_back; rewrite Hk; trace_back; try reflexivity;
           f_equal; f_equal; lia);
      apply Nat.ltb_lt in Hk; try lia;
      (destruct k as [|[|[|k]]]; [| | |lia]); trace_back; reflexivity.
  - intros s Hs.
    assert (Hs1 : Nat.eqb s nl = false) by (apply Nat.eqb_neq; exact Hs).
    assert (Hs2 : Nat.eqb nl s = false) by (apply Nat.eqb_neq; congruence).
    unfold same_slot. repeat split; intros a; intros;
      destruct a; repeat (trace_back; rewrite ?Hs1, ?Hs2);
      rewrite ?Gi, ?Ga, ?Gd; reflexivity.
Qed.

End RestartUnpack.

(** X12.  A restart record read back.  For a slot whose integers are [int]s
    and whose types are not [INT_MIN], on a store that can take one more atom:
    the record [pack_restart(i)] writes has its own length in word 0 and the
    words of the fixes at its end; [unpack_restart] on that buffer appends an
    owned atom with slot [i]'s position, velocity, tag, type, mask, image
    flags, molecule id, counts and topology, except that every bond, angle and
    dihedral type comes back as its absolute value, and with three zero
    special-neighbour counts; the other slots are as they were.  When
    [atom->nextra_store] is 0 the words of the fixes are not read and the
    count returned is where they start; otherwise they are stored in the row
    of the new atom in [atom->extra], and the count returned is the length of
    the record. *)
Theorem restart_round_trip {FS : Type} {lmp : LmpType} (st : Store FS) (i : nat)
    (buf : buffer) (nextra_store : Z) (extra : table) :
  restart_ints st i ->
  has_room (nlocal st) st ->
  Z.of_nat (fst (pack_restart i buf st)) <= INT_MAX ->
  let m := fst (pack_restart i buf st) in
  let buf' := snd (pack_restart i buf st) in
  let nl := nlocal st in
  let nb := rounds (num_bond st i) in
  let na := rounds (num_angle st i) in
  let nd := rounds (num_dihedral st i) in
  let fix_words := restart_fix_words i st in
  buf' 0%nat = Wint (Z.of_nat m)
  /\ m = (restart_fixes_at nb na nd + length fix_words)%nat
  /\ exists m' extra' st',
       unpack_restart nextra_store buf' extra st = Ok (m', extra', st')
       /\ nlocal st' = S nl
       /\ (forall a, ivecs st' a nl = ivecs st a i)
       /\ (forall a k, (k < restart_rows_i nb na nd a)%nat ->
             iarrs st' a nl k = restart_entry a (iarrs st a i k))
       /\ (forall k, (k < 3)%nat -> nspecial st' nl k = 0)
       /\ (forall a k, (k < atom_rows_d st i a)%nat ->
             darrs st' a nl k = darrs st a i k)
       /\ (forall s, s <> nl -> same_slot st st' s)
       /\ (if nextra_store =? 0
           then m' = restart_fixes_at nb na nd
                /\ forall r j, extra' r j = extra r j
           else m' = m
                /\ forall r j,
                     extra' r j
                     = if (Nat.eqb r nl && Nat.ltb j (length fix_words))%bool
                       then as_double (nth j fix_words (Wdouble 0))
                       else extra r j).
Proof.
  intros [Hiv Hia] [st1 Hroom] Hlen m buf' nl nb na nd fix_words.
  split; [reflexivity|].
  assert (Hm : m = (restart_fixes_at nb na nd + length fix_words)%nat).
  { unfold m. rewrite pack_restart_count. unfold restart_fixes_at. reflexivity. }
  split; [exact Hm|].
  assert (Rv : forall a, ivec_read a (buf' (restart_ivec_at nb na a)) = ivecs st a i).
  { intros a. unfold buf', nb, na. rewrite pack_restart_ivec.
    apply ivec_read_word. apply Hiv. }
  assert (Ri : forall a k, (k < restart_rows_i nb na nd a)%nat ->
             as_int (buf' (restart_iarr_at nb na a k))
             = restart_entry a (iarrs st a i k)).
  { intros a k Hk. unfold buf', nb, na. rewrite pack_restart_iarr by exact Hk.
    destruct (Hia a k Hk) as [Hr Hn]. unfold restart_entry.
    destruct (is_type a).
    - specialize (Hn eq_refl). rewrite MAX_int_neg by exact Hn.
      apply as_int_Wint.
      unfold int_negatable, int_range, INT_MIN, INT_MAX in *. lia.
    - apply as_int_Wint, Hr. }
  assert (Rd : forall a k, (k < atom_rows_d st i a)%nat ->
             as_double (buf' (restart_darr_at nb a k)) = darrs st a i k).
  { intros a k Hk. unfold buf', nb. rewrite pack_restart_darr by exact Hk.
    reflexivity. }
  destruct (unpack_restart_reads nextra_store buf' extra st st1 nb na nd Hroom)
    as (st' & Hu & Hn & _ & _ & _ & Uv & Ui & Us & Ud & Uo).
  - exact (f_equal rounds (Rv a_num_bond)).
  - exact (f_equal rounds (Rv a_num_angle)).
  - exact (f_equal rounds (Rv a_num_dihedral)).
  - fold nl in Hu, Hn, Uv, Ui, Us, Ud, Uo.
    assert (Hw0 : as_int (buf' 0%nat) = Z.of_nat m).
    { apply as_int_Wint. unfold int_range, INT_MIN. fold m in Hlen. lia. }
    rewrite Hw0 in Hu.
    replace (rounds (Z.of_nat m - Z.of_nat (restart_fixes_at nb na nd)))
      with (length fix_words) in Hu by (unfold rounds; lia).
    pose proof (unpack_restart_extra_loop nl buf' (length fix_words)
                  (restart_fixes_at nb na nd) extra) as [Lc Lt].
    destruct (for_ (length fix_words) (unpack_restart_extra nl buf')
                (restart_fixes_at nb na nd, extra)) as [m5 e5].
    cbn [fst snd] in Lc, Lt.
    exists (if nextra_store =? 0 then restart_fixes_at nb na nd else m5),
           (if nextra_store =? 0 then extra else e5), st'.
    split; [rewrite Hu; destruct (nextra_store =? 0); reflexivity|].
    split; [exact Hn|].
    split; [intros a; rewrite Uv; apply Rv|].
    split; [intros a k Hk; rewrite Ui by exact Hk; apply Ri, Hk|].
    split; [exact Us|].
    split; [intros a k Hk; rewrite Ud by exact Hk; apply Rd, Hk|].
    split; [exact Uo|].
    destruct (nextra_store =? 0).
    + split; reflexivity.
    + split; [lia|]. intros r j. rewrite Lt.
      destruct (Nat.eqb r nl && Nat.ltb j (length fix_words))%bool eqn:Hin;
        [|reflexivity].
      apply andb_true_iff in Hin. destruct Hin as [_ Hj].
      apply Nat.ltb_lt in Hj. unfold buf', nb, na, nd.
      rewrite pack_restart_fix_word by exact Hj. reflexivity.
Qed.

Lemma restart_round_trip_witness :
  let st := restart_store in
  let i := 0%nat in
  let extra := empty_table in
  let m := fst (pack_restart i empty_buffer st) in
  let buf' := snd (pack_restart i empty_buffer st) in
  let nl := nlocal st in
  let nb := rounds (num_bond st i) in
  let na := rounds (num_angle st i) in
  let nd := rounds (num_dihedral st i) in
  let fix_words := restart_fix_words i st in
  buf' 0%nat = Wint (Z.of_nat m)
  /\ m = (restart_fixes_at nb na nd + length fix_words)%nat
  /\ exists m' extra' st',
       unpack_restart (lmp := smallbig) 1 buf' extra st = Ok (m', extra', st')
       /\ nlocal st' = S nl
       /\ (forall a, ivecs st' a nl = ivecs st a i)
       /\ (forall a k, (k < restart_rows_i nb na nd a)%nat ->
             iarrs st' a nl k = restart_entry a (iarrs st a i k))
       /\ (forall k, (k < 3)%nat -> nspecial st' nl k = 0)
       /\ (forall a k, (k < atom_rows_d st i a)%nat ->
             darrs st' a nl k = darrs st a i k)
       /\ (forall s, s <> nl -> same_slot st st' s)
       /\ (m' = m
           /\ forall r j,
                extra' r j
                = if (Nat.eqb r nl && Nat.ltb j (length fix_words))%bool
                  then as_double (lmp := smallbig) (nth j fix_words (Wdouble 0))
                  else extra r j).
Proof.
  apply (restart_round_trip (lmp := smallbig) restart_store 0 empty_buffer 1
           empty_table).
  - split.
    + intros a Ha. destruct a; vm_compute; split; discriminate.
    + intros a k Hk. destruct a; vm_compute in Hk |- *;
        try (exfalso; lia);
        (split; [split; discriminate
                | intros _; split; [reflexivity | discriminate]]).
  - exists restart_store. reflexivity.
  - vm_compute. discriminate.
Defined.

(** ** The owned atoms fit the arrays *)

Section Fits.
Context {FS : Type} {lmp : LmpType}.
Implicit Types (st : Store FS) (buf : buffer).

(** After the capacity check the slot of the new atom is below the
    capacity. *)
Lemma grow_if_full_fits st st1 :
  fits st -> grow_if_full (nlocal st) st = Ok st1 ->
  Z.of_nat (nlocal st) < nmax st1 /\ nmax st <= nmax st1.
Proof.
  unfold fits. intros Hf Hg.
  pose proof (grow_if_full_cases (nlocal st) st) as Hc. rewrite Hg in Hc.
  destruct Hc as (nm & fs & -> & Hsame & Hgrew).
  change (nmax (regrow nm fs st)) with nm.
  destruct (Z.eq_dec (Z.of_nat (nlocal st)) (nmax st)) as [He|Hne].
  - destruct (Hgrew He) as [-> _]. unfold DELTA. lia.
  - destruct (Hsame Hne) as [-> _]. lia.
Qed.

(** [unpack_exchange] keeps the capacity it finds after the check. *)
Lemma unpack_exchange_capacity buf st st1 :
  grow_if_full (nlocal st) st = Ok st1 ->
  exists m st',
    unpack_exchange buf st = Ok (m, st')
    /\ nlocal st' = S (nlocal st) /\ nmax st' = nmax st1.
Proof.
  intros Hroom. unfold unpack_exchange. rewrite Hroom. cbn [bind].
  set (nl := nlocal st).
  match goal with
  | |- context [for_ ?n (unpack_exchange_bond nl buf) (13%nat, ?h)] =>
      set (n1 := n); set (P1 := h) in *
  end.
  rewrite for_bond_rows.
  pose proof (rows_scalars nl buf bond_cols n1 0 13 P1) as N1.
  destruct (for_from 0 n1 (row_body bond_cols nl buf) (13%nat, P1)) as [m1 S1].
  cbn [snd] in N1. destruct N1 as (_ & N1 & _).
  match goal with
  | |- context [for_ ?n (unpack_exchange_angle nl buf) (_, ?h)] =>
      set (n2 := n); set (P2 := h) in *
  end.
  rewrite for_angle_rows.
  pose proof (rows_scalars nl buf angle_cols n2 0 (S m1) P2) as N2.
  destruct (for_from 0 n2 (row_body angle_cols nl buf) (S m1, P2)) as [m2 S2].
  cbn [snd] in N2. destruct N2 as (_ & N2 & _).
  match goal with
  | |- context [for_ ?n (unpack_exchange_dihedral nl buf) (_, ?h)] =>
      set (n3 := n); set (P3 := h) in *
  end.
  rewrite for_dihedral_rows.
  pose proof (rows_scalars nl buf dihedral_cols n3 0 (S m2) P3) as N3.
  destruct (for_from 0 n3 (row_body dihedral_cols nl buf) (S m2, P3)) as [m3 S3].
  cbn [snd] in N3. destruct N3 as (_ & N3 & _).
  match goal with
  | |- context [for_ ?n (unpack_exchange_special nl buf) (_, ?h)] =>
      set (n4 := n); set (P4 := h) in *
  end.
  rewrite for_special_rows.
  pose proof (rows_scalars nl buf special_cols n4 0 (S (S (S m3))) P4) as N4.
  destruct (for_from 0 n4 (row_body special_cols nl buf) (S (S (S m3)), P4))
    as [m4 S4].
  cbn [snd] in N4. destruct N4 as (_ & N4 & _).
  destruct (unpack_exchange_fixes nl buf m4 (extra_grow (cfg S4)) (fixes S4))
    as [m5 fs].
  eexists _, _. split; [reflexivity|]. split; [reflexivity|].
  store_simpl. rewrite N4. unfold P4. store_simpl.
  rewrite N3. unfold P3. store_simpl. rewrite N2. unfold P2. store_simpl.
  rewrite N1. unfold P1. store_simpl. reflexivity.
Qed.

End Fits.

(** X13.  Every function that appends an owned atom ([create_atom],
    [data_atom], [unpack_exchange], [unpack_restart]) keeps the owned atoms
    within the arrays: if they fit before the call and the call succeeds,
    there is one owned atom more, they still fit, and the capacity has not
    shrunk. *)
Theorem appended_atom_fits {FS : Type} {lmp : LmpType} (st st' : Store FS)
    (itype : Z) (coord : nat -> double) (imagetmp : Z) (values : nat -> string)
    (buf : buffer) (nextra_store : Z) (extra : table) :
  fits st ->
  (create_atom itype coord st = Ok st'
   \/ data_atom coord imagetmp values st = Ok st'
   \/ (exists m, unpack_exchange buf st = Ok (m, st'))
   \/ (exists m extra',
         unpack_restart nextra_store buf extra st = Ok (m, extra', st'))) ->
  nlocal st' = S (nlocal st) /\ fits st' /\ nmax st <= nmax st'.
Proof.
  intros Hf Hcall.
  assert (Hgoal : forall st1,
             grow_if_full (nlocal st) st = Ok st1 ->
             nlocal st' = S (nlocal st) -> nmax st' = nmax st1 ->
             nlocal st' = S (nlocal st) /\ fits st' /\ nmax st <= nmax st').
  { intros st1 Hg Hn Hm. destruct (grow_if_full_fits st st1 Hf Hg) as [H1 H2].
    unfold fits. rewrite Hn, Hm. repeat split; lia. }
  destruct (grow_if_full (nlocal st) st) as [st1|msg] eqn:Hroom.
  2:{ exfalso. destruct Hcall as [H|[H|[[m H]|(m & e & H)]]].
      - unfold create_atom in H. rewrite Hroom in H. discriminate.
      - unfold data_atom in H. rewrite Hroom in H. discriminate.
      - unfold unpack_exchange in H. rewrite Hroom in H. discriminate.
      - unfold unpack_restart in H. rewrite Hroom in H. discriminate. }
  destruct Hcall as [H|[H|[[m H]|(m & e & H)]]].
  - unfold create_atom in H. rewrite Hroom in H. cbn [bind] in H.
    injection H as <-. apply (Hgoal st1 eq_refl); reflexivity.
  - unfold data_atom in H. rewrite Hroom in H. cbn [bind] in H.
    destruct (_ <=? 0) in H; [discriminate|].
    destruct (_ || _)%bool in H; [discriminate|].
    injection H as <-. apply (Hgoal st1 eq_refl); reflexivity.
  - destruct (unpack_exchange_capacity buf st st1 Hroom)
      as (m0 & st0 & Hu & Hn & Hm).
    rewrite Hu in H. injection H as _ <-. apply (Hgoal st1 eq_refl); assumption.
  - destruct (unpack_restart_reads nextra_store buf extra st st1 _ _ _ Hroom
                eq_refl eq_refl eq_refl)
      as (st0 & Hu & Hn & Hm & _).
    rewrite Hu in H. injection H as _ <-. apply (Hgoal st1 eq_refl); assumption.
Qed.

Lemma appended_atom_fits_witness :
  let st := border_store in
  let coord := fun _ : nat => 0.5%float in
  let st' := match create_atom (lmp := smallbig) 2 coord st with
             | Ok s => s
             | Fatal _ => st
             end in
  nlocal st' = S (nlocal st) /\ fits st' /\ nmax st <= nmax st'.
Proof.
  intros st coord st'.
  apply (appended_atom_fits (lmp := smallbig) st st' 2 coord 0 atoms_row
           empty_buffer 0 empty_table).
  - vm_compute. discriminate.
  - left. reflexivity.
Defined.

(** ** copy: what it assigns *)

Section Copied.
Context {FS : Type}.
Variables (st0 : Store FS) (i j : nat).
Implicit Types (st : Store FS) (Pv : ivec -> Prop) (Pi : iarr -> nat -> Prop)
  (Pd : darr -> nat -> Prop).

Lemma copied_start :
  copied st0 i j (fun _ => False) (fun _ _ => False) (fun _ _ => False) st0.
Proof.
  constructor; [apply copy_inv_refl | reflexivity | | |]; intros; contradiction.
Qed.

Lemma copied_weaken Pv Pi Pd Pv' Pi' Pd' st :
  (forall a, Pv' a -> Pv a) -> (forall a k, Pi' a k -> Pi a k) ->
  (forall a k, Pd' a k -> Pd a k) ->
  copied st0 i j Pv Pi Pd st -> copied st0 i j Pv' Pi' Pd' st.
Proof.
  intros Hv Hi Hd [H1 H0 H2 H3 H4]. constructor; [exact H1|exact H0| | |]; intros.
  - apply H2, Hv. assumption.
  - apply H3, Hi. assumption.
  - apply H4, Hd. assumption.
Qed.

(** Slot [i] is read as it was at the start. *)
Lemma copied_source Pv Pi Pd st :
  i <> j -> copied st0 i j Pv Pi Pd st -> same_slot st0 st i.
Proof. intros Hij [H1 _ _ _ _]. exact (inv_others _ _ _ _ H1 i Hij). Qed.

Lemma copied_set_ivec Pv Pi Pd st (a : ivec) :
  i <> j ->
  copied st0 i j Pv Pi Pd st ->
  copied st0 i j (fun b => b = a \/ Pv b) Pi Pd (set_ivec a j (ivecs st a i) st).
Proof.
  intros Hij H. destruct (copied_source _ _ _ _ Hij H) as (Sv & _ & _).
  destruct H as [H1 H0 H2 H3 H4]. constructor.
  - apply copy_inv_set_ivec, H1.
  - exact H0.
  - intros b Hb. cbn [set_ivec ivecs].
    destruct (ivec_eq_dec a b) as [<-|Hne].
    + rewrite Nat.eqb_refl. apply Sv.
    + apply H2. destruct Hb as [Hb|Hb]; [congruence | exact Hb].
  - exact H3.
  - exact H4.
Qed.

Lemma copied_set_iarr Pv Pi Pd st (a : iarr) (k : nat) :
  i <> j ->
  (k < atom_rows_i st0 i a)%nat ->
  copied st0 i j Pv Pi Pd st ->
  copied st0 i j Pv (fun b l => (b = a /\ l = k) \/ Pi b l) Pd
    (set_iarr a j k (iarrs st a i k) st).
Proof.
  intros Hij Hk H. destruct (copied_source _ _ _ _ Hij H) as (_ & Si & _).
  destruct H as [H1 H0 H2 H3 H4]. constructor.
  - apply copy_inv_set_iarr; assumption.
  - exact H0.
  - exact H2.
  - intros b l Hb. cbn [set_iarr iarrs].
    destruct (iarr_eq_dec a b) as [<-|Hne].
    + rewrite Nat.eqb_refl. cbn [andb].
      destruct (Nat.eqb_spec k l) as [<-|Hl].
      * apply Si.
      * apply H3. destruct Hb as [[_ Hb]|Hb]; [congruence | exact Hb].
    + apply H3. destruct Hb as [[Hb _]|Hb]; [congruence | exact Hb].
  - exact H4.
Qed.

Lemma copied_set_darr Pv Pi Pd st (a : darr) (k : nat) :
  i <> j ->
  (k < atom_rows_d st0 i a)%nat ->
  copied st0 i j Pv Pi Pd st ->
  copied st0 i j Pv Pi (fun b l => (b = a /\ l = k) \/ Pd b l)
    (set_darr a j k (darrs st a i k) st).
Proof.
  intros Hij Hk H. destruct (copied_source _ _ _ _ Hij H) as (_ & _ & Sd).
  destruct H as [H1 H0 H2 H3 H4]. constructor.
  - apply copy_inv_set_darr; assumption.
  - exact H0.
  - exact H2.
  - exact H3.
  - intros b l Hb. cbn [set_darr darrs].
    destruct (darr_eq_dec a b) as [<-|Hne].
    + rewrite Nat.eqb_refl. cbn [andb].
      destruct (Nat.eqb_spec k l) as [<-|Hl].
      * apply Sd.
      * apply H4. destruct Hb as [[_ Hb]|Hb]; [congruence | exact Hb].
    + apply H4. destruct Hb as [[Hb _]|Hb]; [congruence | exact Hb].
Qed.

(** A loop that assigns, in round [k], entry [k] of the rows in [Qi] and
    [Qd]. *)
Lemma copied_loop Pv Pi Pd (Qi : iarr -> Prop) (Qd : darr -> Prop) st (n : nat)
    (body : nat -> Store FS -> Store FS) :
  (forall k t Pi' Pd', (k < n)%nat ->
     copied st0 i j Pv Pi' Pd' t ->
     copied st0 i j Pv (fun b l => (Qi b /\ l = k) \/ Pi' b l)
       (fun b l => (Qd b /\ l = k) \/ Pd' b l) (body k t)) ->
  copied st0 i j Pv Pi Pd st ->
  copied st0 i j Pv (fun b l => (Qi b /\ (l < n)%nat) \/ Pi b l)
    (fun b l => (Qd b /\ (l < n)%nat) \/ Pd b l) (for_ n body st).
Proof.
  intros Hb H0. unfold for_.
  pose (P := fun (k : nat) (t : Store FS) =>
               copied st0 i j Pv (fun b l => (Qi b /\ (l < k)%nat) \/ Pi b l)
                 (fun b l => (Qd b /\ (l < k)%nat) \/ Pd b l) t).
  change (P (0 + n)%nat (for_from 0 n body st)).
  apply for_from_ind.
  - unfold P. eapply copied_weaken; [| | |exact H0]; cbn beta.
    + intros a Ha. exact Ha.
    + intros a k [[_ Hk]|Hk]; [lia | exact Hk].
    + intros a k [[_ Hk]|Hk]; [lia | exact Hk].
  - intros k t Hk Ht. unfold P in *.
    eapply copied_weaken; [| | |apply (Hb k t _ _ ltac:(lia) Ht)]; cbn beta.
    + intros a Ha. exact Ha.
    + intros a l [[Ha Hl]|Hl]; [|right; right; exact Hl].
      destruct (Nat.eq_dec l k) as [->|Hne].
      * left. split; [exact Ha | reflexivity].
      * right. left. split; [exact Ha | lia].
    + intros a l [[Ha Hl]|Hl]; [|right; right; exact Hl].
      destruct (Nat.eq_dec l k) as [->|Hne].
      * left. split; [exact Ha | reflexivity].
      * right. left. split; [exact Ha | lia].
Qed.

End Copied.

(** Names the store a [let] of [copy] binds and moves on. *)
Ltac copy_next s :=
  lazymatch goal with
  | |- ?Q (let st := ?e in @?b st) => pose (s := e); change (Q (b s)); cbv beta
  end.

(** X14.  For distinct slots [i] and [j], after [copy(i, j, delflag)] slot [j]
    holds the atom of slot [i]: the same tag, type, mask, image flags,
    molecule id and counts, the same position and velocity, the same bonds,
    angles and dihedrals up to the counts, the same special-neighbour counts
    and special neighbours; and the state of the fixes is what their
    [copy_arrays] calls, made in order, leave. *)
Theorem copy_moves_atom {FS : Type} (st : Store FS) (i j : nat) (delflag : Z) :
  i <> j ->
  let st' := copy i j delflag st in
  same_atom st i st' j
  /\ fixes st'
     = fold_left (fun fs fx => fix_copy_arrays fx i j delflag fs)
         (extra_grow (cfg st)) (fixes st).
Proof.
  intros Hij st'.
  pose (Q := fun s : Store FS =>
               same_atom st i s j
               /\ fixes s
                  = fold_left (fun fs fx => fix_copy_arrays fx i j delflag fs)
                      (extra_grow (cfg st)) (fixes st)).
  change (Q st'). unfold st'. cbv beta delta [copy].
  pose proof (copied_start st i j) as H0.
  (* tag, type, mask, image *)
  copy_next s1.
  eassert (H1 : copied st i j _ _ _ s1)
    by (unfold s1; apply copied_set_ivec; [exact Hij | exact H0]).
  clearbody s1. clear H0. copy_next s2.
  eassert (H2 : copied st i j _ _ _ s2)
    by (unfold s2; apply copied_set_ivec; [exact Hij | exact H1]).
  clearbody s2. clear H1. copy_next s3.
  eassert (H3 : copied st i j _ _ _ s3)
    by (unfold s3; apply copied_set_ivec; [exact Hij | exact H2]).
  clearbody s3. clear H2. copy_next s4.
  eassert (H4 : copied st i j _ _ _ s4)
    by (unfold s4; apply copied_set_ivec; [exact Hij | exact H3]).
  clearbody s4. clear H3.
  (* position and velocity *)
  copy_next x0.
  eassert (Hx0 : copied st i j _ _ _ x0)
    by (unfold x0; apply copied_set_darr; [exact Hij | simpl; lia | exact H4]).
  clearbody x0. clear H4. copy_next x1.
  eassert (Hx1 : copied st i j _ _ _ x1)
    by (unfold x1; apply copied_set_darr; [exact Hij | simpl; lia | exact Hx0]).
  clearbody x1. clear Hx0. copy_next x2.
  eassert (Hx2 : copied st i j _ _ _ x2)
    by (unfold x2; apply copied_set_darr; [exact Hij | simpl; lia | exact Hx1]).
  clearbody x2. clear Hx1. copy_next v0.
  eassert (Hv0 : copied st i j _ _ _ v0)
    by (unfold v0; apply copied_set_darr; [exact Hij | simpl; lia | exact Hx2]).
  clearbody v0. clear Hx2. copy_next v1.
  eassert (Hv1 : copied st i j _ _ _ v1)
    by (unfold v1; apply copied_set_darr; [exact Hij | simpl; lia | exact Hv0]).
  clearbody v1. clear Hv0. copy_next v2.
  eassert (Hv2 : copied st i j _ _ _ v2)
    by (unfold v2; apply copied_set_darr; [exact Hij | simpl; lia | exact Hv1]).
  clearbody v2. clear Hv1.
  (* molecule *)
  copy_next s5.
  eassert (H5 : copied st i j _ _ _ s5)
    by (unfold s5; apply copied_set_ivec; [exact Hij | exact Hv2]).
  clearbody s5. clear Hv2.
  (* bonds *)
  copy_next s6.
  eassert (H6 : copied st i j _ _ _ s6)
    by (unfold s6; apply copied_set_ivec; [exact Hij | exact H5]).
  assert (C6 : num_bond s6 j = num_bond st i)
    by (apply (cp_ivec _ _ _ _ _ _ _ H6); left; reflexivity).
  clearbody s6. clear H5. rewrite C6. copy_next s7.
  eassert (H7 : copied st i j _ _ _ s7).
  { unfold s7.
    apply copied_loop
      with (Qi := fun b => b = a_bond_type \/ b = a_bond_atom)
           (Qd := fun b => b = a_bond_r0); [|exact H6].
    intros k t Pi' Pd' Hk Ht. cbv zeta.
    eapply copied_weaken;
      [| | |apply copied_set_darr;
            [exact Hij | exact Hk
            |apply copied_set_iarr;
             [exact Hij | exact Hk
             |apply copied_set_iarr; [exact Hij | exact Hk | exact Ht]]]];
      cbn beta; intros; intuition (subst; auto). }
  clearbody s7. clear H6 C6.
  (* angles *)
  copy_next s8.
  eassert (H8 : copied st i j _ _ _ s8)
    by (unfold s8; apply copied_set_ivec; [exact Hij | exact H7]).
  assert (C8 : num_angle s8 j = num_angle st i)
    by (apply (cp_ivec _ _ _ _ _ _ _ H8); left; reflexivity).
  clearbody s8. clear H7. rewrite C8. copy_next s9.
  eassert (H9 : copied st i j _ _ _ s9).
  { unfold s9.
    apply copied_loop
      with (Qi := fun b => b = a_angle_type \/ b = a_angle_atom1
                       \/ b = a_angle_atom2 \/ b = a_angle_atom3)
           (Qd := fun b => b = a_angle_a0); [|exact H8].
    intros k t Pi' Pd' Hk Ht. cbv zeta.
    eapply copied_weaken;
      [| | |apply copied_set_darr;
            [exact Hij | exact Hk
            |do 4 (apply copied_set_iarr; [exact Hij | exact Hk |]);
             exact Ht]];
      cbn beta; intros; intuition (subst; auto). }
  clearbody s9. clear H8 C8.
  (* dihedrals *)
  copy_next s10.
  eassert (H10 : copied st i j _ _ _ s10)
    by (unfold s10; apply copied_set_ivec; [exact Hij | exact H9]).
  assert (C10 : num_dihedral s10 j = num_dihedral st i)
    by (apply (cp_ivec _ _ _ _ _ _ _ H10); left; reflexivity).
  clearbody s10. clear H9. rewrite C10. copy_next s11.
  eassert (H11 : copied st i j _ _ _ s11).
  { unfold s11.
    apply copied_loop
      with (Qi := fun b => b = a_dihedral_type \/ b = a_dihedral_atom1
                       \/ b = a_dihedral_atom2 \/ b = a_dihedral_atom3
                       \/ b = a_dihedral_atom4)
           (Qd := fun _ => False); [|exact H10].
    intros k t Pi' Pd' Hk Ht. cbv zeta.
    eapply copied_weaken;
      [| | |do 5 (apply copied_set_iarr; [exact Hij | exact Hk |]); exact Ht];
      cbn beta; intros; intuition (subst; auto). }
  clearbody s11. clear H10 C10.
  (* special neighbours *)
  copy_next n0.
  eassert (Hn0 : copied st i j _ _ _ n0)
    by (unfold n0; apply copied_set_iarr; [exact Hij | simpl; lia | exact H11]).
  clearbody n0. clear H11. copy_next n1.
  eassert (Hn1 : copied st i j _ _ _ n1)
    by (unfold n1; apply copied_set_iarr; [exact Hij | simpl; lia | exact Hn0]).
  clearbody n1. clear Hn0. copy_next n2.
  eassert (Hn2 : copied st i j _ _ _ n2)
    by (unfold n2; apply copied_set_iarr; [exact Hij | simpl; lia | exact Hn1]).
  assert (C2 : nspecial n2 j 2%nat = nspecial st i 2%nat)
    by (apply (cp_iarr _ _ _ _ _ _ _ Hn2); left; split; reflexivity).
  clearbody n2. clear Hn1. rewrite C2. copy_next s12.
  eassert (H12 : copied st i j _ _ _ s12).
  { unfold s12.
    apply copied_loop with (Qi := fun b => b = a_special) (Qd := fun _ => False);
      [|exact Hn2].
    intros k t Pi' Pd' Hk Ht.
    eapply copied_weaken;
      [| | |apply copied_set_iarr; [exact Hij | exact Hk | exact Ht]];
      cbn beta; intros; intuition (subst; auto). }
  clearbody s12. clear Hn2 C2.
  (* the fixes *)
  destruct H12 as [Hinv Hfix Hv Hi Hd]. unfold Q. split.
  - unfold same_atom. cbn [set_fixes ivecs iarrs darrs]. repeat split.
    + intros a. apply Hv. destruct a; cbn beta; tauto.
    + intros a k Hk. apply Hi.
      unfold atom_rows_i in Hk.
      destruct a; cbn [count_rows_i] in Hk; cbn beta;
        try (destruct k as [|[|[|k]]]; [| | |lia]); intuition auto.
    + intros a k Hk. apply Hd.
      unfold atom_rows_d in Hk.
      destruct a; cbn [count_rows_d] in Hk; cbn beta; try (exfalso; lia);
        try (destruct k as [|[|[|k]]]; [| | |lia]); intuition auto.
  - cbn [set_fixes fixes]. rewrite Hfix, (inv_cfg _ _ _ _ Hinv). reflexivity.
Qed.

Lemma copy_moves_atom_witness :
  let st := rbc_store in
  let st' := copy 0 1 0 st in
  same_atom st 0 st' 1
  /\ fixes st'
     = fold_left (fun fs fx => fix_copy_arrays fx 0 1 0 fs)
         (extra_grow (cfg st)) (fixes st).
Proof.
  apply (copy_moves_atom rbc_store 0 1 0). discriminate.
Defined.

(** ** The restart size in general *)

Lemma restart_words_exceed_size_witness :
  Z.of_nat (restart_words_written empty_buffer rbc_store)
  = size_restart rbc_store + owned_bonds rbc_store.
Proof.
  apply (restart_words_exceed_size empty_buffer rbc_store).
  - reflexivity.
  - intros i Hi. vm_compute. repeat split; discriminate.
Defined.
